(** * Kruskal's minimum spanning tree over a disjoint-set forest

    Shallow embedding of [DisjointSet] and [kruskalMST] (the JavaScript
    module "Minimum Spanning Tree using Kruskal's Algorithm") and the
    properties of the forest, of the edge scan and of the result. *)

From stdpp Require Import gmap strings list relations sorting.
From Stdlib Require Import ZArith Lia.

(* ===================================================================== *)
(** ** JavaScript values used by the module *)
(* ===================================================================== *)

(** A vertex key as the forest sees it: a string, or [undefined] ([None]).
    [Map.prototype.get] answers [undefined] for an absent key, and [find]
    calls itself on that answer, so [undefined] does occur as a key. *)
Abbreviation value := (option string).

(** A JS number: finite values are modelled by integers (exact in the
    double format up to 2^53), plus the not-a-number value. *)
Inductive number : Type :=
  | Num (z : Z)
  | NaN.

Global Instance number_eq_dec : EqDecision number.
Proof. solve_decision. Defined.

(** ToNumber on a possibly missing property: [undefined] becomes [NaN]. *)
Definition to_number (a : option number) : number :=
  match a with
  | Some n => n
  | None => NaN
  end.

(** [a + b] on numbers-or-undefined. On integers the program's sum (a
    double) is the integer sum as long as both operands and the result lie
    within 2^53 in absolute value; beyond that the program rounds.
    [safe_weights] marks the inputs on which every sum of the loop is
    exact. *)
Definition js_add (a b : option number) : number :=
  match to_number a, to_number b with
  | Num x, Num y => Num (x + y)%Z
  | _, _ => NaN
  end.

(** [a - b]. *)
Definition js_sub (a b : option number) : number :=
  match to_number a, to_number b with
  | Num x, Num y => Num (x - y)%Z
  | _, _ => NaN
  end.

(** [a < b]: false as soon as one side is [NaN] or [undefined]. *)
Definition js_lt (a b : option number) : bool :=
  match to_number a, to_number b with
  | Num x, Num y => bool_decide (x < y)%Z
  | _, _ => false
  end.

(** [a > b]. *)
Definition js_gt (a b : option number) : bool := js_lt b a.

(* ===================================================================== *)
(** ** class DisjointSet *)
(* ===================================================================== *)

Record DisjointSet : Type := mkDS {
  parent : gmap (option string) (option string);
  rank : gmap (option string) number
}.

(** [this.parent.get(x)]: the stored parent, [undefined] when [x] has no
    entry (and also when the stored value is [undefined]). *)
Definition parent_get (ds : DisjointSet) (x : value) : value :=
  default None (parent ds !! x).

(** [this.rank.get(x)]: [None] is [undefined]. *)
Definition rank_get (ds : DisjointSet) (x : value) : option number :=
  rank ds !! x.

(** [this.parent.set(x, p)]. *)
Definition parent_set (ds : DisjointSet) (x p : value) : DisjointSet :=
  mkDS (<[x := p]> (parent ds)) (rank ds).

(** [this.rank.set(x, r)]. *)
Definition rank_set (ds : DisjointSet) (x : value) (r : number) : DisjointSet :=
  mkDS (parent ds) (<[x := r]> (rank ds)).

(** [constructor(elements)]: every element becomes its own parent with
    rank 0; a repeated element is simply set again. *)
Definition new_DisjointSet (elements : list string) : DisjointSet :=
  fold_left
    (fun ds e => rank_set (parent_set ds (Some e) (Some e)) (Some e) (Num 0))
    elements (mkDS ∅ ∅).

(** [find(x)], recursive as in the source. [stack] is the number of nested
    activations of [find] the call stack still admits; [None] is the
    engine's stack exhaustion. *)
Fixpoint find (stack : nat) (ds : DisjointSet) (x : value)
  : option (DisjointSet * value) :=
  match stack with
  | O => None
  | S stack' =>
      if decide (parent_get ds x ≠ x) then
        match find stack' ds (parent_get ds x) with
        | None => None
        | Some (ds1, r) =>
            let ds2 := parent_set ds1 x r in
            Some (ds2, parent_get ds2 x)
        end
      else Some (ds, parent_get ds x)
  end.

(** [union(x, y)]. *)
Definition union (stack : nat) (ds : DisjointSet) (x y : value)
  : option (DisjointSet * bool) :=
  match find stack ds x with
  | None => None
  | Some (ds1, rootX) =>
      match find stack ds1 y with
      | None => None
      | Some (ds2, rootY) =>
          if decide (rootX = rootY) then Some (ds2, false)
          else
            let rankX := rank_get ds2 rootX in
            let rankY := rank_get ds2 rootY in
            if js_lt rankX rankY then
              Some (parent_set ds2 rootX rootY, true)
            else if js_gt rankX rankY then
              Some (parent_set ds2 rootY rootX, true)
            else
              Some (rank_set (parent_set ds2 rootY rootX) rootX
                             (js_add rankX (Some (Num 1))), true)
      end
  end.

(* ===================================================================== *)
(** ** kruskalMST *)
(* ===================================================================== *)

(** An edge object [{ u, v, weight }]; a missing [weight] is [None]. *)
Record edge : Type := mkEdge {
  u : string;
  v : string;
  weight : option number
}.

Global Instance edge_eq_dec : EqDecision edge.
Proof. solve_decision. Defined.

(** [Array.prototype.sort(comparefn)]: the comparator's answer is read
    through ToNumber with [NaN] taken as [+0], and the sort is stable.
    For a consistent comparator the result is the same whatever stable
    algorithm the engine runs (see [stable_sort_unique]); insertion from the
    right is the executable representative. A comparator that answers
    [NaN] (a missing or [NaN] weight) is not consistent, and the order an
    engine then produces is its own: what is proved about the order
    assumes numeric weights, and what is proved about the scan holds for
    the list scanned, whatever its order. *)
Definition sort_compare {A} (comparefn : A -> A -> number) (x y : A) : Z :=
  match comparefn x y with
  | Num z => z
  | NaN => 0%Z
  end.

Fixpoint sort_insert {A} (comparefn : A -> A -> number) (x : A) (l : list A)
  : list A :=
  match l with
  | [] => [x]
  | y :: l' =>
      if bool_decide (0 < sort_compare comparefn x y)%Z
      then y :: sort_insert comparefn x l'
      else x :: y :: l'
  end.

Fixpoint js_sort {A} (comparefn : A -> A -> number) (l : list A) : list A :=
  match l with
  | [] => []
  | x :: l' => sort_insert comparefn x (js_sort comparefn l')
  end.

(** [(a, b) => a.weight - b.weight]. *)
Definition by_weight (a b : edge) : number := js_sub (weight a) (weight b).

Record result : Type := mkResult {
  mstEdges : list edge;
  totalCost : number
}.

(** The [for (const edge of sortedEdges)] loop, with the three variables it
    updates. *)
Fixpoint scan (stack : nat) (ds : DisjointSet) (mst : list edge)
    (total : number) (sortedEdges : list edge) : option result :=
  match sortedEdges with
  | [] => Some (mkResult mst total)
  | e :: rest =>
      match union stack ds (Some (u e)) (Some (v e)) with
      | None => None
      | Some (ds', true) =>
          scan stack ds' (mst ++ [e]) (js_add (Some total) (weight e)) rest
      | Some (ds', false) => scan stack ds' mst total rest
      end
  end.

Definition kruskalMST (stack : nat) (vertices : list string)
    (edges : list edge) : option result :=
  let sortedEdges := js_sort by_weight edges in
  let ds := new_DisjointSet vertices in
  scan stack ds [] (Num 0) sortedEdges.

(** [kruskalMST(vertices, edges)] returns [res]: every call on a stack that
    admits [length edges + 2] nested activations of [find] returns it, and
    no call on any stack returns anything else. *)
Definition kruskalMST_returns (vertices : list string) (edges : list edge)
    (res : result) : Prop :=
  (forall stack, length edges + 1 < stack ->
     kruskalMST stack vertices edges = Some res) /\
  (forall stack res', kruskalMST stack vertices edges = Some res' -> res' = res).

(** The data of [runDemo]. *)
Definition demo_vertices : list string := ["A"; "B"; "C"; "D"; "E"]%string.

Definition demo_edges : list edge :=
  [ mkEdge "A" "B" (Some (Num 4));
    mkEdge "A" "C" (Some (Num 2));
    mkEdge "B" "C" (Some (Num 1));
    mkEdge "B" "D" (Some (Num 5));
    mkEdge "C" "D" (Some (Num 8));
    mkEdge "C" "E" (Some (Num 10));
    mkEdge "D" "E" (Some (Num 2)) ]%string.


(* ===================================================================== *)
(** ** Notions used to state the properties *)
(* ===================================================================== *)

(** *** The forest behind the [parent] map *)

(** [root_rel p x r]: following [p] from [x] ends in the root [r]. *)
Inductive root_rel (p : value -> value) : value -> value -> Prop :=
  | root_self x : p x = x -> root_rel p x x
  | root_step x r : p x <> x -> root_rel p (p x) r -> root_rel p x r.

(** [depth p x n]: [x] is [n] parent links away from its root. *)
Inductive depth (p : value -> value) : value -> nat -> Prop :=
  | depth_root x : p x = x -> depth p x 0
  | depth_step x n : p x <> x -> depth p (p x) n -> depth p x (S n).

(** The parent relation is a forest: a height function bounded by [H]
    strictly grows along every parent link. *)
Definition ranked (H : nat) (h : value -> nat) (p : value -> value) : Prop :=
  forall x, h x <= H /\ (p x <> x -> h x < h (p x)).

Definition is_forest (ds : DisjointSet) : Prop :=
  exists H h, ranked H h (parent_get ds).

(** Two keys are in the same set when they have the same root. *)
Definition same_set (p : value -> value) (x y : value) : Prop :=
  exists r, root_rel p x r /\ root_rel p y r.

(** What the forest makes of a key: a registered vertex stands for itself,
    every other key ends at [undefined]. *)
Definition nrm (vertices : list string) (x : value) : value :=
  match x with
  | Some s => if decide (s ∈ vertices) then Some s else None
  | None => None
  end.

(** *** Graphs given by an edge list *)

Definition adj {K E : Type} (src dst : E -> K) (F : list E) (a b : K) : Prop :=
  exists e, e ∈ F /\ ((src e = a /\ dst e = b) \/ (src e = b /\ dst e = a)).

(** Connectivity: the reflexive-transitive closure of adjacency. *)
Definition conn {K E : Type} (src dst : E -> K) (F : list E) : relation K :=
  rtc (adj src dst F).

(** No edge of [F] closes a cycle: taking any one edge out disconnects its
    two endpoints. *)
Definition acyclic {K E : Type} (src dst : E -> K) (F : list E) : Prop :=
  forall F1 e F2, F = F1 ++ e :: F2 ->
    ~ conn src dst (F1 ++ F2) (src e) (dst e).

(** The same, edge by edge from the head of the list. *)
Fixpoint forest_rec {K E : Type} (src dst : E -> K) (F : list E) : Prop :=
  match F with
  | [] => True
  | e :: F' => ~ conn src dst F' (src e) (dst e) /\ forest_rec src dst F'
  end.

(** [reps] holds exactly one vertex of [V] from every class of [R]. *)
Definition transversal {K : Type} (V : list K) (R : relation K)
    (reps : list K) : Prop :=
  NoDup reps /\
  (forall r, r ∈ reps -> r ∈ V) /\
  (forall x, x ∈ V -> exists r, r ∈ reps /\ R x r) /\
  (forall r r', r ∈ reps -> r' ∈ reps -> R r r' -> r = r').

(** The greedy scan, stated on the graph alone: an edge is taken exactly
    when its endpoints are not yet connected by the edges taken so far. *)
Inductive greedy {K E : Type} (src dst : E -> K)
  : list E -> list E -> list E -> Prop :=
  | greedy_nil acc : greedy src dst acc [] acc
  | greedy_take acc e l out :
      ~ conn src dst acc (src e) (dst e) ->
      greedy src dst (acc ++ [e]) l out ->
      greedy src dst acc (e :: l) out
  | greedy_skip acc e l out :
      conn src dst acc (src e) (dst e) ->
      greedy src dst acc l out ->
      greedy src dst acc (e :: l) out.

(** *** Weights *)

Definition numeric (e : edge) : Prop := exists z, weight e = Some (Num z).

Definition invalid_weight (e : edge) : Prop :=
  weight e = None \/ weight e = Some NaN.

(** The integer behind a numeric weight. *)
Definition wt (e : edge) : Z :=
  match weight e with
  | Some (Num z) => z
  | _ => 0%Z
  end.

Definition sumZ (l : list Z) : Z := foldr Z.add 0%Z l.

Definition cost (F : list edge) : Z := sumZ (wt <$> F).

(** [totalCost] after the loop has added the weights of [F] to [total]. *)
Definition add_weights (total : number) (F : list edge) : number :=
  fold_left (fun t e => js_add (Some t) (weight e)) F total.

(** The absolute values of the weights add up to at most 2^53: every
    weight, every running total and every difference of two weights is then
    an integer that the double format holds exactly. *)
Definition safe_weights (F : list edge) : Prop :=
  (sumZ ((fun e => Z.abs (wt e)) <$> F) <= 2 ^ 53)%Z.

(** Endpoints as the forest sees them. *)
Definition nsrc (vertices : list string) (e : edge) : value :=
  nrm vertices (Some (u e)).
Definition ndst (vertices : list string) (e : edge) : value :=
  nrm vertices (Some (v e)).

Definition endpoints_in (vertices : list string) (F : list edge) : Prop :=
  forall e, e ∈ F -> u e ∈ vertices /\ v e ∈ vertices.

(** Path compression: every key keeps its parent or is re-hung directly
    under its own root. *)
Definition compressed (p p' : value -> value) : Prop :=
  forall y, p' y = p y \/ root_rel p y (p' y).

(** *** States of the forest *)

(** The states a forest over [elements] goes through when [find] and
    [union] are called on registered vertices. *)
Inductive reachable (elements : list string) : DisjointSet -> Prop :=
  | reach_new : reachable elements (new_DisjointSet elements)
  | reach_find ds stack x ds' r :
      reachable elements ds -> x ∈ elements ->
      find stack ds (Some x) = Some (ds', r) ->
      reachable elements ds'
  | reach_union ds stack x y ds' b :
      reachable elements ds -> x ∈ elements -> y ∈ elements ->
      union stack ds (Some x) (Some y) = Some (ds', b) ->
      reachable elements ds'.

(** The states a forest over [elements] goes through when [find] and
    [union] are called on any keys, registered or not. *)
Inductive produced (elements : list string) : DisjointSet -> Prop :=
  | prod_new : produced elements (new_DisjointSet elements)
  | prod_find ds stack (x : value) ds' r :
      produced elements ds ->
      find stack ds x = Some (ds', r) ->
      produced elements ds'
  | prod_union ds stack (x y : value) ds' b :
      produced elements ds ->
      union stack ds x y = Some (ds', b) ->
      produced elements ds'.

(** What holds of every such state: parents of registered vertices are
    registered, and their ranks are natural numbers. *)
Definition regular (elements : list string) (ds : DisjointSet) : Prop :=
  is_forest ds /\
  (forall x, x ∈ elements ->
     exists y, y ∈ elements /\ parent_get ds (Some x) = Some y) /\
  (forall x, x ∈ elements ->
     exists n, rank_get ds (Some x) = Some (Num n) /\ (0 <= n)%Z).

(** Any number of calls of [find], on any keys, and no [union]. *)
Inductive find_steps : DisjointSet -> DisjointSet -> Prop :=
  | find_steps_refl ds : find_steps ds ds
  | find_steps_step ds stack y ds1 r ds2 :
      find stack ds y = Some (ds1, r) -> find_steps ds1 ds2 ->
      find_steps ds ds2.

(** *** The graph of an input *)

Definition connected (F : list edge) : relation string := conn u v F.

Definition is_acyclic (F : list edge) : Prop := acyclic u v F.

(** The graph on [vertices] with the edges [F] has [n] connected
    components. *)
Definition components (vertices : list string) (F : list edge) (n : nat) : Prop :=
  exists reps, transversal vertices (connected F) reps /\ length reps = n.

(** *** Sample inputs *)

Definition abcd : list string := ["a"; "b"; "c"; "d"]%string.

(** One call of [union] on a stack of three activations. *)
Definition step_union (ds : DisjointSet) (x y : string) : DisjointSet :=
  match union 3 ds (Some x) (Some y) with
  | Some (ds', _) => ds'
  | None => ds
  end.

(** The forest over [abcd] after union(b, a), union(c, d), union(c, b):
    a hangs under b, and b and d hang under c. *)
Definition deep1 : DisjointSet := step_union (new_DisjointSet abcd) "b" "a".
Definition deep2 : DisjointSet := step_union deep1 "c" "d".
Definition deep : DisjointSet := step_union deep2 "c" "b".


Definition edge_AX : edge := mkEdge "A" "X" (Some (Num 1)).
Definition edge_XY : edge := mkEdge "X" "Y" (Some (Num 1)).
Definition edge_AB_missing : edge := mkEdge "A" "B" None.
Definition edge_AA : edge := mkEdge "A" "A" (Some (Num 1)).

(** [on_path p x y]: [y] lies on the chain of parents that starts at [x]
    ([x] itself and its root included). *)
Inductive on_path (p : value -> value) : value -> value -> Prop :=
  | on_path_here x : on_path p x x
  | on_path_up x y : p x <> x -> on_path p (p x) y -> on_path p x y.

(** The rank of a key as a natural number (0 when it has none). *)
Definition rank_nat (ds : DisjointSet) (k : value) : nat :=
  match rank_get ds k with
  | Some (Num n) => Z.to_nat n
  | _ => 0
  end.

(** What union by rank maintains: ranks grow strictly along parent links,
    and a root of rank [k] has at least [2 ^ k] vertices in its set. *)
Definition balanced (elements : list string) (ds : DisjointSet) : Prop :=
  (forall x y, x ∈ elements -> parent_get ds (Some x) = Some y -> y <> x ->
     rank_nat ds (Some x) < rank_nat ds (Some y)) /\
  (forall r, r ∈ elements -> parent_get ds (Some r) = Some r ->
     exists l, NoDup l /\
       (forall x, x ∈ l ->
          x ∈ elements /\ root_rel (parent_get ds) (Some x) (Some r)) /\
       2 ^ rank_nat ds (Some r) <= length l).

(* ===================================================================== *)
(** ** dijkstra *)
(* ===================================================================== *)

(** A number held in [distances] or in [minDist]: a finite double that is
    an integer, or one of the two infinities. Weights are integers; they
    stand for the doubles of the same value. *)
Inductive distance : Type :=
  | Dist (z : Z)
  | Infinity
  | NegInfinity.

Global Instance distance_eq_dec : EqDecision distance.
Proof. solve_decision. Defined.

(** [a < b] on numbers. *)
Definition dist_lt (a b : distance) : bool :=
  match a, b with
  | Dist x, Dist y => bool_decide (x < y)%Z
  | Dist _, Infinity => true
  | NegInfinity, (Dist _ | Infinity) => true
  | _, _ => false
  end.

(** The double nearest to an integer: 53 significant bits, ties to the
    even significand, an infinity from 2^1024 on. Up to 2^53 in absolute
    value nothing is rounded. *)
Definition round_double (z : Z) : distance :=
  let a := Z.abs z in
  let e := (Z.log2 a - 52)%Z in
  if (e <=? 0)%Z then Dist z
  else
    let q := (a / 2 ^ e)%Z in
    let r := (a mod 2 ^ e)%Z in
    let half := (2 ^ (e - 1))%Z in
    let q' := if (r <? half)%Z then q
              else if (half <? r)%Z then (q + 1)%Z
              else if Z.even q then q else (q + 1)%Z in
    if (2 ^ 1024 <=? q' * 2 ^ e)%Z
    then (if (z <? 0)%Z then NegInfinity else Infinity)
    else Dist (Z.sgn z * (q' * 2 ^ e)).

(** [a + weight]: the sum of two doubles, rounded. *)
Definition dist_add (a : distance) (w : Z) : distance :=
  match a with
  | Dist x => round_double (x + w)
  | Infinity => Infinity
  | NegInfinity => NegInfinity
  end.

(** The graph object [{ vertex: { neighbor: weight, ... } }] as the list of
    its own entries in the order [Object.keys] enumerates them. *)
Abbreviation adjacency := (list (string * Z)).
Abbreviation graph_obj := (list (string * list (string * Z))).

(** [graph[v] || {}] as far as its entries go: the entries under the key
    [v], none when [v] is not a key (what [graph[v]] inherits then has no
    entry of its own to enumerate). *)
Fixpoint graph_get (graph : graph_obj) (x : string) : adjacency :=
  match graph with
  | [] => []
  | (k, adj) :: rest => if decide (k = x) then adj else graph_get rest x
  end.

(** [Set.prototype.add] on a set kept in insertion order. *)
Definition set_add (x : string) (s : list string) : list string :=
  if decide (x ∈ s) then s else s ++ [x].

(** The first loops of [dijkstra]: all keys, then all neighbors. *)
Definition collect_vertices (graph : graph_obj) : list string :=
  let keys := graph.*1 in
  fold_left
    (fun vs k => fold_left (fun vs n => set_add n vs) (graph_get graph k).*1 vs)
    keys
    (fold_left (fun vs k => set_add k vs) keys []).

(** [distances] is a plain object, kept as the map of its own properties.
    The names below are the properties it inherits from
    [Object.prototype]. *)
Definition object_prototype_names : list string :=
  [ "constructor"; "__defineGetter__"; "__defineSetter__"; "hasOwnProperty";
    "__lookupGetter__"; "__lookupSetter__"; "isPrototypeOf";
    "propertyIsEnumerable"; "toString"; "valueOf"; "__proto__";
    "toLocaleString" ]%string.

(** [distances[k] = v]. The inherited [__proto__] is an accessor whose
    setter ignores a number, so that assignment creates no property; every
    other name gets a property of its own. *)
Definition obj_set (k : string) (v : distance) (distances : gmap string distance)
  : gmap string distance :=
  if decide (k = "__proto__"%string) then distances else <[k := v]> distances.

(** [distances[v]] read as a number. Where there is no property of its own
    the value read is [undefined] or an inherited object; on the left of
    [<], and after [+ weight] on the left of [<], such a value makes the
    comparison false, which is what [Infinity] does. *)
Definition dist_get (distances : gmap string distance) (x : string) : distance :=
  default Infinity (distances !! x).

(** [distances[neighbor]] is an inherited object: [??] keeps it, and no
    number is less than it. *)
Definition inherited (distances : gmap string distance) (x : string) : bool :=
  bool_decide (distances !! x = None /\ x ∈ object_prototype_names).

(** [distances[v] = v === start ? 0 : Infinity] for every vertex. *)
Definition init_distances (vertices : list string) (start : string)
  : gmap string distance :=
  fold_left
    (fun d x => obj_set x (if decide (x = start) then Dist 0 else Infinity) d)
    vertices ∅.

(** The inner [for] loop that looks for the closest unvisited vertex:
    [(minVertex, minDist)], [None] being [null]. *)
Definition select_min (vertices visited : list string)
    (distances : gmap string distance) : option string * distance :=
  fold_left
    (fun '(minVertex, minDist) x =>
       if negb (bool_decide (x ∈ visited)) && dist_lt (dist_get distances x) minDist
       then (Some x, dist_get distances x)
       else (minVertex, minDist))
    vertices (None, Infinity).

(** The body of the loop over [Object.entries(neighbors)]. *)
Definition relax_edge (minVertex : string) (distances : gmap string distance)
    (entry : string * Z) : gmap string distance :=
  let '(neighbor, weight) := entry in
  let newDist := dist_add (dist_get distances minVertex) weight in
  if inherited distances neighbor then distances
  else if dist_lt newDist (dist_get distances neighbor)
       then obj_set neighbor newDist distances
       else distances.

(** The loop over any list of entries. *)
Definition relax_entries (minVertex : string) (entries : adjacency)
    (distances : gmap string distance) : gmap string distance :=
  fold_left (relax_edge minVertex) entries distances.

(** The loop over [Object.entries(graph[minVertex] || {})]. *)
Definition relax (graph : graph_obj) (minVertex : string)
    (distances : gmap string distance) : gmap string distance :=
  relax_entries minVertex (graph_get graph minVertex) distances.

(** The [while] loop; [fuel] bounds the number of iterations, [None] is
    running out of it. *)
Fixpoint dijkstra_loop (fuel : nat) (graph : graph_obj)
    (vertices visited : list string) (distances : gmap string distance)
  : option (gmap string distance) :=
  if bool_decide (length visited < length vertices) then
    match fuel with
    | O => None
    | S fuel' =>
        match select_min vertices visited distances with
        | (Some minVertex, minDist) =>
            if decide (minDist = Infinity) then Some distances
            else dijkstra_loop fuel' graph vertices (set_add minVertex visited)
                   (relax graph minVertex distances)
        | (None, _) => Some distances
        end
    end
  else Some distances.

Definition dijkstra (fuel : nat) (graph : graph_obj) (start : string)
  : option (gmap string distance) :=
  let vertices := collect_vertices graph in
  dijkstra_loop fuel graph vertices [] (init_distances vertices start).

(** The graph of the test at the end of the file. *)
Definition test_graph : graph_obj :=
  [ ("A", [("B", 4); ("C", 2)]);
    ("B", [("A", 4); ("C", 5); ("D", 10)]);
    ("C", [("A", 2); ("B", 5); ("D", 3)]);
    ("D", [("B", 10); ("C", 3)]) ]%string%Z.

(** A walk in the graph from one vertex to another, with the sum of its
    weights. *)
Inductive walk (graph : graph_obj) : string -> string -> Z -> Prop :=
  | walk_nil a : walk graph a a 0
  | walk_snoc a b c W w :
      walk graph a b W -> (c, w) ∈ graph_get graph b ->
      walk graph a c (W + w).

(** [z] is the least weight of a walk from [a] to [b]. *)
Definition shortest (graph : graph_obj) (a b : string) (z : Z) : Prop :=
  walk graph a b z /\ forall W, walk graph a b W -> (z <= W)%Z.

Definition nonneg_weights (graph : graph_obj) : Prop :=
  forall a b w, (b, w) ∈ graph_get graph a -> (0 <= w)%Z.

(** The absolute values of the weights listed under the vertices [vs], added
    up. *)
Definition abs_total (entries : adjacency) : Z :=
  sumZ ((fun e => Z.abs e.2) <$> entries).

Definition weight_total (graph : graph_obj) (vs : list string) : Z :=
  sumZ ((fun a => abs_total (graph_get graph a)) <$> vs).

(** The absolute values of all weights of the graph add up to at most
    2^53: no sum along distinct edges is rounded. *)
Definition safe_graph (graph : graph_obj) : Prop :=
  (weight_total graph (collect_vertices graph) <= 2 ^ 53)%Z.

(** [a <= b] on numbers. *)
Definition dist_le (a b : distance) : Prop :=
  match a, b with
  | NegInfinity, _ => True
  | _, Infinity => True
  | Dist x, Dist y => (x <= y)%Z
  | _, _ => False
  end.

(** What every iteration of the [while] loop keeps, whatever the weights:
    the visited vertices are distinct vertices, and the properties of
    [distances] are the vertices other than [__proto__]. *)
Definition dijkstra_inv (vertices visited : list string)
    (d : gmap string distance) : Prop :=
  NoDup visited /\
  (forall x, x ∈ visited -> x ∈ vertices) /\
  (forall x, is_Some (d !! x) <-> x ∈ vertices /\ x <> "__proto__"%string).

(** Every number in [d] is [Infinity] or the weight of a walk from [start],
    at most [B] in absolute value. *)
Definition exact_at (graph : graph_obj) (start : string) (B : Z)
    (d : gmap string distance) : Prop :=
  forall x q, d !! x = Some q ->
    q = Infinity \/
    exists z, q = Dist z /\ walk graph start x z /\ (Z.abs z <= B)%Z.

(** What the loop keeps when no sum is rounded: a distance is bounded by
    the weights listed under the vertices visited so far. *)
Definition dijkstra_exact (graph : graph_obj) (start : string)
    (visited : list string) (d : gmap string distance) : Prop :=
  exact_at graph start (weight_total graph visited) d.

(** What it keeps when moreover no weight is negative: the start stays at 0
    or below, every edge out of a visited vertex is relaxed, and no visited
    vertex is farther than an unvisited one. *)
Definition dijkstra_settled (graph : graph_obj) (start : string)
    (vertices visited : list string) (d : gmap string distance) : Prop :=
  (start ∈ vertices -> exists z, (z <= 0)%Z /\ dist_get d start = Dist z) /\
  (forall a, a ∈ visited ->
     exists za, dist_get d a = Dist za /\
       forall b w, (b, w) ∈ graph_get graph a ->
         dist_le (dist_get d b) (Dist (za + w))) /\
  (forall a x, a ∈ visited -> x ∈ vertices -> x ∉ visited ->
     dist_le (dist_get d a) (dist_get d x)).

(** Membership in a list given by its elements. *)
Ltac in_list := repeat (apply elem_of_cons; ((left; reflexivity) || right)).

(* ===================================================================== *)
(** ** Properties of the parent forest *)
(* ===================================================================== *)

Section ParentForest.
Implicit Types (p : value -> value) (x y r : value).

Lemma root_rel_is_root p x r : root_rel p x r -> p r = r.
Proof. induction 1; auto. Qed.

Lemma root_rel_fun p x r r' : root_rel p x r -> root_rel p x r' -> r = r'.
Proof.
  intros Hr; revert r'.
  induction Hr as [x Hx | x r Hx _ IH]; intros r' Hr'.
  - inversion Hr'; subst; [done | congruence].
  - inversion Hr'; subst; [congruence | auto].
Qed.

Lemma root_rel_ext p p' x r :
  (forall y, p' y = p y) -> root_rel p x r -> root_rel p' x r.
Proof.
  intros He; induction 1 as [x Hx | x r Hx _ IH].
  - apply root_self. by rewrite He.
  - apply root_step; rewrite He; auto.
Qed.

Lemma ranked_ext H h p p' :
  (forall y, p' y = p y) -> ranked H h p -> ranked H h p'.
Proof. intros He Hr x. rewrite He. apply Hr. Qed.

Lemma ranked_weaken H H' h p : H <= H' -> ranked H h p -> ranked H' h p.
Proof. intros Hle Hr x. destruct (Hr x). split; [lia | done]. Qed.

(** Every chain of parents ends in a root. *)
Lemma ranked_root_exists H h p :
  ranked H h p -> forall x, exists r, root_rel p x r.
Proof.
  intros Hr x.
  remember (H - h x) as n eqn:Hn.
  revert x Hn. induction (lt_wf n) as [n _ IH]. intros x ->.
  destruct (decide (p x = x)) as [Hx | Hx].
  - exists x. by apply root_self.
  - destruct (Hr x) as [Hb Hlt]. specialize (Hlt Hx).
    destruct (Hr (p x)) as [Hb' _].
    destruct (IH (H - h (p x)) ltac:(lia) (p x) eq_refl) as [r Hroot].
    exists r. by apply root_step.
Qed.

Lemma root_rel_height H h p x r :
  ranked H h p -> root_rel p x r -> r = x \/ h x < h r.
Proof.
  intros Hr. induction 1 as [x Hx | x r Hx _ IH]; [by left | right].
  destruct (Hr x) as [_ Hlt]. specialize (Hlt Hx).
  destruct IH as [-> | ?]; lia.
Qed.

Lemma root_rel_depth p x r : root_rel p x r -> exists n, depth p x n.
Proof.
  induction 1 as [x Hx | x r Hx _ [n IH]].
  - exists 0. by constructor.
  - exists (S n). by constructor.
Qed.

Lemma depth_fun p x n m : depth p x n -> depth p x m -> n = m.
Proof.
  intros Hn; revert m. induction Hn as [x Hx | x n Hx _ IH]; intros m Hm.
  - inversion Hm; subst; [done | congruence].
  - inversion Hm; subst; [congruence | f_equal; auto].
Qed.

(** Path compression keeps the forest and all the roots. *)
Lemma compressed_refl p : compressed p p.
Proof. intros y. by left. Qed.

Lemma compressed_ranked H h p p' :
  ranked H h p -> compressed p p' -> ranked H h p'.
Proof.
  intros Hr Hc x. destruct (Hr x) as [Hb Hlt]. split; [done |].
  intros Hx. destruct (Hc x) as [He | Hroot].
  - rewrite He in Hx |- *. auto.
  - destruct (root_rel_height _ _ _ _ _ Hr Hroot); [congruence | done].
Qed.

Lemma compressed_roots H h p p' :
  ranked H h p -> compressed p p' ->
  forall x r, root_rel p x r -> root_rel p' x r.
Proof.
  intros Hr Hc x.
  remember (H - h x) as n eqn:Hn.
  revert x Hn. induction (lt_wf n) as [n _ IH]. intros x -> r Hroot.
  destruct (decide (p' x = x)) as [Hx | Hx].
  - assert (r = x) as ->; [| by apply root_self].
    destruct (Hc x) as [He | Hroot'].
    + rewrite Hx in He. inversion Hroot; subst; [done | congruence].
    + rewrite Hx in Hroot'. eapply root_rel_fun; eauto.
  - apply root_step; [done |].
    destruct (Hr x) as [Hb _].
    destruct (Hc x) as [He | Hroot'].
    + rewrite He in Hx |- *.
      destruct (Hr x) as [_ Hlt]. specialize (Hlt Hx).
      destruct (Hr (p x)) as [Hb' _].
      inversion Hroot; subst; [congruence |].
      eapply (IH (H - h (p x))); [lia | done | done].
    + assert (p' x = r) as Heq by (eapply root_rel_fun; eauto).
      rewrite Heq in Hx |- *.
      destruct (root_rel_height _ _ _ _ _ Hr Hroot) as [-> | Hlt]; [done |].
      destruct (Hr r) as [Hb' _].
      eapply (IH (H - h r)); [lia | done |].
      apply root_self. eapply root_rel_is_root; eauto.
Qed.

Lemma compressed_roots_inv H h p p' :
  ranked H h p -> compressed p p' ->
  forall x r, root_rel p' x r -> root_rel p x r.
Proof.
  intros Hr Hc x r Hroot'.
  destruct (ranked_root_exists _ _ _ Hr x) as [r0 Hroot].
  pose proof (compressed_roots _ _ _ _ Hr Hc _ _ Hroot) as Hroot2.
  by rewrite (root_rel_fun _ _ _ _ Hroot' Hroot2).
Qed.

Lemma compressed_trans H h p p1 p2 :
  ranked H h p -> compressed p p1 -> compressed p1 p2 -> compressed p p2.
Proof.
  intros Hr H1 H2 y.
  destruct (H2 y) as [He | Hroot].
  - rewrite He. apply H1.
  - right. eapply compressed_roots_inv; eauto.
Qed.

(** Hanging the root [a] under the root [c]. *)
Lemma link_ranked H h p p' a c :
  ranked H h p -> p a = a -> p c = c -> a <> c ->
  (forall y, p' y = if decide (a = y) then c else p y) ->
  ranked (S H) (fun y => if decide (y = c) then S (Nat.max (h a) (h c)) else h y) p'.
Proof.
  intros Hr Ha Hc Hac Hp' x. rewrite Hp'.
  destruct (Hr x) as [Hb Hlt], (Hr a) as [Hba _], (Hr c) as [Hbc _].
  split.
  - case_decide; lia.
  - destruct (decide (a = x)) as [<- | Hax]; intros Hx.
    + rewrite decide_False by done. rewrite decide_True by done. lia.
    + specialize (Hlt Hx).
      destruct (decide (x = c)) as [-> | Hxc]; [congruence |].
      case_decide as Hpc; [rewrite Hpc in Hlt |]; lia.
Qed.

Lemma link_roots p p' a c :
  p a = a -> p c = c -> a <> c ->
  (forall y, p' y = if decide (a = y) then c else p y) ->
  forall x r, root_rel p x r ->
    root_rel p' x (if decide (r = a) then c else r).
Proof.
  intros Ha Hc Hac Hp'.
  assert (root_rel p' c c) as Hcc.
  { apply root_self. rewrite Hp'. by rewrite decide_False. }
  induction 1 as [x Hx | x r Hx _ IH].
  - destruct (decide (x = a)) as [-> | Hxa].
    + apply root_step; rewrite Hp', decide_True by done; [congruence | done].
    + apply root_self. rewrite Hp', decide_False by done. done.
  - assert (a <> x) as Hax by congruence.
    apply root_step; rewrite Hp', decide_False by done; done.
Qed.

Lemma same_set_refl H h p x : ranked H h p -> same_set p x x.
Proof.
  intros Hr. destruct (ranked_root_exists _ _ _ Hr x) as [r ?]. by exists r.
Qed.
End ParentForest.

(* ===================================================================== *)
(** ** find and union *)
(* ===================================================================== *)

Section FindUnion.
Implicit Types (ds : DisjointSet) (x y r : value).

Lemma parent_get_set ds x q y :
  parent_get (parent_set ds x q) y
  = if decide (x = y) then q else parent_get ds y.
Proof.
  unfold parent_get, parent_set; simpl.
  rewrite lookup_insert. by case_decide.
Qed.

Lemma parent_get_rank_set ds x n y :
  parent_get (rank_set ds x n) y = parent_get ds y.
Proof. done. Qed.

Lemma rank_get_parent_set ds x q y :
  rank_get (parent_set ds x q) y = rank_get ds y.
Proof. done. Qed.

Lemma rank_get_set ds x n y :
  rank_get (rank_set ds x n) y
  = if decide (x = y) then Some n else rank_get ds y.
Proof.
  unfold rank_get, rank_set; simpl.
  rewrite lookup_insert. by case_decide.
Qed.

(** More stack never changes an answer. *)
Lemma find_stack_S stack ds x res :
  find stack ds x = Some res -> find (S stack) ds x = Some res.
Proof.
  revert x res. induction stack as [| stack IH]; intros x res; [done |].
  intros Hf. simpl in Hf.
  change (find (S (S stack)) ds x) with
    (if decide (parent_get ds x <> x) then
       match find (S stack) ds (parent_get ds x) with
       | None => None
       | Some (ds1, r) =>
           let ds2 := parent_set ds1 x r in Some (ds2, parent_get ds2 x)
       end
     else Some (ds, parent_get ds x)).
  case_decide; [| done].
  destruct (find stack ds (parent_get ds x)) as [[ds1 r] |] eqn:Hrec; [| done].
  by rewrite (IH _ _ Hrec).
Qed.

Lemma find_stack_mono stack stack' ds x res :
  stack <= stack' -> find stack ds x = Some res ->
  find stack' ds x = Some res.
Proof.
  induction 1 as [| m _ IH]; [done |].
  intros Hf. apply find_stack_S. auto.
Qed.

(** [find] needs exactly one activation per key on the way to the root. *)
Lemma find_depth_enough ds x n :
  depth (parent_get ds) x n ->
  forall stack, n < stack -> exists res, find stack ds x = Some res.
Proof.
  induction 1 as [x Hx | x n Hx _ IH]; intros [| stack] Hlt; try lia; simpl.
  - rewrite decide_False by (intros ?; congruence). eauto.
  - rewrite decide_True by done.
    destruct (IH stack ltac:(lia)) as [[ds1 r] ->]. eauto.
Qed.

Lemma find_depth_overflow ds x n :
  depth (parent_get ds) x n ->
  forall stack, stack <= n -> find stack ds x = None.
Proof.
  induction 1 as [x Hx | x n Hx _ IH]; intros [| stack] Hle; try lia; try done.
  simpl. rewrite decide_True by done.
  by rewrite (IH stack ltac:(lia)).
Qed.

(** What [find] does on a forest. *)
Lemma find_spec stack ds x H h :
  ranked H h (parent_get ds) -> H - h x < stack ->
  exists ds' r,
    find stack ds x = Some (ds', r) /\
    root_rel (parent_get ds) x r /\
    rank ds' = rank ds /\
    compressed (parent_get ds) (parent_get ds').
Proof.
  intros Hr. revert x.
  induction stack as [| stack IH]; intros x Hlt; [lia |]. simpl.
  destruct (Hr x) as [Hb Hup].
  case_decide as Hx.
  - specialize (Hup Hx). destruct (Hr (parent_get ds x)) as [Hb' _].
    destruct (IH (parent_get ds x) ltac:(lia)) as (ds1 & r & -> & Hroot & Hrk & Hc).
    exists (parent_set ds1 x r), r. split_and!.
    + by rewrite parent_get_set, decide_True.
    + by apply root_step.
    + done.
    + intros y. rewrite parent_get_set. case_decide as Hxy.
      * subst y. right. by apply root_step.
      * apply Hc.
  - exists ds, (parent_get ds x). split_and!; [done | | done | apply compressed_refl].
    assert (parent_get ds x = x) as -> by (by destruct (decide (parent_get ds x = x))).
    apply root_self.
    by destruct (decide (parent_get ds x = x)).
Qed.
End FindUnion.

Section UnionSpec.
Implicit Types (ds : DisjointSet) (x y r : value) (p : value -> value).

Lemma same_set_sym p x y : same_set p x y -> same_set p y x.
Proof. intros (r & ? & ?). by exists r. Qed.

Lemma same_set_trans p x y z :
  same_set p x y -> same_set p y z -> same_set p x z.
Proof.
  intros (r & Hx & Hy) (r' & Hy' & Hz).
  rewrite (root_rel_fun _ _ _ _ Hy Hy') in Hx. by exists r'.
Qed.

Lemma same_set_root p x r : root_rel p x r -> same_set p x r.
Proof.
  intros Hx. exists r. split; [done |].
  apply root_self. eapply root_rel_is_root; eauto.
Qed.

Lemma compressed_same_set H h p p' :
  ranked H h p -> compressed p p' ->
  forall z w, same_set p' z w <-> same_set p z w.
Proof.
  intros Hr Hc z w. split; intros (r & Hz & Hw); exists r.
  - split; eapply compressed_roots_inv; eauto.
  - split; eapply compressed_roots; eauto.
Qed.

Lemma link_same_set H h p p' a c :
  ranked H h p -> p a = a -> p c = c -> a <> c ->
  (forall y, p' y = if decide (a = y) then c else p y) ->
  forall z w, same_set p' z w <->
    same_set p z w \/ (root_rel p z a /\ root_rel p w c)
                   \/ (root_rel p z c /\ root_rel p w a).
Proof.
  intros Hr Ha Hc Hac Hp' z w.
  pose proof (link_roots p p' a c Ha Hc Hac Hp') as Hlink.
  destruct (ranked_root_exists _ _ _ Hr z) as [rz Hz].
  destruct (ranked_root_exists _ _ _ Hr w) as [rw Hw].
  pose proof (Hlink _ _ Hz) as Hz'. pose proof (Hlink _ _ Hw) as Hw'.
  split.
  - intros (r & Hzr & Hwr).
    pose proof (root_rel_fun _ _ _ _ Hzr Hz') as E1.
    pose proof (root_rel_fun _ _ _ _ Hwr Hw') as E2.
    destruct (decide (rz = a)) as [-> | Hza], (decide (rw = a)) as [-> | Hwa].
    + left. by exists a.
    + right; left. split; [done |]. congruence.
    + right; right. split; [| done]. congruence.
    + left. exists rz. split; [done |]. congruence.
  - intros [(r & Hzr & Hwr) | [[Hza Hwc] | [Hzc Hwa]]].
    + exists (if decide (r = a) then c else r). split; by apply Hlink.
    + exists c. split.
      * pose proof (Hlink _ _ Hza) as Hx. by rewrite decide_True in Hx.
      * pose proof (Hlink _ _ Hwc) as Hx. by rewrite decide_False in Hx.
    + exists c. split.
      * pose proof (Hlink _ _ Hzc) as Hx. by rewrite decide_False in Hx.
      * pose proof (Hlink _ _ Hwa) as Hx. by rewrite decide_True in Hx.
Qed.

(** The code of [union], path by path. [ds2] is the forest after the two
    calls of [find]. *)
Lemma union_spec stack ds x y H h :
  ranked H h (parent_get ds) -> H < stack ->
  exists ds' b rx ry ds2,
    union stack ds x y = Some (ds', b) /\
    root_rel (parent_get ds) x rx /\
    root_rel (parent_get ds) y ry /\
    compressed (parent_get ds) (parent_get ds2) /\
    rank ds2 = rank ds /\
    ((b = false /\ rx = ry /\ ds' = ds2) \/
     (b = true /\ rx <> ry /\
      ((js_lt (rank_get ds rx) (rank_get ds ry) = true /\
        ds' = parent_set ds2 rx ry) \/
       (js_lt (rank_get ds rx) (rank_get ds ry) = false /\
        js_gt (rank_get ds rx) (rank_get ds ry) = true /\
        ds' = parent_set ds2 ry rx) \/
       (js_lt (rank_get ds rx) (rank_get ds ry) = false /\
        js_gt (rank_get ds rx) (rank_get ds ry) = false /\
        ds' = rank_set (parent_set ds2 ry rx) rx
                (js_add (rank_get ds rx) (Some (Num 1))))))).
Proof.
  intros Hr Hlt. unfold union.
  destruct (find_spec stack ds x H h Hr ltac:(lia))
    as (ds1 & rx & -> & Hrx & Hrk1 & Hc1).
  pose proof (compressed_ranked _ _ _ _ Hr Hc1) as Hr1.
  destruct (find_spec stack ds1 y H h Hr1 ltac:(lia))
    as (ds2 & ry & -> & Hry & Hrk2 & Hc2).
  assert (forall k, rank_get ds2 k = rank_get ds k) as Hrg.
  { intros k. unfold rank_get. by rewrite Hrk2, Hrk1. }
  exists (if decide (rx = ry) then ds2
          else if js_lt (rank_get ds rx) (rank_get ds ry)
               then parent_set ds2 rx ry
               else if js_gt (rank_get ds rx) (rank_get ds ry)
                    then parent_set ds2 ry rx
                    else rank_set (parent_set ds2 ry rx) rx
                           (js_add (rank_get ds rx) (Some (Num 1)))),
         (if decide (rx = ry) then false else true), rx, ry, ds2.
  split_and!.
  - rewrite !Hrg. repeat case_match; done.
  - done.
  - eapply compressed_roots_inv; eauto.
  - eapply compressed_trans; eauto.
  - by rewrite Hrk2.
  - case_decide as Heq; [left; done | right].
    split_and!; [done | done |].
    destruct (js_lt _ _); [left; done | right].
    destruct (js_gt _ _); [left; done | right; done].
Qed.

(** What [union] does to the partition. *)
Lemma union_partition stack ds x y H h :
  ranked H h (parent_get ds) -> H < stack ->
  exists ds' b h',
    union stack ds x y = Some (ds', b) /\
    ranked (if b then S H else H) h' (parent_get ds') /\
    (b = false <-> same_set (parent_get ds) x y) /\
    (b = false ->
      forall z w, same_set (parent_get ds') z w <-> same_set (parent_get ds) z w) /\
    (b = true ->
      forall z w, same_set (parent_get ds') z w <->
        same_set (parent_get ds) z w \/
        (same_set (parent_get ds) z x /\ same_set (parent_get ds) y w) \/
        (same_set (parent_get ds) z y /\ same_set (parent_get ds) x w)).
Proof.
  intros Hr Hlt.
  destruct (union_spec stack ds x y H h Hr Hlt)
    as (ds' & b & rx & ry & ds2 & Hu & Hrx & Hry & Hc & Hrk & Hcases).
  pose proof (compressed_ranked _ _ _ _ Hr Hc) as Hr2.
  pose proof (compressed_same_set _ _ _ _ Hr Hc) as Hs2.
  pose proof (compressed_roots _ _ _ _ Hr Hc) as Hroots.
  assert (parent_get ds2 rx = rx) as Hrootx.
  { eapply root_rel_is_root. eapply Hroots; eauto. }
  assert (parent_get ds2 ry = ry) as Hrooty.
  { eapply root_rel_is_root. eapply Hroots; eauto. }
  assert (forall a c, a <> c ->
    ((a = rx /\ c = ry) \/ (a = ry /\ c = rx)) ->
    parent_get ds2 a = a -> parent_get ds2 c = c ->
    forall d, (forall k, parent_get d k = if decide (a = k) then c else parent_get ds2 k) ->
    (exists h', ranked (S H) h' (parent_get d)) /\
    forall z w, same_set (parent_get d) z w <->
        same_set (parent_get ds) z w \/
        (same_set (parent_get ds) z x /\ same_set (parent_get ds) y w) \/
        (same_set (parent_get ds) z y /\ same_set (parent_get ds) x w)) as Hlink.
  { intros a c Hac Hwho Ha Hc' d Hd. split.
    - eexists. by apply (link_ranked H h (parent_get ds2) (parent_get d) a c).
    - intros z w.
      rewrite (link_same_set _ _ _ _ _ _ Hr2 Ha Hc' Hac Hd z w).
      rewrite Hs2.
      assert (forall k r, root_rel (parent_get ds) k r ->
                forall k', root_rel (parent_get ds2) k' r <-> same_set (parent_get ds) k' k)
        as Hconv.
      { intros k r Hk k'. split.
        - intros Hk'. exists r. split; [| done].
          eapply compressed_roots_inv; eauto.
        - intros (r' & Hk1 & Hk2).
          rewrite (root_rel_fun _ _ _ _ Hk Hk2). eapply Hroots; eauto. }
      destruct Hwho as [[-> ->] | [-> ->]].
      + rewrite (Hconv x rx Hrx z), (Hconv y ry Hry w).
        rewrite (Hconv y ry Hry z), (Hconv x rx Hrx w).
        split; intros [? | [[? ?] | [? ?]]]; auto using same_set_sym.
      + rewrite (Hconv x rx Hrx z), (Hconv y ry Hry w).
        rewrite (Hconv y ry Hry z), (Hconv x rx Hrx w).
        split; intros [? | [[? ?] | [? ?]]]; auto 6 using same_set_sym. }
  assert (same_set (parent_get ds) x y <-> rx = ry) as Hsame.
  { split.
    - intros (r & H1 & H2).
      rewrite <- (root_rel_fun _ _ _ _ H1 Hrx). eapply root_rel_fun; eauto.
    - intros <-. by exists rx. }
  destruct Hcases as [(-> & Heq & ->) | (-> & Hne & Hcases)].
  - exists ds2, false, h. split_and!; try done.
    + rewrite Hsame. done.
  - assert (exists h', ranked (S H) h' (parent_get ds') /\
      forall z w, same_set (parent_get ds') z w <->
        same_set (parent_get ds) z w \/
        (same_set (parent_get ds) z x /\ same_set (parent_get ds) y w) \/
        (same_set (parent_get ds) z y /\ same_set (parent_get ds) x w))
      as (h' & Hr' & Hpart).
    { destruct Hcases as [(_ & ->) | [(_ & _ & ->) | (_ & _ & ->)]].
      - destruct (Hlink rx ry Hne ltac:(auto) Hrootx Hrooty _
                    (parent_get_set ds2 rx ry)) as [[h' ?] ?]. eauto.
      - destruct (Hlink ry rx ltac:(auto) ltac:(auto) Hrooty Hrootx _
                    (parent_get_set ds2 ry rx)) as [[h' ?] ?]. eauto.
      - destruct (Hlink ry rx ltac:(auto) ltac:(auto) Hrooty Hrootx
                    (rank_set (parent_set ds2 ry rx) rx
                       (js_add (rank_get ds rx) (Some (Num 1))))
                    (parent_get_set ds2 ry rx)) as [[h' ?] ?]. eauto. }
    exists ds', true, h'. split_and!; try done.
    rewrite Hsame. split; [done | intros; done].
Qed.
End UnionSpec.

(* ===================================================================== *)
(** ** Connectivity and forests of an edge list *)
(* ===================================================================== *)

Section Graph.
Context {K E : Type} (src dst : E -> K).
Implicit Types (F G : list E) (e : E) (a b c : K).

Lemma adj_sym F a b : adj src dst F a b -> adj src dst F b a.
Proof. intros (e & He & Hends). exists e. tauto. Qed.

Lemma adj_mono F G a b :
  (forall e, e ∈ F -> e ∈ G) -> adj src dst F a b -> adj src dst G a b.
Proof. intros Hsub (e & He & Hends). exists e. auto. Qed.

Lemma conn_refl F a : conn src dst F a a.
Proof. apply rtc_refl. Qed.

Lemma conn_trans F a b c :
  conn src dst F a b -> conn src dst F b c -> conn src dst F a c.
Proof. apply rtc_trans. Qed.

Lemma conn_sym F a b : conn src dst F a b -> conn src dst F b a.
Proof.
  induction 1 as [a | a a' b Hadj _ IH]; [apply rtc_refl |].
  eapply rtc_r; [exact IH | by apply adj_sym].
Qed.

Lemma conn_mono F G a b :
  (forall e, e ∈ F -> e ∈ G) -> conn src dst F a b -> conn src dst G a b.
Proof.
  intros Hsub. induction 1 as [a | a a' b Hadj _ IH]; [apply rtc_refl |].
  eapply rtc_l; [eapply adj_mono; eauto | done].
Qed.

Lemma conn_edge F e : e ∈ F -> conn src dst F (src e) (dst e).
Proof. intros He. apply rtc_once. exists e. auto. Qed.

Lemma conn_nil a b : conn src dst [] a b -> a = b.
Proof.
  induction 1 as [a | a a' b (e & He & _) _ _]; [done |].
  by apply elem_of_nil in He.
Qed.

(** Connectivity after one more edge. *)
Lemma conn_cons F e a b :
  conn src dst (e :: F) a b <->
    conn src dst F a b \/
    (conn src dst F a (src e) /\ conn src dst F (dst e) b) \/
    (conn src dst F a (dst e) /\ conn src dst F (src e) b).
Proof.
  split.
  - induction 1 as [a | a a' b (e' & He' & Hends) _ IH]; [left; apply conn_refl |].
    apply elem_of_cons in He' as [-> | He'].
    + destruct Hends as [[<- <-] | [<- <-]];
        destruct IH as [IH | [[IH1 IH2] | [IH1 IH2]]];
        eauto using conn_refl.
    + assert (conn src dst F a a') as Hstep.
      { apply rtc_once. exists e'. auto. }
      destruct IH as [IH | [[IH1 IH2] | [IH1 IH2]]];
        eauto 6 using conn_trans.
  - assert (forall x y, conn src dst F x y -> conn src dst (e :: F) x y) as Hup.
    { intros x y. apply conn_mono. intros e' ?. by apply elem_of_cons; right. }
    assert (conn src dst (e :: F) (src e) (dst e)) as He.
    { apply conn_edge. by apply elem_of_cons; left. }
    intros [H1 | [[H1 H2] | [H1 H2]]]; [auto | |].
    + eapply conn_trans; [apply Hup, H1 |].
      eapply conn_trans; [apply He | apply Hup, H2].
    + eapply conn_trans; [apply Hup, H1 |].
      eapply conn_trans; [apply conn_sym, He | apply Hup, H2].
Qed.

Lemma conn_same_edges F G a b :
  (forall e, e ∈ F <-> e ∈ G) -> conn src dst F a b <-> conn src dst G a b.
Proof. intros Heq. split; apply conn_mono; intros e; apply Heq. Qed.

Lemma conn_snoc F e a b :
  conn src dst (F ++ [e]) a b <-> conn src dst (e :: F) a b.
Proof.
  apply conn_same_edges. intros e'.
  rewrite elem_of_app, !elem_of_cons. pose proof (not_elem_of_nil e'). tauto.
Qed.

(** If every edge of [F] joins vertices connected in [G], [G] connects
    whatever [F] connects. *)
Lemma conn_incl F G :
  (forall e, e ∈ F -> conn src dst G (src e) (dst e)) ->
  forall a b, conn src dst F a b -> conn src dst G a b.
Proof.
  intros Hsub a b. induction 1 as [a | a a' b (e & He & Hends) _ IH];
    [apply conn_refl |].
  eapply conn_trans; [| exact IH].
  destruct Hends as [[<- <-] | [<- <-]]; [| apply conn_sym]; auto.
Qed.

(** *** Forests *)

Lemma forest_rec_swap F e1 e2 :
  forest_rec src dst (e1 :: e2 :: F) -> forest_rec src dst (e2 :: e1 :: F).
Proof.
  simpl. intros (H1 & H2 & HF). split_and!; [| | done].
  - intros Hc. apply conn_cons in Hc as [Hc | [[Ha Hb] | [Ha Hb]]]; [done | |].
    + apply H1. apply conn_cons. right; left.
      split; apply conn_sym; done.
    + apply H1. apply conn_cons. right; right. done.
  - intros Hc. apply H1. apply conn_cons. by left.
Qed.

Lemma forest_rec_perm F G :
  F ≡ₚ G -> forest_rec src dst F -> forest_rec src dst G.
Proof.
  induction 1 as [| e F G HP IH | e1 e2 F | F G G' _ IH1 _ IH2]; auto.
  - simpl. intros [Hn HF]. split; [| auto].
    intros Hc. apply Hn. revert Hc. apply conn_same_edges.
    intros e'. by rewrite HP.
  - apply forest_rec_swap.
Qed.

Lemma forest_rec_snoc F e :
  forest_rec src dst F -> ~ conn src dst F (src e) (dst e) ->
  forest_rec src dst (F ++ [e]).
Proof.
  intros HF Hn. apply (forest_rec_perm (e :: F)).
  - by rewrite Permutation_app_comm.
  - done.
Qed.

Lemma forest_rec_acyclic F : forest_rec src dst F <-> acyclic src dst F.
Proof.
  split.
  - intros HF F1 e F2 ->.
    assert (forest_rec src dst (e :: F1 ++ F2)) as [Hn _]; [| done].
    eapply forest_rec_perm; [| exact HF].
    by rewrite Permutation_middle.
  - induction F as [| e F IH]; [done |]. intros Hac. split.
    + apply (Hac [] e F). done.
    + apply IH. intros F1 e' F2 -> Hc.
      apply (Hac (e :: F1) e' F2); [done |].
      revert Hc. apply conn_mono. intros e'' ?. simpl. by apply elem_of_cons; right.
Qed.

(** An acyclic edge list has no self-loop and no edge twice. *)
Lemma acyclic_no_self_loop F e :
  acyclic src dst F -> e ∈ F -> src e <> dst e.
Proof.
  intros Hac He Heq.
  apply list_elem_of_split in He as (F1 & F2 & ->).
  apply (Hac F1 e F2 eq_refl). rewrite Heq. apply conn_refl.
Qed.

Lemma acyclic_NoDup F : acyclic src dst F -> NoDup F.
Proof.
  intros Hac. apply forest_rec_acyclic in Hac.
  induction F as [| e F IH]; [constructor |].
  destruct Hac as [Hn HF]. constructor; [| auto].
  intros He. apply Hn. by apply conn_edge.
Qed.

Lemma forest_rec_sublist F G :
  sublist F G -> forest_rec src dst G -> forest_rec src dst F.
Proof.
  induction 1 as [| e F G Hsub IH | e F G Hsub IH]; simpl; [done | |].
  - intros [Hn HG]. split; [| auto].
    intros Hc. apply Hn. revert Hc. apply conn_mono.
    intros e' ?. eapply elem_of_sublist; eauto.
  - intros [_ HG]. auto.
Qed.
End Graph.

(* ===================================================================== *)
(** ** Counting components *)
(* ===================================================================== *)

Section Counting.
Context {K E : Type} `{!EqDecision K} (src dst : E -> K).
Implicit Types (F G : list E) (e : E) (a b c : K) (V reps : list K).

(** A relation from a duplicate-free list into another list that never
    sends two elements to the same target needs a target list at least as
    long. *)
Lemma rel_inj_length {A B : Type} (P : A -> B -> Prop) (l : list A) :
  forall l' : list B,
  NoDup l ->
  (forall x, x ∈ l -> exists y, y ∈ l' /\ P x y) ->
  (forall x x' y, x ∈ l -> x' ∈ l -> P x y -> P x' y -> x = x') ->
  length l <= length l'.
Proof.
  induction l as [| x l IH]; intros l' Hnd Hex Hinj; simpl; [lia |].
  apply NoDup_cons in Hnd as [Hx Hnd].
  destruct (Hex x ltac:(by apply elem_of_cons; left)) as (y & Hy & Hxy).
  apply elem_of_Permutation in Hy as [l'' Hperm].
  rewrite Hperm. simpl. apply le_n_S. apply IH; [done | |].
  - intros x' Hx'.
    destruct (Hex x' ltac:(by apply elem_of_cons; right)) as (y' & Hy' & Hxy').
    exists y'. split; [| done].
    rewrite Hperm in Hy'. apply elem_of_cons in Hy' as [-> | ?]; [| done].
    exfalso. apply Hx.
    rewrite (Hinj x x' y); [done | | | done | done];
      apply elem_of_cons; auto.
  - intros x1 x2 y' H1 H2. apply Hinj; apply elem_of_cons; auto.
Qed.

Lemma transversal_le V (R1 R2 : relation K) reps1 reps2 :
  Symmetric R1 -> Transitive R1 ->
  (forall a b, R1 a b -> R2 a b) ->
  transversal V R1 reps1 -> transversal V R2 reps2 ->
  length reps2 <= length reps1.
Proof.
  intros Hsym Htr Hsub (Hnd1 & Hin1 & Hcov1 & Hsep1) (Hnd2 & Hin2 & Hcov2 & Hsep2).
  apply (rel_inj_length R1); [done | |].
  - intros r Hr. apply Hcov1. auto.
  - intros r r' y Hr Hr' H1 H2. apply Hsep2; [done | done |].
    apply Hsub. etrans; [exact H1 | by symmetry].
Qed.

Lemma transversal_length V (R1 R2 : relation K) reps1 reps2 :
  Symmetric R1 -> Transitive R1 ->
  (forall a b, R1 a b <-> R2 a b) ->
  transversal V R1 reps1 -> transversal V R2 reps2 ->
  length reps1 = length reps2.
Proof.
  intros Hsym Htr Heq H1 H2.
  assert (Symmetric R2) as Hsym2.
  { intros a b Hab. apply Heq. symmetry. by apply Heq. }
  assert (Transitive R2) as Htr2.
  { intros a b c Hab Hbc. apply Heq. etrans; apply Heq; eauto. }
  apply Nat.le_antisymm.
  - eapply (transversal_le V R2 R1); eauto. intros; by apply Heq.
  - eapply (transversal_le V R1 R2); eauto. intros; by apply Heq.
Qed.

Global Instance conn_symmetric F : Symmetric (conn src dst F).
Proof. intros a b. apply conn_sym. Qed.

Global Instance conn_transitive F : Transitive (conn src dst F).
Proof. intros a b c. apply conn_trans. Qed.

(** A forest on the vertex list [V] has [|V| - |F|] components. *)
Lemma forest_count V F :
  NoDup V -> forest_rec src dst F ->
  (forall e, e ∈ F -> src e ∈ V /\ dst e ∈ V) ->
  exists reps, transversal V (conn src dst F) reps /\
               length F + length reps = length V.
Proof.
  intros HV. induction F as [| e F IH]; intros HF Hends.
  - exists V. split; [| done]. split_and!; [done | done | |].
    + intros x Hx. exists x. split; [done | apply conn_refl].
    + intros r r' _ _. apply conn_nil.
  - destruct HF as [Hn HF].
    destruct IH as (reps & (Hnd & Hin & Hcov & Hsep) & Hlen); [done | |].
    { intros e' He'. apply Hends. by apply elem_of_cons; right. }
    destruct (Hends e ltac:(by apply elem_of_cons; left)) as [Hs Hd].
    destruct (Hcov _ Hs) as (rs & Hrs & Hcs).
    destruct (Hcov _ Hd) as (rd & Hrd & Hcd).
    assert (rs <> rd) as Hne.
    { intros <-. apply Hn. eapply conn_trans; [exact Hcs | by apply conn_sym]. }
    apply elem_of_Permutation in Hrd as [reps' Hperm].
    assert (NoDup (rd :: reps')) as Hnd' by (by rewrite <- Hperm).
    apply NoDup_cons in Hnd' as [Hrd' Hnd'].
    assert (forall r, r ∈ reps' -> r ∈ reps) as Hsub.
    { intros r Hr. rewrite Hperm. by apply elem_of_cons; right. }
    assert (rs ∈ reps') as Hrs'.
    { rewrite Hperm in Hrs. apply elem_of_cons in Hrs as [? | ?]; done. }
    assert (forall x y, conn src dst F x y -> conn src dst (e :: F) x y) as Hup.
    { intros x y Hc. apply conn_cons. by left. }
    assert (conn src dst (e :: F) (src e) (dst e)) as He.
    { apply conn_edge. by apply elem_of_cons; left. }
    exists reps'. split.
    + split_and!; [done | auto | |].
      * intros x Hx. destruct (Hcov _ Hx) as (r & Hr & Hc).
        rewrite Hperm in Hr. apply elem_of_cons in Hr as [-> | Hr].
        -- exists rs. split; [done |].
           eapply conn_trans; [apply Hup, Hc |].
           eapply conn_trans; [apply conn_sym, Hup, Hcd |].
           eapply conn_trans; [apply conn_sym, He | apply Hup, Hcs].
        -- exists r. auto.
      * intros r r' Hr Hr' Hc.
        apply conn_cons in Hc as [Hc | [[Ha Hb] | [Ha Hb]]].
        -- apply Hsep; auto.
        -- exfalso. apply Hrd'.
           assert (r' = rd) as <-; [| done].
           apply Hsep; [auto | by rewrite Hperm; apply elem_of_cons; left |].
           eapply conn_trans; [apply conn_sym, Hb | done].
        -- exfalso. apply Hrd'.
           assert (r = rd) as <-; [| done].
           apply Hsep; [auto | by rewrite Hperm; apply elem_of_cons; left |].
           eapply conn_trans; [exact Ha | done].
    + rewrite Hperm in Hlen. simpl in *. lia.
Qed.

(** All vertices touched by an edge list. *)
Lemma forest_le F G :
  forest_rec src dst F -> forest_rec src dst G ->
  (forall a b, conn src dst F a b -> conn src dst G a b) ->
  length F <= length G.
Proof.
  intros HF HG Hsub.
  set (V := remove_dups ((src <$> (F ++ G)) ++ (dst <$> (F ++ G)))).
  assert (NoDup V) as HV by apply NoDup_remove_dups.
  assert (forall e, e ∈ F ++ G -> src e ∈ V /\ dst e ∈ V) as Hends.
  { intros e He. unfold V. rewrite !elem_of_remove_dups, !elem_of_app.
    split; [left | right]; apply list_elem_of_fmap; eauto. }
  destruct (forest_count V F HV HF) as (repsF & HtF & HlF).
  { intros e He. apply Hends, elem_of_app. by left. }
  destruct (forest_count V G HV HG) as (repsG & HtG & HlG).
  { intros e He. apply Hends, elem_of_app. by right. }
  pose proof (transversal_le V _ _ repsF repsG _ _ Hsub HtF HtG). lia.
Qed.
End Counting.

(* ===================================================================== *)
(** ** The greedy scan on the graph *)
(* ===================================================================== *)

Section Greedy.
Context {K E : Type} `{!EqDecision K} (src dst : E -> K) (w : E -> Z).
Implicit Types (F G acc l out : list E) (e : E) (a b c : K).

Lemma greedy_sub acc l out :
  greedy src dst acc l out ->
  exists new, out = acc ++ new /\ sublist new l.
Proof.
  induction 1 as [acc | acc e l out Hn _ (new & -> & Hsub)
                      | acc e l out Hc _ (new & -> & Hsub)].
  - exists []. by rewrite app_nil_r.
  - exists (e :: new). rewrite <- app_assoc. split; [done |].
    by apply sublist_skip.
  - exists new. split; [done |]. by apply sublist_cons.
Qed.

Lemma greedy_acc_in acc l out e :
  greedy src dst acc l out -> e ∈ acc -> e ∈ out.
Proof.
  intros Hg He. destruct (greedy_sub _ _ _ Hg) as (new & -> & _).
  apply elem_of_app. by left.
Qed.

Lemma greedy_forest acc l out :
  greedy src dst acc l out ->
  forest_rec src dst acc -> forest_rec src dst out.
Proof.
  induction 1 as [acc | acc e l out Hn _ IH | acc e l out Hc _ IH]; auto.
  intros HF. apply IH. by apply forest_rec_snoc.
Qed.

(** Every scanned edge ends up with connected endpoints. *)
Lemma greedy_span acc l out :
  greedy src dst acc l out ->
  forall e, e ∈ l -> conn src dst out (src e) (dst e).
Proof.
  induction 1 as [acc | acc e l out Hn Hg IH | acc e l out Hc Hg IH];
    intros e' He'.
  - by apply elem_of_nil in He'.
  - apply elem_of_cons in He' as [-> | He']; [| auto].
    apply conn_edge. eapply greedy_acc_in; [exact Hg |].
    apply elem_of_app. right. by apply elem_of_cons; left.
  - apply elem_of_cons in He' as [-> | He']; [| auto].
    revert Hc. apply conn_mono. intros e' ?. eapply greedy_acc_in; eauto.
Qed.

Lemma greedy_conn l out :
  greedy src dst [] l out ->
  forall a b, conn src dst out a b <-> conn src dst l a b.
Proof.
  intros Hg a b. split.
  - apply conn_mono. destruct (greedy_sub _ _ _ Hg) as (new & -> & Hsub).
    intros e He. eapply elem_of_sublist; eauto.
  - apply conn_incl. by apply (greedy_span [] l out).
Qed.

(** With the edges scanned in ascending order, the edges of weight at
    most [t] that were taken already connect whatever the scanned edges
    of weight at most [t] connect. *)
Lemma greedy_span_le acc l out t :
  greedy src dst acc l out ->
  (forall x y, x ∈ acc -> y ∈ l -> (w x <= w y)%Z) ->
  StronglySorted (fun x y => (w x <= w y)%Z) l ->
  forall e, e ∈ l -> (w e <= t)%Z ->
    conn src dst (filter (fun x => (w x <= t)%Z) out) (src e) (dst e).
Proof.
  induction 1 as [acc | acc e l out Hn Hg IH | acc e l out Hc Hg IH];
    intros Hacc Hsorted e' He' Ht.
  - by apply elem_of_nil in He'.
  - apply StronglySorted_inv in Hsorted as [Hsorted Hall].
    rewrite Forall_forall in Hall.
    apply elem_of_cons in He' as [-> | He'].
    + apply conn_edge. apply list_elem_of_filter. split; [done |].
      eapply greedy_acc_in; [exact Hg |].
      apply elem_of_app. right. by apply elem_of_cons; left.
    + apply IH; [| done | done | done].
      intros x y Hx Hy. apply elem_of_app in Hx as [Hx | Hx].
      * apply Hacc; [done | by apply elem_of_cons; right].
      * apply elem_of_cons in Hx as [-> | Hx]; [| by apply elem_of_nil in Hx].
        by apply Hall.
  - apply StronglySorted_inv in Hsorted as [Hsorted Hall].
    apply elem_of_cons in He' as [-> | He'].
    + revert Hc. apply conn_mono. intros x Hx.
      apply list_elem_of_filter. split.
      * specialize (Hacc x e Hx ltac:(by apply elem_of_cons; left)). lia.
      * eapply greedy_acc_in; eauto.
    + apply IH; [| done | done | done].
      intros x y Hx Hy. apply Hacc; [done | by apply elem_of_cons; right].
Qed.

Lemma greedy_taken acc l out :
  greedy src dst acc l out ->
  forall e, e ∈ out -> e ∈ acc \/ (e ∈ l /\ src e <> dst e).
Proof.
  induction 1 as [acc | acc e l out Hn _ IH | acc e l out Hc _ IH];
    intros e' He'; [by left | |].
  - destruct (IH _ He') as [[Hin | Hin%list_elem_of_singleton]%elem_of_app | [Hin Hne]].
    + by left.
    + subst e'. right. split; [by apply elem_of_cons; left |].
      intros Heq. apply Hn. rewrite Heq. apply conn_refl.
    + right. split; [by apply elem_of_cons; right | done].
  - destruct (IH _ He') as [Hin | [Hin Hne]]; [by left |].
    right. split; [by apply elem_of_cons; right | done].
Qed.
End Greedy.

(* ===================================================================== *)
(** ** Comparing two ascending lists of weights *)
(* ===================================================================== *)

Section Dominance.
Implicit Types (a b : list Z) (t : Z).

Lemma sumZ_perm a b : a ≡ₚ b -> sumZ a = sumZ b.
Proof.
  unfold sumZ. induction 1; simpl; lia.
Qed.

Lemma sumZ_app a b : sumZ (a ++ b) = (sumZ a + sumZ b)%Z.
Proof. unfold sumZ. induction a; simpl; lia. Qed.

Lemma filter_le_none t a :
  Forall (fun x => (t < x)%Z) a -> filter (fun x => (x <= t)%Z) a = [].
Proof.
  induction 1 as [| x a Hx _ IH]; [done |].
  rewrite filter_cons_False by lia. done.
Qed.

(** If, below every threshold, [a] has at least as many entries as [b],
    and both have the same length, then the entries of [a] add up to no
    more than those of [b]. *)
Lemma sorted_dominates a :
  forall b,
  StronglySorted Z.le a -> StronglySorted Z.le b ->
  length a = length b ->
  (forall t, length (filter (fun x => (x <= t)%Z) b)
             <= length (filter (fun x => (x <= t)%Z) a)) ->
  (sumZ a <= sumZ b)%Z.
Proof.
  induction a as [| a1 a IH]; intros [| b1 b] Ha Hb Hlen Hcount;
    simpl in Hlen; try lia.
  apply StronglySorted_inv in Ha as [Ha Ha1].
  apply StronglySorted_inv in Hb as [Hb Hb1].
  assert (a1 <= b1)%Z as Hhead.
  { destruct (decide (a1 <= b1)%Z) as [? | Hgt]; [done | exfalso].
    specialize (Hcount b1).
    rewrite (filter_cons_True _ b1) in Hcount by lia.
    rewrite (filter_cons_False _ a1) in Hcount by lia.
    rewrite (filter_le_none b1 a) in Hcount; [simpl in Hcount; lia |].
    eapply Forall_impl; [exact Ha1 | simpl; intros; lia]. }
  assert (sumZ a <= sumZ b)%Z; [| unfold sumZ in *; simpl; lia].
  apply IH; [done | done | lia |].
  intros t. specialize (Hcount t).
  destruct (decide (a1 <= t)%Z) as [Hat | Hat].
  - rewrite (filter_cons_True _ a1) in Hcount by done.
    destruct (decide (b1 <= t)%Z) as [Hbt | Hbt].
    + rewrite (filter_cons_True _ b1) in Hcount by done. simpl in Hcount. lia.
    + rewrite (filter_le_none t b); [simpl; lia |].
      eapply Forall_impl; [exact Hb1 | simpl; intros; lia].
  - rewrite (filter_cons_False _ a1) in Hcount by done.
    rewrite (filter_le_none t a) in Hcount |- *;
      [| eapply Forall_impl; [exact Ha1 | simpl; intros; lia] ..].
    destruct (decide (b1 <= t)%Z) as [Hbt | Hbt].
    + rewrite (filter_cons_True _ b1) in Hcount by done. simpl in Hcount. lia.
    + by rewrite (filter_cons_False _ b1) in Hcount by done.
Qed.

Global Instance Zle_total : Total Z.le.
Proof. intros x y. lia. Qed.

(** The same without asking [b] to be sorted. *)
Lemma dominates a b :
  StronglySorted Z.le a ->
  length a = length b ->
  (forall t, length (filter (fun x => (x <= t)%Z) b)
             <= length (filter (fun x => (x <= t)%Z) a)) ->
  (sumZ a <= sumZ b)%Z.
Proof.
  intros Ha Hlen Hcount.
  pose proof (merge_sort_Permutation Z.le b) as Hperm.
  rewrite <- (sumZ_perm _ _ Hperm).
  apply sorted_dominates; [done | | |].
  - apply StronglySorted_merge_sort; apply _.
  - by rewrite Hperm.
  - intros t. by rewrite Hperm.
Qed.

Lemma filter_fmap_length {A} (f : A -> Z) t (l : list A) :
  length (filter (fun x => (x <= t)%Z) (f <$> l))
  = length (filter (fun x => (f x <= t)%Z) l).
Proof.
  induction l as [| x l IH]; [done |]. rewrite fmap_cons.
  destruct (decide (f x <= t)%Z).
  - rewrite !filter_cons_True by done. simpl. by rewrite IH.
  - rewrite !filter_cons_False by done. done.
Qed.

Lemma StronglySorted_fmap {A} (f : A -> Z) (l : list A) :
  StronglySorted (fun x y => (f x <= f y)%Z) l ->
  StronglySorted Z.le (f <$> l).
Proof.
  induction 1 as [| x l _ IH Hall]; [constructor |].
  rewrite fmap_cons. constructor; [done |].
  by apply Forall_fmap.
Qed.

Lemma StronglySorted_sublist {A} (R : relation A) (l k : list A) :
  sublist l k -> StronglySorted R k -> StronglySorted R l.
Proof.
  induction 1 as [| x l k Hsub IH | x l k Hsub IH]; [done | |].
  - intros [Hk Hall]%StronglySorted_inv. constructor; [auto |].
    rewrite Forall_forall in Hall |- *. intros y Hy. apply Hall.
    eapply elem_of_sublist; eauto.
  - intros [Hk _]%StronglySorted_inv. auto.
Qed.
End Dominance.

(* ===================================================================== *)
(** ** Minimality of the greedy scan *)
(* ===================================================================== *)

Section GreedyOptimal.
Context {K E : Type} `{!EqDecision K} (src dst : E -> K) (w : E -> Z).
Implicit Types (F G l out : list E) (e : E).

Lemma greedy_optimal l out F :
  greedy src dst [] l out ->
  StronglySorted (fun x y => (w x <= w y)%Z) l ->
  (forall e, e ∈ F -> e ∈ l) ->
  forest_rec src dst F ->
  (forall a b, conn src dst out a b -> conn src dst F a b) ->
  (sumZ (w <$> out) <= sumZ (w <$> F))%Z.
Proof.
  intros Hg Hsorted Hsub HF Hspan.
  destruct (greedy_sub _ _ _ _ _ Hg) as (new & Hout & Hsl). simpl in Hout. subst new.
  pose proof (greedy_forest _ _ _ _ _ Hg I) as Hfo.
  assert (forall a b, conn src dst F a b -> conn src dst out a b) as Hback.
  { intros a b Hc. apply (greedy_conn _ _ _ _ Hg).
    revert Hc. by apply conn_mono. }
  apply dominates.
  - apply StronglySorted_fmap. by eapply StronglySorted_sublist.
  - rewrite !length_fmap. apply Nat.le_antisymm.
    + by apply (forest_le src dst).
    + by apply (forest_le src dst).
  - intros t. rewrite !filter_fmap_length.
    apply (forest_le src dst).
    + eapply forest_rec_sublist; [apply sublist_filter | done].
    + eapply forest_rec_sublist; [apply sublist_filter | done].
    + apply conn_incl. intros e [Ht He]%list_elem_of_filter.
      eapply (greedy_span_le src dst w [] l out t); eauto.
      intros x y Hx. by apply elem_of_nil in Hx.
Qed.
End GreedyOptimal.

(* ===================================================================== *)
(** ** The sort *)
(* ===================================================================== *)

Section Sort.
Implicit Types (e x y : edge) (l : list edge).

Lemma sort_insert_perm {A} (cmp : A -> A -> number) (x : A) (l : list A) :
  sort_insert cmp x l ≡ₚ x :: l.
Proof.
  induction l as [| y l IH]; simpl; [done |].
  case_bool_decide; [| done].
  rewrite IH. apply Permutation_swap.
Qed.

Lemma js_sort_perm {A} (cmp : A -> A -> number) (l : list A) :
  js_sort cmp l ≡ₚ l.
Proof.
  induction l as [| x l IH]; simpl; [done |].
  by rewrite sort_insert_perm, IH.
Qed.

Lemma js_sort_length {A} (cmp : A -> A -> number) (l : list A) :
  length (js_sort cmp l) = length l.
Proof. by rewrite js_sort_perm. Qed.

Lemma sort_compare_numeric x y :
  numeric x -> numeric y -> sort_compare by_weight x y = (wt x - wt y)%Z.
Proof.
  intros [a Ha] [b Hb]. unfold sort_compare, by_weight, js_sub, wt.
  by rewrite Ha, Hb.
Qed.

Lemma sort_insert_numeric x l :
  numeric x -> Forall numeric l ->
  sort_insert by_weight x l
  = match l with
    | [] => [x]
    | y :: l' => if bool_decide (wt y < wt x)%Z
                 then y :: sort_insert by_weight x l' else x :: y :: l'
    end.
Proof.
  intros Hx Hl. destruct l as [| y l]; [done |]. simpl.
  apply Forall_cons in Hl as [Hy _].
  rewrite sort_compare_numeric by done.
  repeat case_bool_decide; done || lia.
Qed.

Lemma sort_insert_sorted x l :
  numeric x -> Forall numeric l ->
  StronglySorted (fun a b => (wt a <= wt b)%Z) l ->
  StronglySorted (fun a b => (wt a <= wt b)%Z) (sort_insert by_weight x l).
Proof.
  intros Hx Hl Hs. induction Hs as [| y l Hs IH Hall].
  - simpl. repeat constructor.
  - rewrite sort_insert_numeric by done.
    apply Forall_cons in Hl as [Hy Hl].
    case_bool_decide as Hlt.
    + constructor; [auto |].
      rewrite sort_insert_perm. constructor; [lia | done].
    + constructor; [by constructor |].
      constructor; [lia |].
      eapply Forall_impl; [exact Hall | simpl; intros; lia].
Qed.

Lemma js_sort_sorted l :
  Forall numeric l ->
  StronglySorted (fun a b => (wt a <= wt b)%Z) (js_sort by_weight l).
Proof.
  induction 1 as [| x l Hx Hl IH]; simpl; [constructor |].
  apply sort_insert_sorted; [done | | done].
  by rewrite js_sort_perm.
Qed.

(** Stability: edges of one weight keep their input order. *)
Lemma sort_insert_stable x l z :
  numeric x -> Forall numeric l ->
  filter (fun e => wt e = z) (sort_insert by_weight x l)
  = filter (fun e => wt e = z) (x :: l).
Proof.
  intros Hx Hl. induction Hl as [| y l Hy Hl IH]; [done |].
  rewrite sort_insert_numeric by (done || by constructor).
  case_bool_decide as Hlt; [| done].
  destruct (decide (wt y = z)) as [Hyz | Hyz].
  - rewrite (filter_cons_True _ y) by done. rewrite IH.
    rewrite !(filter_cons_False _ x) by lia.
    by rewrite (filter_cons_True _ y) by done.
  - rewrite (filter_cons_False _ y) by done. rewrite IH.
    destruct (decide (wt x = z)).
    + rewrite !(filter_cons_True _ x) by done.
      by rewrite (filter_cons_False _ y) by done.
    + rewrite !(filter_cons_False _ x) by done.
      by rewrite (filter_cons_False _ y) by done.
Qed.

Lemma js_sort_stable l z :
  Forall numeric l ->
  filter (fun e => wt e = z) (js_sort by_weight l)
  = filter (fun e => wt e = z) l.
Proof.
  induction 1 as [| x l Hx Hl IH]; [done |]. simpl.
  rewrite sort_insert_stable; [| done | by rewrite js_sort_perm].
  destruct (decide (wt x = z)).
  - rewrite !(filter_cons_True _ x) by done. by rewrite IH.
  - rewrite !(filter_cons_False _ x) by done. by rewrite IH.
Qed.

(** There is only one ascending arrangement with a given order inside
    every weight class. *)
Lemma stable_sort_unique l1 :
  forall l2,
  StronglySorted (fun a b => (wt a <= wt b)%Z) l1 ->
  StronglySorted (fun a b => (wt a <= wt b)%Z) l2 ->
  (forall z, filter (fun e => wt e = z) l1 = filter (fun e => wt e = z) l2) ->
  l1 = l2.
Proof.
  induction l1 as [| x l1 IH]; intros [| y l2] H1 H2 Hcl; [done | | |].
  - specialize (Hcl (wt y)). by rewrite filter_cons_True in Hcl.
  - specialize (Hcl (wt x)). by rewrite filter_cons_True in Hcl.
  - apply StronglySorted_inv in H1 as [H1 Hx].
    apply StronglySorted_inv in H2 as [H2 Hy].
    rewrite Forall_forall in Hx, Hy.
    assert (x ∈ y :: l2) as Hxin.
    { pose proof (Hcl (wt x)) as Hc. rewrite (filter_cons_True _ x) in Hc by done.
      assert (x ∈ filter (fun e => wt e = wt x) (y :: l2)) as Hin.
      { rewrite <- Hc. by apply elem_of_cons; left. }
      by apply list_elem_of_filter in Hin as [_ ?]. }
    assert (y ∈ x :: l1) as Hyin.
    { pose proof (Hcl (wt y)) as Hc. rewrite (filter_cons_True _ y) in Hc by done.
      assert (y ∈ filter (fun e => wt e = wt y) (x :: l1)) as Hin.
      { rewrite Hc. by apply elem_of_cons; left. }
      by apply list_elem_of_filter in Hin as [_ ?]. }
    assert (wt x = wt y) as Hw.
    { apply elem_of_cons in Hxin as [-> | Hxin]; [done |].
      apply elem_of_cons in Hyin as [-> | Hyin]; [done |].
      specialize (Hx _ Hyin). specialize (Hy _ Hxin). simpl in *. lia. }
    assert (x = y) as <-.
    { pose proof (Hcl (wt x)) as Hc.
      rewrite (filter_cons_True _ x) in Hc by done.
      rewrite (filter_cons_True _ y) in Hc by done. congruence. }
    f_equal. apply IH; [done | done |].
    intros z. specialize (Hcl z).
    destruct (decide (wt x = z)).
    + rewrite !(filter_cons_True _ x) in Hcl by done. congruence.
    + by rewrite !(filter_cons_False _ x) in Hcl by done.
Qed.
End Sort.

(* ===================================================================== *)
(** ** The constructor *)
(* ===================================================================== *)

Section Constructor.
Implicit Types (V : list string) (x y : value).

Lemma new_DisjointSet_fold V :
  forall ds x,
  let ds' := fold_left
    (fun ds e => rank_set (parent_set ds (Some e) (Some e)) (Some e) (Num 0))
    V ds in
  parent_get ds' x
    = match x with
      | Some s => if decide (s ∈ V) then Some s else parent_get ds x
      | None => parent_get ds x
      end /\
  rank_get ds' x
    = match x with
      | Some s => if decide (s ∈ V) then Some (Num 0) else rank_get ds x
      | None => rank_get ds x
      end.
Proof.
  induction V as [| e V IH]; intros ds x; cbn zeta; cbn [fold_left].
  - destruct x as [s |]; [| done].
    rewrite !decide_False by apply not_elem_of_nil. done.
  - destruct (IH (rank_set (parent_set ds (Some e) (Some e)) (Some e) (Num 0)) x)
      as [-> ->].
    destruct x as [s |].
    + rewrite parent_get_rank_set, parent_get_set, rank_get_set, rank_get_parent_set.
      destruct (decide (s ∈ V)) as [Hs | Hs].
      * rewrite !decide_True by (by apply elem_of_cons; right). done.
      * destruct (decide (Some e = Some s)) as [[= ->] | Hne].
        -- rewrite !decide_True by (by apply elem_of_cons; left). done.
        -- rewrite !decide_False; [done | |];
             intros [-> | ?]%elem_of_cons; done.
    + rewrite parent_get_rank_set, parent_get_set, rank_get_set, rank_get_parent_set.
      by rewrite !decide_False by done.
Qed.

Lemma new_DisjointSet_parent V x :
  parent_get (new_DisjointSet V) x = nrm V x.
Proof.
  destruct (new_DisjointSet_fold V (mkDS ∅ ∅) x) as [Hp _].
  unfold new_DisjointSet. rewrite Hp.
  destruct x as [s |]; [| done]. simpl. by case_decide.
Qed.

Lemma new_DisjointSet_rank V x :
  rank_get (new_DisjointSet V) x
  = match x with
    | Some s => if decide (s ∈ V) then Some (Num 0) else None
    | None => None
    end.
Proof.
  destruct (new_DisjointSet_fold V (mkDS ∅ ∅) x) as [_ Hr].
  unfold new_DisjointSet. rewrite Hr.
  destruct x as [s |]; [| done]. by case_decide.
Qed.

Lemma nrm_idemp V x : nrm V (nrm V x) = nrm V x.
Proof.
  destruct x as [s |]; [| done]. simpl.
  case_decide; [| done]. simpl. by rewrite decide_True.
Qed.

Lemma new_DisjointSet_ranked V :
  ranked 1 (fun x => if x is None then 1 else 0) (parent_get (new_DisjointSet V)).
Proof.
  intros x. rewrite new_DisjointSet_parent. split.
  - destruct x; lia.
  - destruct x as [s |]; [| done]. simpl. case_decide; [done | lia].
Qed.

Lemma new_DisjointSet_root V x :
  root_rel (parent_get (new_DisjointSet V)) x (nrm V x).
Proof.
  assert (root_rel (parent_get (new_DisjointSet V)) (nrm V x) (nrm V x)) as Hr.
  { apply root_self. by rewrite new_DisjointSet_parent, nrm_idemp. }
  destruct (decide (nrm V x = x)) as [Hx | Hx].
  - by rewrite Hx in Hr |- *.
  - apply root_step; rewrite new_DisjointSet_parent; done.
Qed.

Lemma new_DisjointSet_same_set V x y :
  same_set (parent_get (new_DisjointSet V)) x y <-> nrm V x = nrm V y.
Proof.
  split.
  - intros (r & Hx & Hy).
    rewrite <- (root_rel_fun _ _ _ _ Hx (new_DisjointSet_root V x)).
    by rewrite <- (root_rel_fun _ _ _ _ Hy (new_DisjointSet_root V y)).
  - intros Heq. exists (nrm V x). split; [apply new_DisjointSet_root |].
    rewrite Heq. apply new_DisjointSet_root.
Qed.
End Constructor.

(* ===================================================================== *)
(** ** The scan over the sorted edges *)
(* ===================================================================== *)

Section Scan.
Implicit Types (ds : DisjointSet) (x y : value) (e : edge)
  (V : list string) (mst rest : list edge).

Lemma union_stack_mono stack stack' ds x y res :
  stack <= stack' -> union stack ds x y = Some res ->
  union stack' ds x y = Some res.
Proof.
  intros Hle. unfold union.
  destruct (find stack ds x) as [[ds1 rx] |] eqn:H1; [| done].
  rewrite (find_stack_mono _ _ _ _ _ Hle H1).
  destruct (find stack ds1 y) as [[ds2 ry] |] eqn:H2; [| done].
  by rewrite (find_stack_mono _ _ _ _ _ Hle H2).
Qed.

Lemma scan_stack_mono stack stack' rest :
  stack <= stack' ->
  forall ds mst total r,
  scan stack ds mst total rest = Some r ->
  scan stack' ds mst total rest = Some r.
Proof.
  intros Hle. induction rest as [| e rest IH]; intros ds mst total r; [done |].
  simpl.
  destruct (union stack ds (Some (u e)) (Some (v e))) as [[ds' b] |] eqn:Hu; [| done].
  rewrite (union_stack_mono _ _ _ _ _ _ Hle Hu).
  destruct b; apply IH.
Qed.

Lemma kruskalMST_stack_mono stack stack' V edges r :
  stack <= stack' -> kruskalMST stack V edges = Some r ->
  kruskalMST stack' V edges = Some r.
Proof. intros Hle. unfold kruskalMST. by apply scan_stack_mono. Qed.

(** The loop is the greedy scan on the graph whose vertices are the keys
    as the forest sees them. *)
Lemma scan_spec V stack rest :
  forall ds mst total H h,
  ranked H h (parent_get ds) ->
  H + length rest < stack ->
  (forall x y, same_set (parent_get ds) x y <->
               conn (nsrc V) (ndst V) mst (nrm V x) (nrm V y)) ->
  exists r new,
    scan stack ds mst total rest = Some r /\
    mstEdges r = mst ++ new /\
    totalCost r = add_weights total new /\
    greedy (nsrc V) (ndst V) mst rest (mstEdges r).
Proof.
  induction rest as [| e rest IH]; intros ds mst total H h Hr Hlt Hinv; simpl.
  - exists (mkResult mst total), []. simpl.
    rewrite app_nil_r. split_and!; [done | done | done | constructor].
  - simpl in Hlt.
    destruct (union_partition stack ds (Some (u e)) (Some (v e)) H h Hr ltac:(lia))
      as (ds' & b & h' & -> & Hr' & Hb & Hfalse & Htrue).
    destruct b.
    + destruct (IH ds' (mst ++ [e]) (js_add (Some total) (weight e)) (S H) h' Hr'
                  ltac:(lia)) as (r & new & Hs & Hm & Ht & Hg).
      { intros x y. rewrite (Htrue eq_refl x y).
        rewrite conn_snoc, conn_cons, !Hinv. done. }
      exists r, (e :: new). split_and!; [done | | done |].
      * by rewrite Hm, <- app_assoc.
      * apply greedy_take; [| done].
        intros Hc. apply (Hinv (Some (u e)) (Some (v e))) in Hc.
        apply Hb in Hc. done.
    + destruct (IH ds' mst total H h' Hr' ltac:(lia))
        as (r & new & Hs & Hm & Ht & Hg).
      { intros x y. rewrite (Hfalse eq_refl x y). apply Hinv. }
      exists r, new. split_and!; [done | done | done |].
      apply greedy_skip; [| done].
      apply (Hinv (Some (u e)) (Some (v e))). by apply Hb.
Qed.

Lemma kruskalMST_greedy V edges stack :
  length edges + 1 < stack ->
  exists r,
    kruskalMST stack V edges = Some r /\
    totalCost r = add_weights (Num 0) (mstEdges r) /\
    greedy (nsrc V) (ndst V) [] (js_sort by_weight edges) (mstEdges r).
Proof.
  intros Hlt. unfold kruskalMST.
  destruct (scan_spec V stack (js_sort by_weight edges) (new_DisjointSet V) []
              (Num 0) 1 _ (new_DisjointSet_ranked V)) as (r & new & Hs & Hm & Ht & Hg).
  - rewrite js_sort_length. lia.
  - intros x y. rewrite new_DisjointSet_same_set. split.
    + intros ->. apply conn_refl.
    + apply conn_nil.
  - exists r. simpl in Hm. subst new. done.
Qed.

(** Whatever stack made the call return, the result is the greedy one. *)
Lemma kruskalMST_result V edges stack r :
  kruskalMST stack V edges = Some r ->
  totalCost r = add_weights (Num 0) (mstEdges r) /\
  greedy (nsrc V) (ndst V) [] (js_sort by_weight edges) (mstEdges r).
Proof.
  intros Hk.
  destruct (kruskalMST_greedy V edges (stack + length edges + 2) ltac:(lia))
    as (r' & Hk' & Hspec).
  rewrite (kruskalMST_stack_mono stack (stack + length edges + 2) V edges r
             ltac:(lia) Hk) in Hk'.
  by injection Hk' as <-.
Qed.

Lemma kruskalMST_returns_greedy V edges :
  exists res,
    kruskalMST_returns V edges res /\
    totalCost res = add_weights (Num 0) (mstEdges res) /\
    greedy (nsrc V) (ndst V) [] (js_sort by_weight edges) (mstEdges res).
Proof.
  destruct (kruskalMST_greedy V edges (length edges + 2) ltac:(lia))
    as (res & Hk & Hspec).
  exists res. split; [split |]; [| | done].
  - intros stack Hlt. eapply kruskalMST_stack_mono; [| exact Hk]. lia.
  - intros stack res' Hk'.
    pose proof (kruskalMST_stack_mono stack (stack + length edges + 2) V edges res'
                  ltac:(lia) Hk') as H1.
    pose proof (kruskalMST_stack_mono (length edges + 2) (stack + length edges + 2)
                  V edges res ltac:(lia) Hk) as H2.
    congruence.
Qed.

Lemma add_weights_numeric F z :
  Forall numeric F -> add_weights (Num z) F = Num (z + cost F).
Proof.
  intros HF. revert z. unfold cost.
  induction HF as [| e F [w Hw] _ IH]; intros z.
  - simpl. f_equal. unfold sumZ. simpl. lia.
  - change (add_weights (Num z) (e :: F))
      with (add_weights (js_add (Some (Num z)) (weight e)) F).
    rewrite Hw. unfold js_add. simpl. rewrite IH.
    f_equal. unfold sumZ, wt. simpl. rewrite Hw. symmetry. apply Z.add_assoc.
Qed.

Lemma add_weights_invalid F total :
  Exists invalid_weight F -> add_weights total F = NaN.
Proof.
  assert (forall G, add_weights NaN G = NaN) as Hnan.
  { induction G as [| e G IH]; [done |]. simpl. exact IH. }
  intros HF. revert total.
  induction HF as [e F He | e F _ IH]; intros total; simpl.
  - assert (js_add (Some total) (weight e) = NaN) as ->; [| apply Hnan].
    unfold js_add. destruct He as [-> | ->]; simpl; by destruct total.
  - apply IH.
Qed.
End Scan.

(* ===================================================================== *)
(** ** From keys back to vertex names *)
(* ===================================================================== *)

Section Transfer.
Context {K K' E : Type} (f : K -> K') `{!Inj (=) (=) f}
  (src dst : E -> K) (src' dst' : E -> K').
Implicit Types (F : list E).

Lemma conn_inj_fwd F a b :
  (forall e, e ∈ F -> src' e = f (src e) /\ dst' e = f (dst e)) ->
  conn src dst F a b -> conn src' dst' F (f a) (f b).
Proof.
  intros Hf. induction 1 as [a | a a' b (e & He & Hends) _ IH]; [apply conn_refl |].
  eapply conn_trans; [| exact IH].
  destruct (Hf e He) as [Hs Hd].
  destruct Hends as [[<- <-] | [<- <-]]; rewrite <- Hs, <- Hd.
  - by apply conn_edge.
  - apply conn_sym. by apply conn_edge.
Qed.

Lemma conn_inj_bwd_aux F x y :
  (forall e, e ∈ F -> src' e = f (src e) /\ dst' e = f (dst e)) ->
  conn src' dst' F x y ->
  forall a, x = f a -> exists b, y = f b /\ conn src dst F a b.
Proof.
  intros Hf. induction 1 as [x | x x' y (e & He & Hends) _ IH]; intros a ->.
  - exists a. split; [done | apply conn_refl].
  - destruct (Hf e He) as [Hs Hd]. rewrite Hs, Hd in Hends.
    destruct Hends as [[Ha <-] | [<- Ha]]; apply (inj f) in Ha; subst a.
    + destruct (IH _ eq_refl) as (b & -> & Hc). exists b. split; [done |].
      eapply conn_trans; [by apply conn_edge | done].
    + destruct (IH _ eq_refl) as (b & -> & Hc). exists b. split; [done |].
      eapply conn_trans; [apply conn_sym; by apply conn_edge | done].
Qed.

Lemma conn_inj F a b :
  (forall e, e ∈ F -> src' e = f (src e) /\ dst' e = f (dst e)) ->
  conn src' dst' F (f a) (f b) <-> conn src dst F a b.
Proof.
  intros Hf. split; [| by apply conn_inj_fwd].
  intros Hc. destruct (conn_inj_bwd_aux F _ _ Hf Hc a eq_refl) as (b' & Hb & Hc').
  apply (inj f) in Hb. by subst b'.
Qed.

Lemma forest_rec_inj F :
  (forall e, e ∈ F -> src' e = f (src e) /\ dst' e = f (dst e)) ->
  forest_rec src' dst' F <-> forest_rec src dst F.
Proof.
  induction F as [| e F IH]; intros Hf; [done |]. simpl.
  destruct (Hf e ltac:(by apply elem_of_cons; left)) as [-> ->].
  assert (forall e', e' ∈ F -> src' e' = f (src e') /\ dst' e' = f (dst e')) as Hf'.
  { intros e' ?. apply Hf. by apply elem_of_cons; right. }
  rewrite (conn_inj F _ _ Hf'), (IH Hf'). done.
Qed.
End Transfer.

(* ===================================================================== *)
(** ** The forest operations on every state *)
(* ===================================================================== *)

Section Operations.
Implicit Types (ds : DisjointSet) (r k : value) (elements : list string).

Lemma find_result stack ds (x : value) ds' r H h :
  ranked H h (parent_get ds) ->
  find stack ds x = Some (ds', r) ->
  root_rel (parent_get ds) x r /\
  rank ds' = rank ds /\
  compressed (parent_get ds) (parent_get ds').
Proof.
  intros Hr Hf.
  destruct (find_spec (stack + H + 1) ds x H h Hr ltac:(lia))
    as (ds0 & r0 & Hf0 & Hspec).
  rewrite (find_stack_mono stack (stack + H + 1) ds x _ ltac:(lia) Hf) in Hf0.
  by injection Hf0 as <- <-.
Qed.

Lemma union_result stack ds (x y : value) ds' b H h :
  ranked H h (parent_get ds) ->
  union stack ds x y = Some (ds', b) ->
  exists rx ry ds2,
    root_rel (parent_get ds) x rx /\
    root_rel (parent_get ds) y ry /\
    compressed (parent_get ds) (parent_get ds2) /\
    rank ds2 = rank ds /\
    ((b = false /\ rx = ry /\ ds' = ds2) \/
     (b = true /\ rx <> ry /\
      ((js_lt (rank_get ds rx) (rank_get ds ry) = true /\
        ds' = parent_set ds2 rx ry) \/
       (js_lt (rank_get ds rx) (rank_get ds ry) = false /\
        js_gt (rank_get ds rx) (rank_get ds ry) = true /\
        ds' = parent_set ds2 ry rx) \/
       (js_lt (rank_get ds rx) (rank_get ds ry) = false /\
        js_gt (rank_get ds rx) (rank_get ds ry) = false /\
        ds' = rank_set (parent_set ds2 ry rx) rx
                (js_add (rank_get ds rx) (Some (Num 1))))))).
Proof.
  intros Hr Hu.
  destruct (union_spec (stack + H + 1) ds x y H h Hr ltac:(lia))
    as (ds0 & b0 & rx & ry & ds2 & Hu0 & Hspec).
  rewrite (union_stack_mono stack (stack + H + 1) ds x y _ ltac:(lia) Hu) in Hu0.
  injection Hu0 as <- <-. exists rx, ry, ds2. done.
Qed.

Lemma union_result_forest stack ds (x y : value) ds' b :
  is_forest ds -> union stack ds x y = Some (ds', b) -> is_forest ds'.
Proof.
  intros (H & h & Hr) Hu.
  destruct (union_partition (stack + H + 1) ds x y H h Hr ltac:(lia))
    as (ds0 & b0 & h' & Hu0 & Hr' & _).
  rewrite (union_stack_mono stack (stack + H + 1) ds x y _ ltac:(lia) Hu) in Hu0.
  injection Hu0 as <- <-. eexists _, h'. exact Hr'.
Qed.

Lemma find_result_forest stack ds (x : value) ds' r :
  is_forest ds -> find stack ds x = Some (ds', r) -> is_forest ds'.
Proof.
  intros (H & h & Hr) Hf.
  destruct (find_result _ _ _ _ _ _ _ Hr Hf) as (_ & _ & Hc).
  exists H, h. eapply compressed_ranked; eauto.
Qed.

(** On a forest both operations return once the stack is deep enough. *)
Lemma find_returns ds (x : value) :
  is_forest ds ->
  exists bound, forall stack, bound < stack -> is_Some (find stack ds x).
Proof.
  intros (H & h & Hr). exists H. intros stack Hlt.
  destruct (find_spec stack ds x H h Hr ltac:(lia)) as (ds' & r & -> & _). eauto.
Qed.

Lemma union_returns ds (x y : value) :
  is_forest ds ->
  exists bound, forall stack, bound < stack -> is_Some (union stack ds x y).
Proof.
  intros (H & h & Hr). exists H. intros stack Hlt.
  destruct (union_spec stack ds x y H h Hr Hlt) as (ds' & b & ? & ? & ? & -> & _).
  eauto.
Qed.

Lemma new_DisjointSet_forest elements : is_forest (new_DisjointSet elements).
Proof. eexists _, _. apply new_DisjointSet_ranked. Qed.

(** Whatever keys the operations are called on, the parent map stays a
    forest. *)
Lemma produced_forest elements ds : produced elements ds -> is_forest ds.
Proof.
  induction 1 as [| ds stack x ds' r _ IH Hf | ds stack x y ds' b _ IH Hu].
  - apply new_DisjointSet_forest.
  - by eapply find_result_forest.
  - by eapply union_result_forest.
Qed.

Lemma reachable_produced elements ds : reachable elements ds -> produced elements ds.
Proof.
  induction 1 as [| ds stack x ds' r _ IH Hx Hf | ds stack x y ds' b _ IH Hx Hy Hu].
  - apply prod_new.
  - by eapply prod_find.
  - by eapply prod_union.
Qed.

(** Roots of registered vertices are registered. *)
Lemma regular_root elements ds x r :
  regular elements ds -> x ∈ elements ->
  root_rel (parent_get ds) (Some x) r ->
  exists y, y ∈ elements /\ r = Some y.
Proof.
  intros (_ & Hcl & _) Hx Hroot.
  remember (Some x) as k eqn:Hk. revert x Hx Hk.
  induction Hroot as [k Hself | k r Hne _ IH]; intros x Hx ->.
  - exists x. done.
  - destruct (Hcl x Hx) as (y & Hy & Hp). rewrite Hp in IH. eauto.
Qed.

Lemma regular_compressed elements ds ds' :
  regular elements ds ->
  compressed (parent_get ds) (parent_get ds') -> rank ds' = rank ds ->
  regular elements ds'.
Proof.
  intros Hreg Hc Hrk. pose proof Hreg as ((H & h & Hr) & Hcl & Hrank).
  split_and!.
  - exists H, h. eapply compressed_ranked; eauto.
  - intros x Hx. destruct (Hc (Some x)) as [-> | Hroot]; [auto |].
    destruct (regular_root _ _ _ _ Hreg Hx Hroot) as (y & Hy & ->). eauto.
  - intros x Hx. unfold rank_get. rewrite Hrk. by apply Hrank.
Qed.

Lemma new_DisjointSet_regular elements : regular elements (new_DisjointSet elements).
Proof.
  split_and!.
  - apply new_DisjointSet_forest.
  - intros x Hx. exists x. split; [done |].
    rewrite new_DisjointSet_parent. simpl. by rewrite decide_True.
  - intros x Hx. exists 0%Z. split; [| done].
    rewrite new_DisjointSet_rank. by rewrite decide_True.
Qed.

Lemma regular_link elements ds2 a c :
  regular elements ds2 ->
  (exists y, y ∈ elements /\ c = Some y) ->
  forall d, is_forest d ->
    (forall k, parent_get d k = if decide (a = k) then c else parent_get ds2 k) ->
    (forall x, x ∈ elements ->
       exists n, rank_get d (Some x) = Some (Num n) /\ (0 <= n)%Z) ->
    regular elements d.
Proof.
  intros (_ & Hcl & _) (y & Hy & ->) d Hfo Hd Hrk. split_and!; [done | | done].
  intros x Hx. rewrite Hd. case_decide; eauto.
Qed.

Lemma reachable_regular elements ds :
  reachable elements ds -> regular elements ds.
Proof.
  induction 1 as [| ds stack x ds' r _ IH Hx Hf
                   | ds stack x y ds' b _ IH Hx Hy Hu].
  - apply new_DisjointSet_regular.
  - pose proof IH as ((H & h & Hr) & _).
    destruct (find_result _ _ _ _ _ _ _ Hr Hf) as (_ & Hrk & Hc).
    eapply regular_compressed; eauto.
  - pose proof IH as ((H & h & Hr) & _ & Hrank).
    pose proof (union_result_forest _ _ _ _ _ _ (proj1 IH) Hu) as Hfo.
    destruct (union_result _ _ _ _ _ _ _ _ Hr Hu)
      as (rx & ry & ds2 & Hrx & Hry & Hc & Hrk & Hcases).
    pose proof (regular_compressed _ _ _ IH Hc Hrk) as Hreg2.
    destruct (regular_root _ _ _ _ IH Hx Hrx) as (x' & Hx' & ->).
    destruct (regular_root _ _ _ _ IH Hy Hry) as (y' & Hy' & ->).
    destruct Hcases as [(_ & _ & ->) | (_ & Hne & Hcases)]; [done |].
    destruct Hreg2 as (Hf2 & Hcl2 & Hrank2).
    destruct Hcases as [(_ & ->) | [(_ & _ & ->) | (_ & _ & ->)]].
    + eapply (regular_link elements ds2 (Some x') (Some y')); eauto.
      * done.
      * apply parent_get_set.
    + eapply (regular_link elements ds2 (Some y') (Some x')); eauto.
      * done.
      * apply parent_get_set.
    + eapply (regular_link elements ds2 (Some y') (Some x')); eauto.
      * done.
      * intros k. rewrite parent_get_rank_set. apply parent_get_set.
      * intros z Hz. rewrite rank_get_set, rank_get_parent_set.
        destruct (Hrank x' Hx') as (n & Hn & Hpos).
        case_decide.
        -- exists (n + 1)%Z. rewrite Hn. split; [done | lia].
        -- by apply Hrank2.
Qed.

Lemma find_steps_roots ds ds' :
  find_steps ds ds' -> is_forest ds ->
  is_forest ds' /\
  forall y r, root_rel (parent_get ds') y r <-> root_rel (parent_get ds) y r.
Proof.
  induction 1 as [ds | ds stack y ds1 r ds2 Hf _ IH]; intros Hfo; [done |].
  pose proof Hfo as (H & h & Hr).
  destruct (find_result _ _ _ _ _ _ _ Hr Hf) as (_ & _ & Hc).
  destruct (IH (find_result_forest _ _ _ _ _ Hfo Hf)) as [Hfo2 Hroots].
  split; [done |]. intros z rz. rewrite Hroots. split.
  - eapply compressed_roots_inv; eauto.
  - eapply compressed_roots; eauto.
Qed.
End Operations.

(* ===================================================================== *)
(** ** Properties of [find] and [union] *)
(* ===================================================================== *)

Lemma deep_reachable : reachable abcd deep.
Proof.
  apply (reach_union abcd deep2 3 "c" "b" deep true); [| in_list | in_list | by vm_compute].
  apply (reach_union abcd deep1 3 "c" "d" deep2 true); [| in_list | in_list | by vm_compute].
  apply (reach_union abcd (new_DisjointSet abcd) 3 "b" "a" deep1 true);
    [| in_list | in_list | by vm_compute].
  apply reach_new.
Qed.

Lemma deep_depth_a : depth (parent_get deep) (Some "a"%string) 2.
Proof.
  apply depth_step; [by vm_compute |].
  replace (parent_get deep (Some "a"%string)) with (Some "b"%string) by (by vm_compute).
  apply depth_step; [by vm_compute |].
  replace (parent_get deep (Some "b"%string)) with (Some "c"%string) by (by vm_compute).
  apply depth_root. by vm_compute.
Defined.

(** C5 (as amended). [find] is written by recursion, not as a loop: on a
    key that is [n] parent links away from its root it nests [n + 1]
    activations, so it completes exactly when the call stack admits more
    than [n] of them. *)
Theorem find_recursion_depth (ds : DisjointSet) (x : value) (n stack : nat) :
  depth (parent_get ds) x n ->
  (is_Some (find stack ds x) <-> n < stack).
Proof.
  intros Hd. split.
  - intros [res Hres]. destruct (decide (n < stack)) as [? | Hge]; [done |].
    rewrite (find_depth_overflow ds x n Hd stack) in Hres by lia. done.
  - intros Hlt. destruct (find_depth_enough ds x n Hd stack Hlt) as [res ->]. eauto.
Qed.

Lemma find_recursion_depth_witness :
  depth (parent_get deep) (Some "a"%string) 2 /\
  (is_Some (find 3 deep (Some "a"%string)) <-> 2 < 3).
Proof.
  split; [exact deep_depth_a |].
  exact (find_recursion_depth deep (Some "a"%string) 2 3 deep_depth_a).
Defined.

(** C5, the claim as stated fails: in a state reached by three unions over
    four vertices, "a" heads a chain of two uncompressed parent links, and
    [find] on it exhausts a call stack of two activations. *)
Lemma find_recursion_overflows :
  reachable abcd deep /\
  depth (parent_get deep) (Some "a"%string) 2 /\
  find 2 deep (Some "a"%string) = None.
Proof.
  split_and!; [exact deep_reachable | exact deep_depth_a | by vm_compute].
Qed.

(** C7 (as amended). On every forest (every state the operations produce
    is one, [produced_forest]) and for every key [x], [union(x, x)]
    returns (given enough stack), returns false, leaves every rank as it
    was, and keeps the root of every key, hence the partition; the parent
    links it rewrites are those of path compression. And no self-loop edge
    is among the edges [kruskalMST] selects. *)
Theorem union_self (ds : DisjointSet) (x : value) (stack : nat)
    (ds' : DisjointSet) (b : bool) :
  is_forest ds ->
  union stack ds x x = Some (ds', b) ->
  (b = false /\
   rank ds' = rank ds /\
   compressed (parent_get ds) (parent_get ds') /\
   (forall y r, root_rel (parent_get ds') y r <-> root_rel (parent_get ds) y r)) /\
  (exists bound, forall stack0, bound < stack0 ->
     exists ds0, union stack0 ds x x = Some (ds0, false)) /\
  (forall stack' vertices edges res e,
     kruskalMST stack' vertices edges = Some res ->
     e ∈ mstEdges res -> u e <> v e).
Proof.
  intros Hfo Hu. pose proof Hfo as (H & h & Hr).
  assert (forall stack0 ds0 b0, union stack0 ds x x = Some (ds0, b0) ->
    b0 = false /\ rank ds0 = rank ds /\
    compressed (parent_get ds) (parent_get ds0) /\
    (forall y r, root_rel (parent_get ds0) y r <-> root_rel (parent_get ds) y r))
    as Hself.
  { intros stack0 ds0 b0 Hu0.
    destruct (union_result _ _ _ _ _ _ _ _ Hr Hu0)
      as (rx & ry & ds2 & Hrx & Hry & Hc & Hrk & Hcases).
    destruct Hcases as [(-> & _ & ->) | (_ & Hne & _)].
    - split_and!; [done | done | done |].
      intros y r. split.
      + eapply compressed_roots_inv; eauto.
      + eapply compressed_roots; eauto.
    - destruct Hne. eapply root_rel_fun; eauto. }
  split; [exact (Hself stack ds' b Hu) | split].
  - destruct (union_returns ds x x Hfo) as [bound Hret].
    exists bound. intros stack0 Hlt.
    destruct (Hret stack0 Hlt) as [[ds0 b0] Hu0].
    destruct (Hself _ _ _ Hu0) as [-> _]. eauto.
  - intros stack' vertices edges res e Hk He Heq.
    destruct (kruskalMST_result _ _ _ _ Hk) as [_ Hg].
    destruct (greedy_taken _ _ _ _ _ Hg e He) as [Hin | [_ Hne]].
    + by apply elem_of_nil in Hin.
    + apply Hne. unfold nsrc, ndst. by rewrite Heq.
Qed.

Lemma union_self_witness :
  is_forest deep /\
  union 3 deep (Some "a"%string) (Some "a"%string)
    = Some (parent_set deep (Some "a"%string) (Some "c"%string), false) /\
  rank (parent_set deep (Some "a"%string) (Some "c"%string)) = rank deep /\
  (forall y r,
     root_rel (parent_get (parent_set deep (Some "a"%string) (Some "c"%string))) y r
     <-> root_rel (parent_get deep) y r) /\
  (forall e, kruskalMST 3 ["A"%string] [edge_AA] = Some (mkResult [] (Num 0)) ->
             e ∈ @nil edge -> u e <> v e).
Proof.
  assert (is_forest deep) as Hf.
  { pose proof (reachable_regular _ _ deep_reachable) as [Hf _]. exact Hf. }
  assert (union 3 deep (Some "a"%string) (Some "a"%string)
    = Some (parent_set deep (Some "a"%string) (Some "c"%string), false)) as Hu
    by (by vm_compute).
  pose proof (union_self deep (Some "a"%string) 3 _ false Hf Hu)
    as ((_ & Hrk & _ & Hroots) & _ & Hloop).
  split_and!; [exact Hf | exact Hu | exact Hrk | exact Hroots |].
  intros e Hk. exact (Hloop 3 ["A"%string] [edge_AA] (mkResult [] (Num 0)) e Hk).
Defined.

(** C7, the claim as stated fails: in that same reachable state "a" hangs
    under "b"; [union(a, a)] returns false but leaves "a" hanging under the
    root "c", so the parent map is not what it was. *)
Lemma union_self_rewrites_parent :
  exists ds',
    reachable abcd deep /\
    union 3 deep (Some "a"%string) (Some "a"%string) = Some (ds', false) /\
    parent_get deep (Some "a"%string) = Some "b"%string /\
    parent_get ds' (Some "a"%string) = Some "c"%string /\
    parent ds' <> parent deep.
Proof.
  exists (parent_set deep (Some "a"%string) (Some "c"%string)).
  split_and!; [exact deep_reachable | by vm_compute | by vm_compute | by vm_compute |].
  intros Heq.
  assert (parent_get (parent_set deep (Some "a"%string) (Some "c"%string)) (Some "a"%string)
          = parent_get deep (Some "a"%string)) as Hp.
  { unfold parent_get. by rewrite Heq. }
  vm_compute in Hp. discriminate.
Qed.





(** C9. On every forest (every state the operations produce is one,
    [produced_forest]), the parent links [find] rewrites change no root:
    every key has the same root before and after, so the partition is the
    same; [find(x)] answers the root of [x], and after any further calls of
    [find] (on any keys, with no [union] in between) [find(x)] returns
    again, with that same root. *)
Theorem find_keeps_partition (ds : DisjointSet) (stack : nat) (x : value)
    (ds1 : DisjointSet) (r : value) :
  is_forest ds ->
  find stack ds x = Some (ds1, r) ->
  root_rel (parent_get ds) x r /\
  (forall y ry, root_rel (parent_get ds1) y ry <-> root_rel (parent_get ds) y ry) /\
  (forall y z, same_set (parent_get ds1) y z <-> same_set (parent_get ds) y z) /\
  (forall ds2, find_steps ds1 ds2 ->
     (exists bound, forall stack', bound < stack' ->
        exists ds3, find stack' ds2 x = Some (ds3, r)) /\
     (forall stack' ds3 r', find stack' ds2 x = Some (ds3, r') -> r' = r)).
Proof.
  intros Hfo Hf. pose proof Hfo as (H & h & Hr).
  destruct (find_result _ _ _ _ _ _ _ Hr Hf) as (Hroot & _ & Hc).
  assert (forall y ry, root_rel (parent_get ds1) y ry <-> root_rel (parent_get ds) y ry)
    as Hroots.
  { intros y ry. split.
    - eapply compressed_roots_inv; eauto.
    - eapply compressed_roots; eauto. }
  split_and!; [done | done | |].
  - intros y z. by eapply compressed_same_set.
  - intros ds2 Hsteps.
    destruct (find_steps_roots _ _ Hsteps (find_result_forest _ _ _ _ _ Hfo Hf))
      as [Hfo2 Hroots2].
    assert (forall stack' ds3 r', find stack' ds2 x = Some (ds3, r') -> r' = r)
      as Hsame.
    { intros stack' ds3 r' Hf'. pose proof Hfo2 as (H2 & h2 & Hr2).
      destruct (find_result _ _ _ _ _ _ _ Hr2 Hf') as (Hroot' & _ & _).
      apply Hroots2, Hroots in Hroot'. eapply root_rel_fun; eauto. }
    split; [| done].
    destruct (find_returns ds2 x Hfo2) as [bound Hret].
    exists bound. intros stack' Hlt.
    destruct (Hret stack' Hlt) as [[ds3 r'] Hf'].
    rewrite (Hsame _ _ _ Hf') in Hf'. eauto.
Qed.

Lemma find_keeps_partition_witness :
  is_forest deep /\
  find 3 deep (Some "a"%string)
    = Some (parent_set deep (Some "a"%string) (Some "c"%string), Some "c"%string) /\
  root_rel (parent_get deep) (Some "a"%string) (Some "c"%string) /\
  (forall ds2 stack' ds3 r',
     find_steps (parent_set deep (Some "a"%string) (Some "c"%string)) ds2 ->
     find stack' ds2 (Some "a"%string) = Some (ds3, r') -> r' = Some "c"%string).
Proof.
  assert (is_forest deep) as Hf.
  { pose proof (reachable_regular _ _ deep_reachable) as [Hf _]. exact Hf. }
  assert (find 3 deep (Some "a"%string)
    = Some (parent_set deep (Some "a"%string) (Some "c"%string), Some "c"%string)) as Hfind
    by (by vm_compute).
  pose proof (find_keeps_partition deep 3 (Some "a"%string) _ _ Hf Hfind)
    as (Hroot & _ & _ & Hagain).
  split_and!; [exact Hf | exact Hfind | exact Hroot |].
  intros ds2 stack' ds3 r' Hsteps. exact (proj2 (Hagain ds2 Hsteps) stack' ds3 r').
Defined.

(* ===================================================================== *)
(** ** Properties of [kruskalMST] *)
(* ===================================================================== *)

(** The run of [runDemo]: B-C, A-C, D-E and B-D are selected in this
    order, for a total of 10. *)
Example demo_run :
  kruskalMST 4 demo_vertices demo_edges
  = Some (mkResult
            [ mkEdge "B" "C" (Some (Num 1)); mkEdge "A" "C" (Some (Num 2));
              mkEdge "D" "E" (Some (Num 2)); mkEdge "B" "D" (Some (Num 5)) ]
            (Num 10)).
Proof. by vm_compute. Qed.

(** Three vertices and no edge: nothing is selected. *)
Example no_edges_run :
  kruskalMST 1 ["X"; "Y"; "Z"]%string [] = Some (mkResult [] (Num 0)).
Proof. by vm_compute. Qed.

(** A self-loop is rejected. *)
Example self_loop_run :
  kruskalMST 2 ["A"]%string [edge_AA] = Some (mkResult [] (Num 0)).
Proof. by vm_compute. Qed.

Lemma endpoints_in_keys (vertices : list string) (F : list edge) :
  endpoints_in vertices F ->
  forall e, e ∈ F ->
    nsrc vertices e = Some (u e) /\ ndst vertices e = Some (v e).
Proof.
  intros Hin e He. destruct (Hin e He) as [Hu Hv].
  unfold nsrc, ndst, nrm. by rewrite !decide_True.
Qed.

Lemma endpoints_in_sub (vertices : list string) (F G : list edge) :
  (forall e, e ∈ F -> e ∈ G) -> endpoints_in vertices G -> endpoints_in vertices F.
Proof. intros Hsub HG e He. auto. Qed.

Lemma greedy_in_input (vertices : list string) (edges out : list edge) :
  greedy (nsrc vertices) (ndst vertices) [] (js_sort by_weight edges) out ->
  forall e, e ∈ out -> e ∈ edges.
Proof.
  intros Hg e He. destruct (greedy_sub _ _ _ _ _ Hg) as (new & -> & Hsub).
  rewrite <- (js_sort_perm by_weight edges). eapply elem_of_sublist; eauto.
Qed.

(** C10. [kruskalMST] returns a result for every list of vertices and every
    list of edges, with empty lists, self-loops, repeated vertices and
    endpoints that were never registered included: one and the same result
    on every call stack that admits [length edges + 2] nested activations
    of [find], and never another one. *)
Theorem kruskalMST_total (vertices : list string) (edges : list edge) :
  exists res, kruskalMST_returns vertices edges res.
Proof.
  destruct (kruskalMST_returns_greedy vertices edges) as (res & Hret & _).
  by exists res.
Qed.

Lemma kruskalMST_total_witness :
  (exists res, kruskalMST_returns [] [] res) /\
  (exists res,
     kruskalMST_returns ["A"; "A"]%string [edge_AA; edge_XY; edge_AX] res).
Proof.
  split.
  - exact (kruskalMST_total [] []).
  - exact (kruskalMST_total ["A"; "A"]%string [edge_AA; edge_XY; edge_AX]).
Defined.

(** C4 (as amended). [kruskalMST] does not validate weights: on an input
    with an edge whose weight is missing or not-a-number it returns a
    result like on any other input, and if such an edge is among the
    selected ones the returned [totalCost] is [NaN]. *)
Theorem invalid_weight_returns (vertices : list string) (edges : list edge) :
  Exists invalid_weight edges ->
  exists res,
    kruskalMST_returns vertices edges res /\
    (Exists invalid_weight (mstEdges res) -> totalCost res = NaN).
Proof.
  intros _.
  destruct (kruskalMST_returns_greedy vertices edges) as (res & Hret & Ht & _).
  exists res. split; [done |]. intros Hbad. rewrite Ht.
  by apply add_weights_invalid.
Qed.

Lemma invalid_weight_returns_witness :
  Exists invalid_weight [edge_AB_missing] /\
  exists res,
    kruskalMST_returns ["A"; "B"]%string [edge_AB_missing] res /\
    (Exists invalid_weight (mstEdges res) -> totalCost res = NaN).
Proof.
  assert (Exists invalid_weight [edge_AB_missing]) as Hbad.
  { apply Exists_cons_hd. left. reflexivity. }
  split; [exact Hbad |].
  exact (invalid_weight_returns ["A"; "B"]%string [edge_AB_missing] Hbad).
Defined.

(** C4, the claim as stated fails: the edge A-B without a weight is
    selected and the call returns the total [NaN]; and there is no input
    with an invalid weight on which the call fails whatever the stack. *)
Lemma invalid_weight_never_fails :
  kruskalMST 3 ["A"; "B"]%string [edge_AB_missing]
    = Some (mkResult [edge_AB_missing] NaN) /\
  ~ (exists vertices edges,
       Exists invalid_weight edges /\
       forall stack, kruskalMST stack vertices edges = None).
Proof.
  split; [by vm_compute |].
  intros (vertices & edges & _ & Hfail).
  destruct (kruskalMST_greedy vertices edges (length edges + 2) ltac:(lia))
    as (res & Hres & _).
  by rewrite Hfail in Hres.
Qed.

(** C3 (as amended). A vertex that occurs only in edges is not registered
    as a set of its own: [find] stores [undefined] as its parent and
    answers [undefined], so all such vertices are in one set from the
    start. The edges selected are those of the greedy scan on the graph in
    which every absent endpoint is replaced by that one key; in particular
    an edge whose two endpoints are both absent is never selected. *)
Theorem absent_endpoints_share_root (vertices : list string) (edges : list edge) :
  (forall x, x ∉ vertices ->
     find 2 (new_DisjointSet vertices) (Some x)
     = Some (parent_set (new_DisjointSet vertices) (Some x) None, None)) /\
  (forall x y, x ∉ vertices -> y ∉ vertices ->
     same_set (parent_get (new_DisjointSet vertices)) (Some x) (Some y)) /\
  exists res,
    kruskalMST_returns vertices edges res /\
    greedy (nsrc vertices) (ndst vertices) [] (js_sort by_weight edges)
      (mstEdges res) /\
    (forall e, e ∈ mstEdges res -> u e ∈ vertices \/ v e ∈ vertices).
Proof.
  split_and!.
  - intros x Hx. simpl.
    rewrite !new_DisjointSet_parent. simpl.
    rewrite (decide_False (P := x ∈ vertices)) by done.
    rewrite decide_True by done. rewrite decide_False by (intros ?; done).
    by rewrite parent_get_set, decide_True.
  - intros x y Hx Hy. apply new_DisjointSet_same_set. simpl.
    by rewrite !decide_False.
  - destruct (kruskalMST_returns_greedy vertices edges) as (res & Hret & _ & Hg).
    exists res. split_and!; [done | done |].
    intros e He.
    destruct (greedy_taken _ _ _ _ _ Hg e He) as [Hin | [_ Hne]].
    { by apply elem_of_nil in Hin. }
    destruct (decide (u e ∈ vertices)) as [? | Hu]; [by left |].
    destruct (decide (v e ∈ vertices)) as [? | Hv]; [by right |].
    exfalso. apply Hne. unfold nsrc, ndst, nrm. by rewrite !decide_False.
Qed.

Lemma absent_endpoints_share_root_witness :
  ("X"%string ∉ ["A"%string]) /\
  find 2 (new_DisjointSet ["A"%string]) (Some "X"%string)
  = Some (parent_set (new_DisjointSet ["A"%string]) (Some "X"%string) None, None) /\
  exists res,
    kruskalMST_returns ["A"]%string [edge_XY; edge_AX] res /\
    (forall e, e ∈ mstEdges res -> u e ∈ ["A"]%string \/ v e ∈ ["A"]%string).
Proof.
  assert ("X"%string ∉ ["A"%string]) as Hx.
  { intros Hin. apply list_elem_of_singleton in Hin. discriminate. }
  pose proof (absent_endpoints_share_root ["A"]%string [edge_XY; edge_AX])
    as (Hfind & _ & res & Hret & _ & Hsel).
  split_and!; [exact Hx | exact (Hfind "X"%string Hx) |].
  exists res. split; [exact Hret | exact Hsel].
Defined.

(** C3, the claim as stated fails: the edge X-Y is rejected when neither X
    nor Y was declared, but selected when both were; the root [find] gives
    the undeclared X is [undefined], not X. *)
Lemma absent_vertex_not_registered :
  kruskalMST 3 [] [edge_XY] = Some (mkResult [] (Num 0)) /\
  kruskalMST 3 ["X"; "Y"]%string [edge_XY] = Some (mkResult [edge_XY] (Num 1)) /\
  (exists ds', find 2 (new_DisjointSet []) (Some "X"%string) = Some (ds', None)).
Proof.
  split_and!; [by vm_compute | by vm_compute |].
  eexists. by vm_compute.
Qed.

Lemma transversal_same_vertices {K : Type} (V V' : list K) (R : relation K)
    (reps : list K) :
  (forall x, x ∈ V <-> x ∈ V') -> transversal V R reps -> transversal V' R reps.
Proof.
  intros HV (Hnd & Hin & Hcov & Hsep). split_and!; [done | | | done].
  - intros r Hr. apply HV. auto.
  - intros x Hx. apply Hcov. by apply HV.
Qed.

Lemma transversal_same_relation {K : Type} (V : list K) (R R' : relation K)
    (reps : list K) :
  (forall a b, R a b <-> R' a b) -> transversal V R reps -> transversal V R' reps.
Proof.
  intros HR (Hnd & Hin & Hcov & Hsep). split_and!; [done | done | |].
  - intros x Hx. destruct (Hcov x Hx) as (r & Hr & Hxr). exists r.
    split; [done | by apply HR].
  - intros r r' Hr Hr' Hrr. apply Hsep; [done | done | by apply HR].
Qed.

(** The selected edges, seen on vertex names, when every endpoint is a
    registered vertex. *)
Lemma kruskalMST_graph (vertices : list string) (edges : list edge) (res : result) :
  endpoints_in vertices edges ->
  greedy (nsrc vertices) (ndst vertices) [] (js_sort by_weight edges)
    (mstEdges res) ->
  endpoints_in vertices (mstEdges res) /\
  forest_rec u v (mstEdges res) /\
  (forall a b, connected (mstEdges res) a b <-> connected edges a b).
Proof.
  intros Hin Hg.
  assert (endpoints_in vertices (mstEdges res)) as Hin'.
  { eapply endpoints_in_sub; [| exact Hin]. by eapply greedy_in_input. }
  pose proof (endpoints_in_keys _ _ Hin) as Hkeys.
  pose proof (endpoints_in_keys _ _ Hin') as Hkeys'.
  split_and!; [done | |].
  - apply (forest_rec_inj Some u v (nsrc vertices) (ndst vertices)); [done |].
    by apply (greedy_forest _ _ _ _ _ Hg).
  - intros a b. unfold connected.
    rewrite <- (conn_inj Some u v (nsrc vertices) (ndst vertices) _ a b Hkeys').
    rewrite <- (conn_inj Some u v (nsrc vertices) (ndst vertices) _ a b Hkeys).
    rewrite (greedy_conn _ _ _ _ Hg).
    apply conn_same_edges. intros e. by rewrite js_sort_perm.
Qed.

(** C2 (as amended). When every endpoint of every edge is among the
    vertices, [kruskalMST] returns (it is not an error for the graph to be
    disconnected), the selected edges are acyclic, they connect exactly the
    vertices the input edges connect, and their number plus the number of
    connected components of the input graph is the number of distinct
    vertices. *)
Theorem kruskalMST_spanning_forest (vertices : list string) (edges : list edge) :
  endpoints_in vertices edges ->
  exists res,
    kruskalMST_returns vertices edges res /\
    is_acyclic (mstEdges res) /\
    (forall a b, connected (mstEdges res) a b <-> connected edges a b) /\
    (exists n, components vertices edges n) /\
    (forall n, components vertices edges n ->
       length (mstEdges res) + n = length (remove_dups vertices)).
Proof.
  intros Hin.
  destruct (kruskalMST_returns_greedy vertices edges) as (res & Hret & _ & Hg).
  destruct (kruskalMST_graph vertices edges res Hin Hg) as (Hin' & Hfo & Hconn).
  exists res. split; [done |]. split; [by apply forest_rec_acyclic |].
  split; [done |].
  destruct (forest_count u v (remove_dups vertices) (mstEdges res))
    as (reps & Htr & Hlen); [apply NoDup_remove_dups | done | |].
  { intros e He. rewrite !elem_of_remove_dups. by apply Hin'. }
  assert (transversal vertices (connected edges) reps) as Htr'.
  { apply (transversal_same_relation _ (conn u v (mstEdges res))); [exact Hconn |].
    apply (transversal_same_vertices (remove_dups vertices)); [| done].
    intros x. apply elem_of_remove_dups. }
  split; [exists (length reps), reps; done |].
  intros n (reps' & Htr'' & <-).
  rewrite <- Hlen. f_equal.
  apply (transversal_length vertices (connected edges) (connected edges));
    [apply _ | apply _ | done | done | done].
Qed.

Lemma demo_endpoints : endpoints_in demo_vertices demo_edges.
Proof.
  intros e He. unfold demo_edges in He.
  repeat (apply elem_of_cons in He as [-> | He]; [split; simpl; in_list |]).
  by apply elem_of_nil in He.
Defined.

Lemma demo_numeric : Forall numeric demo_edges.
Proof.
  unfold demo_edges. repeat (apply Forall_cons; split; [eexists; reflexivity |]).
  apply Forall_nil_2.
Defined.

Lemma kruskalMST_spanning_forest_witness :
  endpoints_in demo_vertices demo_edges /\
  exists res,
    kruskalMST_returns demo_vertices demo_edges res /\
    is_acyclic (mstEdges res) /\
    (forall a b, connected (mstEdges res) a b <-> connected demo_edges a b) /\
    (exists n, components demo_vertices demo_edges n) /\
    (forall n, components demo_vertices demo_edges n ->
       length (mstEdges res) + n = length (remove_dups demo_vertices)).
Proof.
  split; [exact demo_endpoints |].
  exact (kruskalMST_spanning_forest demo_vertices demo_edges demo_endpoints).
Defined.

(** C2, the claim as stated fails: with the single vertex A and the edges
    X-Y and A-X, whose endpoints X and Y are not vertices, exactly one edge
    is selected. The graph on the vertex A has one component, which would
    give 1 - 1 = 0 edges; the graph on A, X and Y has one component too,
    which would give 3 - 1 = 2. *)
Lemma unregistered_endpoint_breaks_count :
  kruskalMST 4 ["A"]%string [edge_XY; edge_AX]
    = Some (mkResult [edge_AX] (Num 1)) /\
  components ["A"]%string [edge_XY; edge_AX] 1 /\
  components ["A"; "X"; "Y"]%string [edge_XY; edge_AX] 1 /\
  length [edge_AX] <> 1 - 1 /\
  length [edge_AX] <> 3 - 1.
Proof.
  assert (connected [edge_XY; edge_AX] "A"%string "X"%string) as HAX.
  { apply (conn_edge u v [edge_XY; edge_AX] edge_AX). in_list. }
  assert (connected [edge_XY; edge_AX] "X"%string "Y"%string) as HXY.
  { apply (conn_edge u v [edge_XY; edge_AX] edge_XY). in_list. }
  assert (forall V : list string, "A"%string ∈ V ->
            (forall x, x ∈ V -> connected [edge_XY; edge_AX] x "A"%string) ->
            components V [edge_XY; edge_AX] 1) as Hone.
  { intros V HA Hall. exists ["A"%string]. split; [| done]. split_and!.
    - apply NoDup_singleton.
    - intros r Hr. apply list_elem_of_singleton in Hr. by subst r.
    - intros x Hx. exists "A"%string. split; [in_list | auto].
    - intros r r' Hr Hr' _. apply list_elem_of_singleton in Hr, Hr'. congruence. }
  split_and!; [by vm_compute | | | by vm_compute | by vm_compute].
  - apply Hone; [in_list |]. intros x Hx.
    apply list_elem_of_singleton in Hx. subst x. apply conn_refl.
  - apply Hone; [in_list |]. intros x Hx.
    repeat (apply elem_of_cons in Hx as [-> | Hx]).
    + apply conn_refl.
    + by apply conn_sym.
    + apply conn_sym. by eapply conn_trans.
    + by apply elem_of_nil in Hx.
Qed.

Lemma abs_weights_sublist (l k : list edge) :
  sublist l k ->
  (sumZ ((fun e => Z.abs (wt e)) <$> l) <= sumZ ((fun e => Z.abs (wt e)) <$> k))%Z.
Proof.
  unfold sumZ. induction 1 as [| e l k _ IH | e l k _ IH]; csimpl in *; lia.
Qed.

Lemma cost_abs_le (l : list edge) :
  (Z.abs (cost l) <= sumZ ((fun e => Z.abs (wt e)) <$> l))%Z.
Proof.
  unfold cost, sumZ. induction l as [| e l IH]; csimpl in *; lia.
Qed.

(** C1. When every endpoint is among the vertices and every weight is a
    number, [kruskalMST] returns and the selected edges are a cheapest
    spanning forest of the input: they are input edges, acyclic, they
    connect exactly the vertices the input edges connect, and no acyclic
    set of input edges that connects the same vertices costs less. When
    moreover the absolute values of the weights add up to at most 2^53
    (so that the program's additions are exact), every running total of
    the loop stays within 2^53 and the [totalCost] returned is the sum of
    the weights of the selected edges, hence that minimal cost. *)
Theorem kruskalMST_minimal (vertices : list string) (edges : list edge) :
  endpoints_in vertices edges ->
  Forall numeric edges ->
  exists res,
    kruskalMST_returns vertices edges res /\
    (forall e, e ∈ mstEdges res -> e ∈ edges) /\
    is_acyclic (mstEdges res) /\
    (forall a b, connected (mstEdges res) a b <-> connected edges a b) /\
    (forall F' : list edge,
       (forall e, e ∈ F' -> e ∈ edges) ->
       is_acyclic F' ->
       (forall a b, connected F' a b <-> connected (mstEdges res) a b) ->
       (cost (mstEdges res) <= cost F')%Z) /\
    (safe_weights edges ->
     (forall l, l `prefix_of` mstEdges res ->
        add_weights (Num 0) l = Num (cost l) /\
        (Z.abs (cost l) <= 2 ^ 53)%Z) /\
     totalCost res = Num (cost (mstEdges res))).
Proof.
  intros Hin Hnum.
  destruct (kruskalMST_returns_greedy vertices edges) as (res & Hret & Ht & Hg).
  destruct (kruskalMST_graph vertices edges res Hin Hg) as (Hin' & Hfo & Hconn).
  pose proof (greedy_in_input _ _ _ Hg) as Hsel.
  assert (Forall numeric (mstEdges res)) as Hnum'.
  { rewrite Forall_forall in Hnum |- *. intros e He. by apply Hnum, Hsel. }
  exists res. split_and!; [done | done | by apply forest_rec_acyclic | done | |].
  - intros F' Hsub Hac Hsame. unfold cost.
    assert (endpoints_in vertices F') as HinF by (by eapply endpoints_in_sub).
    pose proof (endpoints_in_keys _ _ HinF) as HkeysF.
    pose proof (endpoints_in_keys _ _ Hin') as Hkeys'.
    apply (greedy_optimal (nsrc vertices) (ndst vertices) wt
             (js_sort by_weight edges)); [done | | | |].
    + by apply js_sort_sorted.
    + intros e He. rewrite js_sort_perm. auto.
    + apply (forest_rec_inj Some u v (nsrc vertices) (ndst vertices)); [done |].
      by apply forest_rec_acyclic.
    + apply conn_incl. intros e He.
      destruct (Hkeys' e He) as [-> ->].
      apply (conn_inj_fwd Some u v); [done |].
      apply Hsame. by apply conn_edge.
  - intros Hsafe. split.
    + intros l [k Hk]. split.
      * rewrite add_weights_numeric; [done |].
        rewrite Hk in Hnum'. by apply Forall_app in Hnum' as [? _].
      * etrans; [apply cost_abs_le |]. etrans; [| exact Hsafe].
        destruct (greedy_sub _ _ _ _ _ Hg) as (new & Hnew & Hsub).
        simpl in Hnew. subst new.
        rewrite <- (sumZ_perm _ _ (fmap_Permutation _ _ _ (js_sort_perm by_weight edges))).
        apply abs_weights_sublist. etrans; [| exact Hsub].
        rewrite Hk. by apply sublist_inserts_r.
    + rewrite Ht. by rewrite add_weights_numeric.
Qed.

Lemma demo_safe_weights : safe_weights demo_edges.
Proof. unfold safe_weights. vm_compute. discriminate. Qed.

Lemma kruskalMST_minimal_witness :
  endpoints_in demo_vertices demo_edges /\
  Forall numeric demo_edges /\
  safe_weights demo_edges /\
  exists res,
    kruskalMST_returns demo_vertices demo_edges res /\
    (forall a b, connected (mstEdges res) a b <-> connected demo_edges a b) /\
    totalCost res = Num (cost (mstEdges res)) /\
    forall F' : list edge,
      (forall e, e ∈ F' -> e ∈ demo_edges) ->
      is_acyclic F' ->
      (forall a b, connected F' a b <-> connected (mstEdges res) a b) ->
      (cost (mstEdges res) <= cost F')%Z.
Proof.
  split_and!; [exact demo_endpoints | exact demo_numeric | exact demo_safe_weights |].
  destruct (kruskalMST_minimal demo_vertices demo_edges demo_endpoints demo_numeric)
    as (res & Hret & _ & _ & Hconn & Hmin & Hsafe).
  exists res. split_and!; [exact Hret | exact Hconn | | exact Hmin].
  exact (proj2 (Hsafe demo_safe_weights)).
Defined.

(** C6. On numeric weights the list [kruskalMST] scans is the input in
    ascending order of weight with the edges of equal weight in their input
    order, and it is the only list with these two properties: whatever
    stable sort produced it, the scan, and so the selected edges, are the
    same. *)
Theorem kruskalMST_stable_order (vertices : list string) (edges : list edge)
    (stack : nat) :
  Forall numeric edges ->
  kruskalMST stack vertices edges
    = scan stack (new_DisjointSet vertices) [] (Num 0) (js_sort by_weight edges) /\
  js_sort by_weight edges ≡ₚ edges /\
  StronglySorted (fun a b => (wt a <= wt b)%Z) (js_sort by_weight edges) /\
  (forall z, filter (fun e => wt e = z) (js_sort by_weight edges)
             = filter (fun e => wt e = z) edges) /\
  (forall sorted : list edge,
     StronglySorted (fun a b => (wt a <= wt b)%Z) sorted ->
     (forall z, filter (fun e => wt e = z) sorted
                = filter (fun e => wt e = z) edges) ->
     scan stack (new_DisjointSet vertices) [] (Num 0) sorted
     = kruskalMST stack vertices edges).
Proof.
  intros Hnum. split_and!; [done | apply js_sort_perm | by apply js_sort_sorted
                            | intros z; by apply js_sort_stable |].
  intros sorted Hs Hst. unfold kruskalMST.
  rewrite (stable_sort_unique sorted (js_sort by_weight edges)); [done | done | |].
  - by apply js_sort_sorted.
  - intros z. rewrite Hst. symmetry. by apply js_sort_stable.
Qed.

Lemma kruskalMST_stable_order_witness :
  Forall numeric demo_edges /\
  js_sort by_weight demo_edges ≡ₚ demo_edges /\
  (forall z, filter (fun e => wt e = z) (js_sort by_weight demo_edges)
             = filter (fun e => wt e = z) demo_edges).
Proof.
  pose proof (kruskalMST_stable_order demo_vertices demo_edges 9 demo_numeric)
    as (_ & Hperm & _ & Hst & _).
  split_and!; [exact demo_numeric | exact Hperm | exact Hst].
Defined.


(* ===================================================================== *)
(** ** Further properties of the forest *)
(* ===================================================================== *)

Lemma new_DisjointSet_entries_fold (V : list string) :
  forall ds (k : value),
  let ds' := fold_left
    (fun ds e => rank_set (parent_set ds (Some e) (Some e)) (Some e) (Num 0))
    V ds in
  parent ds' !! k
    = match k with
      | Some s => if decide (s ∈ V) then Some (Some s) else parent ds !! k
      | None => parent ds !! k
      end /\
  rank ds' !! k
    = match k with
      | Some s => if decide (s ∈ V) then Some (Num 0) else rank ds !! k
      | None => rank ds !! k
      end.
Proof.
  induction V as [| e V IH]; intros ds k; cbn zeta; cbn [fold_left].
  - destruct k as [s |]; [| done].
    rewrite !decide_False by apply not_elem_of_nil. done.
  - destruct (IH (rank_set (parent_set ds (Some e) (Some e)) (Some e) (Num 0)) k)
      as [-> ->].
    unfold rank_set, parent_set; simpl.
    destruct k as [s |].
    + destruct (decide (s ∈ V)) as [Hs | Hs].
      * rewrite !decide_True by (by apply elem_of_cons; right). done.
      * destruct (decide (e = s)) as [-> | Hne].
        -- rewrite !decide_True by (by apply elem_of_cons; left).
           by rewrite !lookup_insert_eq.
        -- rewrite !lookup_insert_ne by congruence.
           rewrite !decide_False; [done | |];
             intros [-> | ?]%elem_of_cons; done.
    + by rewrite !lookup_insert_ne by done.
Qed.

(** X1. The constructor gives every element, and nothing else, an entry:
    the element is its own parent and has rank 0. The forest therefore
    depends only on which elements occur, not on their order or on
    repetitions. *)
Theorem constructor_entries (elements : list string) :
  (forall k : value,
     parent (new_DisjointSet elements) !! k
     = match k with
       | Some s => if decide (s ∈ elements) then Some (Some s) else None
       | None => None
       end /\
     rank (new_DisjointSet elements) !! k
     = match k with
       | Some s => if decide (s ∈ elements) then Some (Num 0) else None
       | None => None
       end) /\
  (forall elements' : list string,
     (forall x, x ∈ elements' <-> x ∈ elements) ->
     new_DisjointSet elements' = new_DisjointSet elements).
Proof.
  assert (forall V (k : value),
    parent (new_DisjointSet V) !! k
     = match k with
       | Some s => if decide (s ∈ V) then Some (Some s) else None
       | None => None
       end /\
    rank (new_DisjointSet V) !! k
     = match k with
       | Some s => if decide (s ∈ V) then Some (Num 0) else None
       | None => None
       end) as Hent.
  { intros V k. unfold new_DisjointSet.
    destruct (new_DisjointSet_entries_fold V (mkDS ∅ ∅) k) as [-> ->]. simpl.
    destruct k as [s |]; [| done]. by case_decide. }
  split; [apply Hent |].
  intros elements' Hsame.
  assert (forall k : value,
    parent (new_DisjointSet elements') !! k = parent (new_DisjointSet elements) !! k /\
    rank (new_DisjointSet elements') !! k = rank (new_DisjointSet elements) !! k) as Heq.
  { intros k. destruct (Hent elements' k) as [-> ->], (Hent elements k) as [-> ->].
    destruct k as [s |]; [| done].
    destruct (decide (s ∈ elements')) as [Hs | Hs].
    - rewrite !decide_True by (by apply Hsame). done.
    - rewrite !decide_False; [done | |]; by rewrite <- Hsame. }
  destruct (new_DisjointSet elements') as [p1 r1] eqn:E1.
  destruct (new_DisjointSet elements) as [p2 r2] eqn:E2. simpl in Heq.
  f_equal; apply map_eq; intros k; apply Heq.
Qed.

(** X2. On every forest, [union(x, y)] answers false exactly when [x] and
    [y] were already in the same set; afterwards the parent map is still a
    forest, [x] and [y] are in the same set, and two keys are in the same
    set exactly when they were before or when one was with [x] and the
    other with [y]: the two sets are merged and no other set is touched. *)
Theorem union_merges (ds : DisjointSet) (x y : value) (stack : nat)
    (ds' : DisjointSet) (b : bool) :
  is_forest ds ->
  union stack ds x y = Some (ds', b) ->
  is_forest ds' /\
  (b = false <-> same_set (parent_get ds) x y) /\
  same_set (parent_get ds') x y /\
  (forall z w,
     same_set (parent_get ds') z w <->
       same_set (parent_get ds) z w \/
       (same_set (parent_get ds) z x /\ same_set (parent_get ds) y w) \/
       (same_set (parent_get ds) z y /\ same_set (parent_get ds) x w)).
Proof.
  intros Hfo Hu. pose proof Hfo as (H & h & Hr).
  destruct (union_partition (stack + H + 1) ds x y H h Hr ltac:(lia))
    as (ds0 & b0 & h' & Hu0 & Hr' & Hb & Hfalse & Htrue).
  rewrite (union_stack_mono stack (stack + H + 1) ds x y _ ltac:(lia) Hu) in Hu0.
  injection Hu0 as <- <-.
  assert (forall z w,
     same_set (parent_get ds') z w <->
       same_set (parent_get ds) z w \/
       (same_set (parent_get ds) z x /\ same_set (parent_get ds) y w) \/
       (same_set (parent_get ds) z y /\ same_set (parent_get ds) x w)) as Hpart.
  { intros z w. destruct b.
    - by apply Htrue.
    - rewrite (Hfalse eq_refl z w).
      assert (same_set (parent_get ds) x y) as Hxy by (by apply Hb).
      split; [by left |].
      intros [? | [[Hz Hw] | [Hz Hw]]]; [done | |].
      + eapply same_set_trans; [exact Hz |]. eapply same_set_trans; eauto.
      + eapply same_set_trans; [exact Hz |].
        eapply same_set_trans; [apply same_set_sym; exact Hxy | exact Hw]. }
  split_and!; [by eexists _, h' | done | | done].
  apply Hpart. right; left.
  split; eapply same_set_refl; eauto.
Qed.

Lemma union_merges_witness :
  is_forest deep2 /\
  union 3 deep2 (Some "c"%string) (Some "b"%string) = Some (deep, true) /\
  same_set (parent_get deep) (Some "c"%string) (Some "b"%string) /\
  (true = false <-> same_set (parent_get deep2) (Some "c"%string) (Some "b"%string)).
Proof.
  assert (is_forest deep2) as Hf.
  { apply (union_result_forest 3 deep1 (Some "c"%string) (Some "d"%string) deep2 true);
      [| by vm_compute].
    apply (union_result_forest 3 (new_DisjointSet abcd) (Some "b"%string)
             (Some "a"%string) deep1 true); [| by vm_compute].
    apply new_DisjointSet_forest. }
  assert (union 3 deep2 (Some "c"%string) (Some "b"%string) = Some (deep, true)) as Hu
    by (by vm_compute).
  pose proof (union_merges deep2 (Some "c"%string) (Some "b"%string) 3 deep true Hf Hu)
    as (_ & Hb & Hsame & _).
  split_and!; [exact Hf | exact Hu | exact Hsame | exact Hb].
Defined.

(** X3. Path compression is complete: when [find(x)] returns the root
    [r], every key on the chain of parents from [x] up to the root has [r]
    as its parent afterwards, every other key keeps the parent it had, and
    no rank is written. *)
Theorem find_compresses_path (stack : nat) (ds : DisjointSet) (x : value)
    (ds' : DisjointSet) (r : value) :
  find stack ds x = Some (ds', r) ->
  on_path (parent_get ds) x r /\
  parent_get ds r = r /\
  rank ds' = rank ds /\
  (forall y, on_path (parent_get ds) x y -> parent_get ds' y = r) /\
  (forall y, ~ on_path (parent_get ds) x y -> parent_get ds' y = parent_get ds y).
Proof.
  revert x ds' r. induction stack as [| stack IH]; intros x ds' r; [done |].
  simpl. case_decide as Hx.
  - destruct (find stack ds (parent_get ds x)) as [[ds1 r1] |] eqn:Hrec; [| done].
    intros [= <- <-]. rewrite parent_get_set, decide_True by done.
    destruct (IH _ _ _ Hrec) as (Hpath & Hroot & Hrk & Hon & Hoff).
    split_and!; [by apply on_path_up | done | done | |].
    + intros y Hy. rewrite parent_get_set. case_decide; [done |].
      apply Hon. inversion Hy; subst; [done | done].
    + intros y Hy. rewrite parent_get_set.
      rewrite decide_False by (intros ->; apply Hy; constructor).
      apply Hoff. intros Hy'. apply Hy. by apply on_path_up.
  - intros [= <- <-].
    assert (parent_get ds x = x) as Hroot by (by destruct (decide (parent_get ds x = x))).
    rewrite Hroot. split_and!; [constructor | done | done | | done].
    intros y Hy. inversion Hy; subst; [done | congruence].
Qed.

Lemma find_compresses_path_witness :
  find 3 deep (Some "a"%string)
    = Some (parent_set deep (Some "a"%string) (Some "c"%string), Some "c"%string) /\
  on_path (parent_get deep) (Some "a"%string) (Some "c"%string) /\
  (forall y, on_path (parent_get deep) (Some "a"%string) y ->
     parent_get (parent_set deep (Some "a"%string) (Some "c"%string)) y
     = Some "c"%string).
Proof.
  assert (find 3 deep (Some "a"%string)
    = Some (parent_set deep (Some "a"%string) (Some "c"%string), Some "c"%string)) as Hf
    by (by vm_compute).
  pose proof (find_compresses_path 3 deep (Some "a"%string) _ _ Hf)
    as (Hpath & _ & _ & Hon & _).
  split_and!; [exact Hf | exact Hpath | exact Hon].
Defined.

Section Balance.
Implicit Types (ds : DisjointSet) (elements : list string).

Lemma rank_along_root elements ds x r :
  regular elements ds -> balanced elements ds -> x ∈ elements ->
  root_rel (parent_get ds) (Some x) r ->
  exists n, depth (parent_get ds) (Some x) n /\
            n + rank_nat ds (Some x) <= rank_nat ds r.
Proof.
  intros (_ & Hcl & _) [Hb1 _] Hx Hroot.
  remember (Some x) as k eqn:Hk. revert x Hx Hk.
  induction Hroot as [k Hself | k r Hne _ IH]; intros x Hx ->.
  - exists 0. split; [by constructor | lia].
  - destruct (Hcl x Hx) as (y & Hy & Hp).
    assert (y <> x) as Hyx by congruence.
    pose proof (Hb1 x y Hx Hp Hyx) as Hlt.
    rewrite Hp in IH. destruct (IH y Hy eq_refl) as (n & Hd & Hle).
    exists (S n). split; [| lia].
    apply depth_step; [done |]. by rewrite Hp.
Qed.

Lemma rank_nat_ext ds ds' k : rank ds' = rank ds -> rank_nat ds' k = rank_nat ds k.
Proof. intros Hrk. unfold rank_nat, rank_get. by rewrite Hrk. Qed.

Lemma balanced_compressed elements ds ds' :
  regular elements ds -> balanced elements ds ->
  compressed (parent_get ds) (parent_get ds') -> rank ds' = rank ds ->
  balanced elements ds'.
Proof.
  intros Hreg Hbal Hc Hrk. pose proof Hreg as ((H & h & Hr) & Hcl & _).
  pose proof Hbal as [Hb1 Hb2]. split.
  - intros x y Hx Hp Hyx. rewrite !(rank_nat_ext ds ds') by done.
    destruct (Hc (Some x)) as [He | Hroot].
    + rewrite He in Hp. by apply Hb1.
    + rewrite Hp in Hroot.
      destruct (rank_along_root _ _ _ _ Hreg Hbal Hx Hroot) as (n & Hd & Hle).
      destruct n as [| n]; [| lia].
      inversion Hd as [k Hself |]; subst.
      inversion Hroot; subst; congruence.
  - intros r Hin Hp.
    assert (parent_get ds (Some r) = Some r) as Hp0.
    { destruct (Hc (Some r)) as [He | Hroot]; [congruence |].
      rewrite Hp in Hroot. by apply root_rel_is_root in Hroot. }
    destruct (Hb2 r Hin Hp0) as (l & Hnd & Hmem & Hsize).
    exists l. split_and!; [done | |].
    + intros x Hxl. destruct (Hmem x Hxl) as [? Hroot]. split; [done |].
      eapply compressed_roots; eauto.
    + by rewrite (rank_nat_ext ds ds').
Qed.

Lemma balanced_link elements ds2 d (xa xc : string) :
  regular elements ds2 -> balanced elements ds2 ->
  xa ∈ elements -> xc ∈ elements -> xa <> xc ->
  parent_get ds2 (Some xa) = Some xa ->
  parent_get ds2 (Some xc) = Some xc ->
  (forall k, parent_get d k
             = if decide (Some xa = k) then Some xc else parent_get ds2 k) ->
  (forall k, k <> Some xc -> rank_nat d k = rank_nat ds2 k) ->
  rank_nat ds2 (Some xc) <= rank_nat d (Some xc) ->
  rank_nat ds2 (Some xa) < rank_nat d (Some xc) ->
  2 ^ rank_nat d (Some xc) <= 2 ^ rank_nat ds2 (Some xc) + 2 ^ rank_nat ds2 (Some xa) ->
  balanced elements d.
Proof.
  intros Hreg [Hb1 Hb2] Ha Hc Hac Hra Hrc Hd Hrk Hle Hlt Hpow.
  assert (Some xa <> Some xc) as Hac' by congruence.
  pose proof (link_roots (parent_get ds2) (parent_get d) (Some xa) (Some xc)
                Hra Hrc Hac' Hd) as Hlink.
  split.
  - intros x y Hx Hp Hyx. rewrite Hd in Hp.
    destruct (decide (Some xa = Some x)) as [[= <-] | Hne].
    + injection Hp as <-. rewrite (Hrk (Some xa)) by done. done.
    + assert (x <> xc) as Hxc by (intros ->; congruence).
      rewrite (Hrk (Some x)) by congruence.
      pose proof (Hb1 x y Hx Hp Hyx) as Hlt'.
      destruct (decide (y = xc)) as [-> | Hyc]; [lia |].
      rewrite (Hrk (Some y)) by congruence. done.
  - intros r Hin Hp. rewrite Hd in Hp.
    destruct (decide (Some xa = Some r)) as [[= <-] | Hne]; [congruence |].
    destruct (decide (r = xc)) as [-> | Hrc'].
    + destruct (Hb2 xc Hc Hrc) as (lc & Hndc & Hmemc & Hsizec).
      destruct (Hb2 xa Ha Hra) as (la & Hnda & Hmema & Hsizea).
      exists (lc ++ la). split_and!.
      * apply NoDup_app. split_and!; [done | | done].
        intros x Hxc Hxa.
        destruct (Hmemc x Hxc) as [_ H1], (Hmema x Hxa) as [_ H2].
        pose proof (root_rel_fun _ _ _ _ H1 H2). congruence.
      * intros x [Hxl | Hxl]%elem_of_app.
        -- destruct (Hmemc x Hxl) as [? Hroot]. split; [done |].
           pose proof (Hlink _ _ Hroot) as Hr'. by rewrite decide_False in Hr' by congruence.
        -- destruct (Hmema x Hxl) as [? Hroot]. split; [done |].
           pose proof (Hlink _ _ Hroot) as Hr'. by rewrite decide_True in Hr' by done.
      * rewrite length_app. lia.
    + destruct (Hb2 r Hin Hp) as (l & Hnd & Hmem & Hsize).
      exists l. split_and!; [done | |].
      * intros x Hxl. destruct (Hmem x Hxl) as [? Hroot]. split; [done |].
        pose proof (Hlink _ _ Hroot) as Hr'. by rewrite decide_False in Hr' by congruence.
      * rewrite (Hrk (Some r)) by congruence. done.
Qed.

Lemma new_DisjointSet_balanced elements : balanced elements (new_DisjointSet elements).
Proof.
  split.
  - intros x y Hx Hp Hyx. rewrite new_DisjointSet_parent in Hp. simpl in Hp.
    rewrite decide_True in Hp by done. congruence.
  - intros r Hin _. exists [r]. split_and!.
    + apply NoDup_singleton.
    + intros x ->%list_elem_of_singleton. split; [done |].
      apply root_self. rewrite new_DisjointSet_parent. simpl. by rewrite decide_True.
    + unfold rank_nat. rewrite new_DisjointSet_rank, decide_True by done. simpl. lia.
Qed.

Lemma reachable_balanced elements ds :
  reachable elements ds -> balanced elements ds.
Proof.
  induction 1 as [| ds stack x ds' r Hreach IH Hx Hf
                   | ds stack x y ds' b Hreach IH Hx Hy Hu].
  - apply new_DisjointSet_balanced.
  - pose proof (reachable_regular _ _ Hreach) as Hreg.
    pose proof Hreg as ((H & h & Hr) & _).
    destruct (find_result _ _ _ _ _ _ _ Hr Hf) as (_ & Hrk & Hc).
    eapply balanced_compressed; eauto.
  - pose proof (reachable_regular _ _ Hreach) as Hreg.
    pose proof Hreg as ((H & h & Hr) & _ & Hrank).
    destruct (union_result _ _ _ _ _ _ _ _ Hr Hu)
      as (rx & ry & ds2 & Hrx & Hry & Hc & Hrk & Hcases).
    pose proof (regular_compressed _ _ _ Hreg Hc Hrk) as Hreg2.
    pose proof (balanced_compressed _ _ _ Hreg IH Hc Hrk) as Hbal2.
    destruct (regular_root _ _ _ _ Hreg Hx Hrx) as (x' & Hx' & ->).
    destruct (regular_root _ _ _ _ Hreg Hy Hry) as (y' & Hy' & ->).
    pose proof (compressed_roots _ _ _ _ Hr Hc _ _ Hrx) as Hrx2.
    pose proof (compressed_roots _ _ _ _ Hr Hc _ _ Hry) as Hry2.
    apply root_rel_is_root in Hrx2, Hry2.
    destruct (Hrank x' Hx') as (n & Hn & Hnpos).
    destruct (Hrank y' Hy') as (m & Hm & Hmpos).
    assert (rank_nat ds2 (Some x') = Z.to_nat n) as Hnx.
    { rewrite (rank_nat_ext ds ds2) by done. unfold rank_nat. by rewrite Hn. }
    assert (rank_nat ds2 (Some y') = Z.to_nat m) as Hny.
    { rewrite (rank_nat_ext ds ds2) by done. unfold rank_nat. by rewrite Hm. }
    destruct Hcases as [(_ & _ & ->) | (_ & Hne & Hcases)]; [done |].
    assert (x' <> y') as Hxy by congruence.
    unfold js_gt, js_lt in Hcases. rewrite Hn, Hm in Hcases. simpl in Hcases.
    assert (forall a c k, rank_nat (parent_set ds2 a c) k = rank_nat ds2 k) as Hps
      by done.
    destruct Hcases as [(Hlt & ->) | [(Hlt & Hgt & ->) | (Hlt & Hgt & ->)]].
    + apply bool_decide_eq_true in Hlt.
      apply (balanced_link elements ds2 _ x' y' Hreg2 Hbal2 Hx' Hy' Hxy Hrx2 Hry2).
      * apply parent_get_set.
      * intros k _. apply Hps.
      * by rewrite Hps.
      * rewrite Hps, Hnx, Hny. lia.
      * rewrite Hps. lia.
    + apply bool_decide_eq_true in Hgt.
      apply (balanced_link elements ds2 _ y' x' Hreg2 Hbal2 Hy' Hx'
               ltac:(congruence) Hry2 Hrx2).
      * apply parent_get_set.
      * intros k _. apply Hps.
      * by rewrite Hps.
      * rewrite Hps, Hnx, Hny. lia.
      * rewrite Hps. lia.
    + apply bool_decide_eq_false in Hlt, Hgt.
      assert (n = m) as <- by lia.
      assert (forall w, rank_nat (rank_set (parent_set ds2 (Some y') (Some x')) (Some x')
                          (js_add (Some (Num n)) w)) (Some x')
              = match js_add (Some (Num n)) w with Num z => Z.to_nat z | NaN => 0 end)
        as Hnew.
      { intros w. unfold rank_nat. by rewrite rank_get_set, decide_True by done. }
      apply (balanced_link elements ds2 _ y' x' Hreg2 Hbal2 Hy' Hx'
               ltac:(congruence) Hry2 Hrx2).
      * intros k. rewrite parent_get_rank_set. apply parent_get_set.
      * intros k Hk. unfold rank_nat.
        rewrite rank_get_set, rank_get_parent_set. by rewrite decide_False.
      * rewrite Hnew, Hnx. simpl. lia.
      * rewrite Hnew, Hny. simpl. lia.
      * rewrite Hnew, Hnx, Hny. simpl.
        replace (Z.to_nat (n + 1)) with (S (Z.to_nat n)) by lia. simpl. lia.
Qed.

Lemma NoDup_within_length (l elements : list string) :
  NoDup l -> (forall x, x ∈ l -> x ∈ elements) ->
  length l <= length (remove_dups elements).
Proof.
  intros Hnd Hsub. apply submseteq_length, NoDup_submseteq; [done |].
  intros x Hx. apply elem_of_remove_dups. auto.
Qed.

(** A registered vertex of a reachable state is few links below its root. *)
Lemma reachable_depth elements ds x :
  reachable elements ds -> x ∈ elements ->
  exists n r,
    r ∈ elements /\
    root_rel (parent_get ds) (Some x) (Some r) /\
    depth (parent_get ds) (Some x) n /\
    n <= rank_nat ds (Some r) /\
    2 ^ rank_nat ds (Some r) <= length (remove_dups elements) /\
    n <= Nat.log2 (length (remove_dups elements)).
Proof.
  intros Hreach Hx.
  pose proof (reachable_regular _ _ Hreach) as Hreg.
  pose proof (reachable_balanced _ _ Hreach) as Hbal.
  pose proof Hreg as ((H & h & Hr) & _).
  destruct (ranked_root_exists _ _ _ Hr (Some x)) as [r0 Hroot].
  destruct (regular_root _ _ _ _ Hreg Hx Hroot) as (r & Hrin & ->).
  destruct (rank_along_root _ _ _ _ Hreg Hbal Hx Hroot) as (n & Hd & Hle).
  destruct Hbal as [_ Hb2].
  destruct (Hb2 r Hrin (root_rel_is_root _ _ _ Hroot)) as (l & Hnd & Hmem & Hsize).
  pose proof (NoDup_within_length l elements Hnd (fun y Hy => proj1 (Hmem y Hy))) as Hlen.
  assert (2 ^ rank_nat ds (Some r) <= length (remove_dups elements)) as Hpow by lia.
  exists n, r. split_and!; [done | done | done | lia | done |].
  assert (0 < 2 ^ rank_nat ds (Some r)) as Hpos.
  { apply Nat.neq_0_lt_0, Nat.pow_nonzero. lia. }
  transitivity (rank_nat ds (Some r)); [lia |].
  apply Nat.log2_le_pow2; lia.
Qed.
End Balance.

Lemma reachable_find_returns (elements : list string) (ds : DisjointSet)
    (x : string) (stack : nat) :
  reachable elements ds -> x ∈ elements ->
  Nat.log2 (length (remove_dups elements)) < stack ->
  exists ds' r, find stack ds (Some x) = Some (ds', r) /\ reachable elements ds'.
Proof.
  intros Hreach Hx Hlt.
  destruct (reachable_depth _ _ _ Hreach Hx) as (n & r & _ & _ & Hd & _ & _ & Hn).
  destruct (find_depth_enough ds (Some x) n Hd stack ltac:(lia)) as [[ds' r'] Hf].
  exists ds', r'. split; [done |].
  exact (reach_find _ _ _ _ _ _ Hreach Hx Hf).
Qed.

Lemma reachable_union_returns (elements : list string) (ds : DisjointSet)
    (x y : string) (stack : nat) :
  reachable elements ds -> x ∈ elements -> y ∈ elements ->
  Nat.log2 (length (remove_dups elements)) < stack ->
  exists ds' b, union stack ds (Some x) (Some y) = Some (ds', b) /\
                reachable elements ds'.
Proof.
  intros Hreach Hx Hy Hlt.
  destruct (reachable_find_returns _ _ x stack Hreach Hx Hlt) as (ds1 & rx & Hf1 & Hr1).
  destruct (reachable_find_returns _ _ y stack Hr1 Hy Hlt) as (ds2 & ry & Hf2 & _).
  assert (is_Some (union stack ds (Some x) (Some y))) as [[ds' b] Hu].
  { unfold union. rewrite Hf1, Hf2. repeat case_match; eauto. }
  exists ds', b. split; [done |].
  exact (reach_union _ _ _ _ _ _ _ Hreach Hx Hy Hu).
Qed.

Lemma reachable_scan_returns (elements : list string) (stack : nat)
    (rest : list edge) :
  Nat.log2 (length (remove_dups elements)) < stack ->
  endpoints_in elements rest ->
  forall ds mst total,
    reachable elements ds -> is_Some (scan stack ds mst total rest).
Proof.
  intros Hlt. induction rest as [| e rest IH]; intros Hin ds mst total Hreach;
    simpl; [eauto |].
  destruct (Hin e ltac:(by apply elem_of_cons; left)) as [Hu Hv].
  destruct (reachable_union_returns _ _ (u e) (v e) stack Hreach Hu Hv Hlt)
    as (ds' & b & -> & Hreach').
  assert (endpoints_in elements rest) as Hin'.
  { intros e' He'. apply Hin. by apply elem_of_cons; right. }
  destruct b; by apply IH.
Qed.

(** X4. Union by rank keeps the trees shallow. In every state reached from
    the constructor by [find] and [union] on registered vertices, a
    registered vertex is at most [rank(root)] parent links below its root,
    the rank [k] of a root satisfies [2 ^ k <= n] for [n] distinct
    vertices, so the chain is at most [log2 n] links long, and [find]
    returns on every stack that admits [log2 n + 1] nested activations. *)
Theorem union_by_rank_depth (elements : list string) (ds : DisjointSet)
    (x : string) :
  reachable elements ds -> x ∈ elements ->
  exists n r,
    r ∈ elements /\
    root_rel (parent_get ds) (Some x) (Some r) /\
    depth (parent_get ds) (Some x) n /\
    n <= rank_nat ds (Some r) /\
    2 ^ rank_nat ds (Some r) <= length (remove_dups elements) /\
    n <= Nat.log2 (length (remove_dups elements)) /\
    (forall stack, Nat.log2 (length (remove_dups elements)) < stack ->
       exists ds', find stack ds (Some x) = Some (ds', Some r)).
Proof.
  intros Hreach Hx.
  destruct (reachable_depth _ _ _ Hreach Hx)
    as (n & r & Hr & Hroot & Hd & Hrank & Hpow & Hlog).
  exists n, r. split_and!; try done.
  intros stack Hlt.
  destruct (find_depth_enough ds (Some x) n Hd stack ltac:(lia)) as [[ds' r'] Hf].
  pose proof (reachable_regular _ _ Hreach) as ((H & h & Hrk) & _).
  destruct (find_result _ _ _ _ _ _ _ Hrk Hf) as (Hroot' & _).
  rewrite (root_rel_fun _ _ _ _ Hroot' Hroot) in Hf. eauto.
Qed.

Lemma union_by_rank_depth_witness :
  reachable abcd deep /\ "a"%string ∈ abcd /\
  exists n r,
    r ∈ abcd /\
    root_rel (parent_get deep) (Some "a"%string) (Some r) /\
    depth (parent_get deep) (Some "a"%string) n /\
    n <= Nat.log2 (length (remove_dups abcd)).
Proof.
  assert ("a"%string ∈ abcd) as Ha by in_list.
  destruct (union_by_rank_depth abcd deep "a" deep_reachable Ha)
    as (n & r & Hr & Hroot & Hd & _ & _ & Hlog & _).
  split_and!; [exact deep_reachable | exact Ha |].
  exists n, r. split_and!; [exact Hr | exact Hroot | exact Hd | exact Hlog].
Defined.

(** X5. When every endpoint is a registered vertex, [kruskalMST] never
    needs a deep stack: on [n] distinct vertices it returns its result on
    every call stack that admits [log2 n + 1] nested activations of
    [find], however many edges there are. *)
Theorem kruskalMST_log_stack (vertices : list string) (edges : list edge)
    (stack : nat) :
  endpoints_in vertices edges ->
  Nat.log2 (length (remove_dups vertices)) < stack ->
  exists res,
    kruskalMST stack vertices edges = Some res /\
    kruskalMST_returns vertices edges res.
Proof.
  intros Hin Hlt.
  destruct (kruskalMST_returns_greedy vertices edges) as (res & Hret & _).
  assert (is_Some (kruskalMST stack vertices edges)) as [res' Hk].
  { unfold kruskalMST. apply (reachable_scan_returns vertices); [done | |].
    - intros e He. apply Hin. by rewrite <- (js_sort_perm by_weight edges).
    - apply reach_new. }
  exists res. split; [| done].
  rewrite Hk. f_equal. by apply (proj2 Hret stack).
Qed.

Lemma kruskalMST_log_stack_witness :
  endpoints_in demo_vertices demo_edges /\
  Nat.log2 (length (remove_dups demo_vertices)) < 3 /\
  exists res,
    kruskalMST 3 demo_vertices demo_edges = Some res /\
    kruskalMST_returns demo_vertices demo_edges res.
Proof.
  assert (Nat.log2 (length (remove_dups demo_vertices)) < 3) as Hlt
    by (vm_compute; lia).
  split_and!; [exact demo_endpoints | exact Hlt |].
  exact (kruskalMST_log_stack demo_vertices demo_edges 3 demo_endpoints Hlt).
Defined.

(* ===================================================================== *)
(** ** Further properties of [kruskalMST] *)
(* ===================================================================== *)

Section GreedyMore.
Context {K K' E : Type} (f : K -> K') `{!Inj (=) (=) f}
  (src dst : E -> K) (src' dst' : E -> K').
Implicit Types (acc l out : list E).

Lemma greedy_inj acc l out :
  (forall e, e ∈ acc ++ l -> src' e = f (src e) /\ dst' e = f (dst e)) ->
  greedy src' dst' acc l out -> greedy src dst acc l out.
Proof.
  intros Hf Hg. induction Hg as [acc | acc e l out Hn _ IH | acc e l out Hc _ IH].
  - constructor.
  - assert (forall e', e' ∈ acc -> src' e' = f (src e') /\ dst' e' = f (dst e')) as Hacc.
    { intros e' He'. apply Hf, elem_of_app. by left. }
    destruct (Hf e) as [Hs Hd].
    { apply elem_of_app. right. by apply elem_of_cons; left. }
    apply greedy_take.
    + intros Hc. apply Hn. rewrite Hs, Hd.
      by apply (conn_inj_fwd f src dst src' dst').
    + apply IH. intros e' He'. apply Hf.
      rewrite <- app_assoc in He'. done.
  - assert (forall e', e' ∈ acc -> src' e' = f (src e') /\ dst' e' = f (dst e')) as Hacc.
    { intros e' He'. apply Hf, elem_of_app. by left. }
    destruct (Hf e) as [Hs Hd].
    { apply elem_of_app. right. by apply elem_of_cons; left. }
    apply greedy_skip.
    + rewrite Hs, Hd in Hc. by apply (conn_inj f src dst src' dst') in Hc.
    + apply IH. intros e' He'. apply Hf.
      apply elem_of_app in He' as [? | ?]; apply elem_of_app; [by left |].
      right. by apply elem_of_cons; right.
Qed.
End GreedyMore.

Section GreedyEmpty.
Context {K E : Type} (src dst : E -> K).
Implicit Types (acc l out : list E).

(** The scan takes nothing exactly when every scanned edge already has
    connected endpoints. *)
Lemma greedy_nothing acc l out :
  greedy src dst acc l out ->
  (out = acc <-> forall e, e ∈ l -> conn src dst acc (src e) (dst e)).
Proof.
  induction 1 as [acc | acc e l out Hn Hg IH | acc e l out Hc Hg IH].
  - split; [| done]. intros _ e He. by apply elem_of_nil in He.
  - split.
    + intros ->. destruct (greedy_sub _ _ _ _ _ Hg) as (new & Heq & _).
      apply (f_equal length) in Heq. rewrite !length_app in Heq. simpl in Heq. lia.
    + intros Hall. destruct Hn. apply Hall. by apply elem_of_cons; left.
  - rewrite IH. split.
    + intros Hall e' [-> | He']%elem_of_cons; auto.
    + intros Hall e' He'. apply Hall. by apply elem_of_cons; right.
Qed.
End GreedyEmpty.

(** X6. With every endpoint registered, the loop decides each edge of the
    sorted list on the graph alone: an edge is selected exactly when the
    edges selected before it do not already connect its two endpoints. *)
Theorem kruskalMST_selection (vertices : list string) (edges : list edge) :
  endpoints_in vertices edges ->
  exists res,
    kruskalMST_returns vertices edges res /\
    greedy u v [] (js_sort by_weight edges) (mstEdges res).
Proof.
  intros Hin.
  destruct (kruskalMST_returns_greedy vertices edges) as (res & Hret & _ & Hg).
  exists res. split; [done |].
  apply (greedy_inj Some u v (nsrc vertices) (ndst vertices)); [| done].
  intros e He. simpl in He. apply (endpoints_in_keys vertices edges Hin).
  by rewrite <- (js_sort_perm by_weight edges).
Qed.

Lemma kruskalMST_selection_witness :
  endpoints_in demo_vertices demo_edges /\
  exists res,
    kruskalMST_returns demo_vertices demo_edges res /\
    greedy u v [] (js_sort by_weight demo_edges) (mstEdges res).
Proof.
  split; [exact demo_endpoints |].
  exact (kruskalMST_selection demo_vertices demo_edges demo_endpoints).
Defined.

(** X7. Whatever the input, the selected edges are a subsequence of the
    sorted copy of the input: every selected edge is an input edge, none
    is selected more often than it occurs, and they come in the order of
    the sorted copy, which for numeric weights is ascending weight. *)
Theorem mstEdges_sorted_sublist (vertices : list string) (edges : list edge) :
  exists res,
    kruskalMST_returns vertices edges res /\
    sublist (mstEdges res) (js_sort by_weight edges) /\
    (forall e, e ∈ mstEdges res -> e ∈ edges) /\
    length (mstEdges res) <= length edges /\
    (Forall numeric edges ->
     StronglySorted (fun a b => (wt a <= wt b)%Z) (mstEdges res)).
Proof.
  destruct (kruskalMST_returns_greedy vertices edges) as (res & Hret & _ & Hg).
  destruct (greedy_sub _ _ _ _ _ Hg) as (new & Heq & Hsub). simpl in Heq. subst new.
  exists res. split_and!; [done | done | | |].
  - by eapply greedy_in_input.
  - rewrite <- (js_sort_length by_weight edges). by apply sublist_length.
  - intros Hnum. eapply StronglySorted_sublist; [exact Hsub |].
    by apply js_sort_sorted.
Qed.

(** X9. No edge at all is selected exactly when every input edge joins a
    vertex to itself or joins two vertices that were not registered; one
    edge between two different vertices, one of them registered, is enough
    for a non-empty selection, connected graph or not. *)
Theorem mstEdges_empty_iff (vertices : list string) (edges : list edge) :
  exists res,
    kruskalMST_returns vertices edges res /\
    (mstEdges res = [] <->
     forall e, e ∈ edges ->
       u e = v e \/ ((u e ∉ vertices) /\ (v e ∉ vertices))).
Proof.
  destruct (kruskalMST_returns_greedy vertices edges) as (res & Hret & _ & Hg).
  exists res. split; [done |].
  rewrite (greedy_nothing _ _ _ _ _ Hg).
  assert (forall e, conn (nsrc vertices) (ndst vertices) [] (nsrc vertices e) (ndst vertices e)
            <-> u e = v e \/ ((u e ∉ vertices) /\ (v e ∉ vertices))) as Hiff.
  { intros e. split.
    - intros Hc%conn_nil. unfold nsrc, ndst, nrm in Hc.
      repeat case_decide; try done; [left; congruence | right; done].
    - intros [Heq | [Hu Hv]].
      + unfold nsrc, ndst. rewrite Heq. apply conn_refl.
      + unfold nsrc, ndst, nrm. rewrite !decide_False by done. apply conn_refl. }
  split.
  - intros Hall e He. apply Hiff, Hall. by rewrite js_sort_perm.
  - intros Hall e He. apply Hiff, Hall. by rewrite <- (js_sort_perm by_weight edges).
Qed.

(** The selected edges cost no more than any acyclic set of input edges
    that connects what the input connects. *)
Lemma kruskalMST_cost_le (vertices : list string) (edges : list edge)
    (out F : list edge) :
  endpoints_in vertices edges ->
  Forall numeric edges ->
  greedy (nsrc vertices) (ndst vertices) [] (js_sort by_weight edges) out ->
  (forall e, e ∈ F -> e ∈ edges) ->
  forest_rec u v F ->
  (forall a b, connected edges a b -> connected F a b) ->
  (cost out <= cost F)%Z.
Proof.
  intros Hin Hnum Hg Hsub HF Hspan.
  assert (endpoints_in vertices F) as HinF by (by eapply endpoints_in_sub).
  pose proof (endpoints_in_keys _ _ HinF) as HkeysF.
  assert (endpoints_in vertices out) as Hin'.
  { eapply endpoints_in_sub; [| exact Hin]. by eapply greedy_in_input. }
  pose proof (endpoints_in_keys _ _ Hin') as Hkeys'.
  apply (greedy_optimal (nsrc vertices) (ndst vertices) wt
           (js_sort by_weight edges)); [done | | | |].
  - by apply js_sort_sorted.
  - intros e He. rewrite js_sort_perm. auto.
  - by apply (forest_rec_inj Some u v (nsrc vertices) (ndst vertices)).
  - apply conn_incl. intros e He.
    destruct (Hkeys' e He) as [-> ->].
    apply (conn_inj_fwd Some u v); [done |].
    apply Hspan. apply conn_edge. by eapply greedy_in_input.
Qed.

(** X8. For numeric weights and registered endpoints the total does not
    depend on how the input is arranged: listing the edges in another
    order, or the vertices in another order or with repetitions, gives the
    same [totalCost] and the same number of selected edges (the selected
    edges themselves may differ when weights tie). *)
Theorem totalCost_order_independent (vertices vertices' : list string)
    (edges edges' : list edge) :
  endpoints_in vertices edges ->
  Forall numeric edges ->
  edges' ≡ₚ edges ->
  (forall x, x ∈ vertices' <-> x ∈ vertices) ->
  exists res res',
    kruskalMST_returns vertices edges res /\
    kruskalMST_returns vertices' edges' res' /\
    totalCost res' = totalCost res /\
    length (mstEdges res') = length (mstEdges res).
Proof.
  intros Hin Hnum Hperm Hsame.
  assert (endpoints_in vertices' edges') as Hin'.
  { intros e He. rewrite Hperm in He. destruct (Hin e He). by rewrite !Hsame. }
  assert (Forall numeric edges') as Hnum' by (by rewrite Hperm).
  destruct (kruskalMST_returns_greedy vertices edges) as (res & Hret & Ht & Hg).
  destruct (kruskalMST_returns_greedy vertices' edges') as (res' & Hret' & Ht' & Hg').
  destruct (kruskalMST_graph vertices edges res Hin Hg) as (_ & Hfo & Hconn).
  destruct (kruskalMST_graph vertices' edges' res' Hin' Hg') as (_ & Hfo' & Hconn').
  assert (forall a b, connected edges' a b <-> connected edges a b) as Hee.
  { intros a b. apply conn_same_edges. intros e. by rewrite Hperm. }
  assert (forall e, e ∈ mstEdges res -> e ∈ edges) as Hsub
    by (intros e; by eapply greedy_in_input).
  assert (forall e, e ∈ mstEdges res' -> e ∈ edges') as Hsub'
    by (intros e; by eapply greedy_in_input).
  assert (cost (mstEdges res) = cost (mstEdges res')) as Hcost.
  { apply Z.le_antisymm.
    - apply (kruskalMST_cost_le vertices edges); try done.
      + intros e He. rewrite <- Hperm. auto.
      + intros a b Hc. by apply Hconn', Hee.
    - apply (kruskalMST_cost_le vertices' edges'); try done.
      + intros e He. rewrite Hperm. auto.
      + intros a b Hc. by apply Hconn, Hee. }
  exists res, res'. split_and!; [done | done | |].
  - rewrite Ht, Ht', !add_weights_numeric.
    + by rewrite Hcost.
    + rewrite Forall_forall in Hnum |- *. auto.
    + rewrite Forall_forall in Hnum' |- *. auto.
  - apply Nat.le_antisymm.
    + apply (forest_le u v); [done | done |].
      intros a b Hc. by apply Hconn, Hee, Hconn'.
    + apply (forest_le u v); [done | done |].
      intros a b Hc. by apply Hconn', Hee, Hconn.
Qed.

Lemma totalCost_order_independent_witness :
  endpoints_in demo_vertices demo_edges /\
  Forall numeric demo_edges /\
  reverse demo_edges ≡ₚ demo_edges /\
  exists res res',
    kruskalMST_returns demo_vertices demo_edges res /\
    kruskalMST_returns (demo_vertices ++ demo_vertices) (reverse demo_edges) res' /\
    totalCost res' = totalCost res /\
    length (mstEdges res') = length (mstEdges res).
Proof.
  assert (reverse demo_edges ≡ₚ demo_edges) as Hperm by apply reverse_Permutation.
  assert (forall x, x ∈ demo_vertices ++ demo_vertices <-> x ∈ demo_vertices) as Hsame.
  { intros x. rewrite elem_of_app. tauto. }
  split_and!; [exact demo_endpoints | exact demo_numeric | exact Hperm |].
  exact (totalCost_order_independent demo_vertices (demo_vertices ++ demo_vertices)
           demo_edges (reverse demo_edges) demo_endpoints demo_numeric Hperm Hsame).
Defined.

(** X10. A selected edge cannot be bypassed by lighter edges: with numeric
    weights and registered endpoints, the input edges strictly lighter
    than a selected edge never connect its two endpoints. In particular,
    of several input edges joining the same two vertices only a lightest
    one can be selected. *)
Theorem selected_edge_is_lightest_link (vertices : list string)
    (edges : list edge) :
  endpoints_in vertices edges ->
  Forall numeric edges ->
  exists res,
    kruskalMST_returns vertices edges res /\
    (forall e, e ∈ mstEdges res ->
       ~ connected (filter (fun x => (wt x < wt e)%Z) edges) (u e) (v e)) /\
    (forall e e', e ∈ mstEdges res -> e' ∈ edges ->
       (u e' = u e /\ v e' = v e) \/ (u e' = v e /\ v e' = u e) ->
       (wt e <= wt e')%Z).
Proof.
  intros Hin Hnum.
  destruct (kruskalMST_returns_greedy vertices edges) as (res & Hret & _ & Hg).
  destruct (kruskalMST_graph vertices edges res Hin Hg) as (Hin' & Hfo & _).
  assert (forall e, e ∈ mstEdges res ->
       ~ connected (filter (fun x => (wt x < wt e)%Z) edges) (u e) (v e)) as Hlink.
  { intros e He Hc.
    apply forest_rec_acyclic in Hfo.
    apply list_elem_of_split in He as (F1 & F2 & Hsplit).
    apply (Hfo F1 e F2 Hsplit).
    assert (forall a b,
      conn u v (filter (fun x => (wt x <= wt e - 1)%Z) (mstEdges res)) a b ->
      conn u v (F1 ++ F2) a b) as Hdrop.
    { intros a b. apply conn_mono. intros x [Hw Hx]%list_elem_of_filter.
      rewrite Hsplit in Hx. rewrite elem_of_app, elem_of_cons in Hx.
      apply elem_of_app. destruct Hx as [? | [-> | ?]]; [by left | lia | by right]. }
    apply Hdrop. revert Hc. unfold connected. apply conn_incl.
    intros x [Hw Hx]%list_elem_of_filter.
    assert (endpoints_in vertices
              (filter (fun x => (wt x <= wt e - 1)%Z) (mstEdges res))) as Hinf.
    { intros y [_ Hy]%list_elem_of_filter. by apply Hin'. }
    destruct (endpoints_in_keys _ _ Hin x Hx) as [Hs Hd].
    apply (conn_inj Some u v (nsrc vertices) (ndst vertices) _ _ _
             (endpoints_in_keys _ _ Hinf)).
    rewrite <- Hs, <- Hd.
    apply (greedy_span_le (nsrc vertices) (ndst vertices) wt []
             (js_sort by_weight edges) (mstEdges res) (wt e - 1) Hg).
    - intros a b Ha. by apply elem_of_nil in Ha.
    - by apply js_sort_sorted.
    - by rewrite js_sort_perm.
    - lia. }
  exists res. split_and!; [done | done |].
  intros e e' He He' Hends.
  destruct (decide (wt e <= wt e')%Z) as [? | Hlt]; [done | exfalso].
  apply (Hlink e He).
  assert (e' ∈ filter (fun x => (wt x < wt e)%Z) edges) as Hf.
  { apply list_elem_of_filter. split; [lia | done]. }
  destruct Hends as [[<- <-] | [<- <-]].
  - by apply conn_edge.
  - apply conn_sym. by apply conn_edge.
Qed.

Lemma selected_edge_is_lightest_link_witness :
  endpoints_in demo_vertices demo_edges /\
  Forall numeric demo_edges /\
  exists res,
    kruskalMST_returns demo_vertices demo_edges res /\
    (forall e, e ∈ mstEdges res ->
       ~ connected (filter (fun x => (wt x < wt e)%Z) demo_edges) (u e) (v e)).
Proof.
  split_and!; [exact demo_endpoints | exact demo_numeric |].
  destruct (selected_edge_is_lightest_link demo_vertices demo_edges
              demo_endpoints demo_numeric) as (res & Hret & Hlink & _).
  exists res. split; [exact Hret | exact Hlink].
Defined.

(* ===================================================================== *)
(** ** dijkstra: the vertex set, the selection and the relaxation *)
(* ===================================================================== *)

Section DijkstraBasics.
Implicit Types (graph : graph_obj) (s vs vertices visited : list string)
  (d : gmap string distance) (a b c x y m : string).

Lemma elem_of_set_add x y s : y ∈ set_add x s <-> y = x \/ y ∈ s.
Proof.
  unfold set_add. case_decide as Hx.
  - split; [by right | intros [-> | ?]; done].
  - rewrite elem_of_app, list_elem_of_singleton. tauto.
Qed.

Lemma NoDup_set_add x s : NoDup s -> NoDup (set_add x s).
Proof.
  intros Hnd. unfold set_add. case_decide as Hx; [done |].
  apply NoDup_app. split_and!; [done | | apply NoDup_singleton].
  intros y Hy ->%list_elem_of_singleton. done.
Qed.

Lemma length_set_add_new x s : x ∉ s -> length (set_add x s) = S (length s).
Proof.
  intros Hx. unfold set_add. rewrite decide_False by done.
  rewrite length_app. simpl. lia.
Qed.

Lemma fold_set_add (l : list string) :
  forall s, let s' := fold_left (fun vs n => set_add n vs) l s in
  (forall y, y ∈ s' <-> y ∈ s \/ y ∈ l) /\ (NoDup s -> NoDup s').
Proof.
  induction l as [| x l IH]; intros s; cbn zeta; cbn [fold_left].
  - split; [| done]. intros y. rewrite elem_of_nil. tauto.
  - destruct (IH (set_add x s)) as [Hin Hnd]. split.
    + intros y. rewrite Hin, elem_of_set_add, elem_of_cons. tauto.
    + intros Hs. by apply Hnd, NoDup_set_add.
Qed.

Lemma graph_get_key graph a b w :
  (b, w) ∈ graph_get graph a -> a ∈ graph.*1.
Proof.
  induction graph as [| [k adj] graph IH]; simpl; [by intros ?%elem_of_nil |].
  case_decide as Hk.
  - intros _. subst. by apply elem_of_cons; left.
  - intros Hin. apply elem_of_cons; right. auto.
Qed.

Lemma collect_vertices_fold graph (keys : list string) :
  forall s,
  let s' := fold_left
    (fun vs k => fold_left (fun vs n => set_add n vs) (graph_get graph k).*1 vs)
    keys s in
  (forall y, y ∈ s' <->
     y ∈ s \/ exists k, k ∈ keys /\ y ∈ (graph_get graph k).*1) /\
  (NoDup s -> NoDup s').
Proof.
  induction keys as [| k keys IH]; intros s; cbn zeta; cbn [fold_left].
  - split; [| done]. intros y. split; [by left |].
    intros [? | (k & Hk & _)]; [done | by apply elem_of_nil in Hk].
  - destruct (fold_set_add (graph_get graph k).*1 s) as [Hin1 Hnd1].
    destruct (IH (fold_left (fun vs n => set_add n vs) (graph_get graph k).*1 s))
      as [Hin Hnd].
    split.
    + intros y. rewrite Hin, Hin1. split.
      * intros [[? | ?] | (k' & Hk' & Hy)]; [by left | |].
        -- right. exists k. split; [by apply elem_of_cons; left | done].
        -- right. exists k'. split; [by apply elem_of_cons; right | done].
      * intros [? | (k' & [-> | Hk']%elem_of_cons & Hy)]; [by left; left | |].
        -- by left; right.
        -- right. eauto.
    + intros Hs. by apply Hnd, Hnd1.
Qed.

Lemma elem_of_collect_vertices graph y :
  y ∈ collect_vertices graph <->
  y ∈ graph.*1 \/ exists k, k ∈ graph.*1 /\ y ∈ (graph_get graph k).*1.
Proof.
  unfold collect_vertices.
  destruct (collect_vertices_fold graph graph.*1
              (fold_left (fun vs k => set_add k vs) graph.*1 [])) as [Hin _].
  destruct (fold_set_add graph.*1 []) as [Hin0 _].
  rewrite Hin, Hin0. rewrite elem_of_nil. tauto.
Qed.

Lemma NoDup_collect_vertices graph : NoDup (collect_vertices graph).
Proof.
  unfold collect_vertices.
  destruct (collect_vertices_fold graph graph.*1
              (fold_left (fun vs k => set_add k vs) graph.*1 [])) as [_ Hnd].
  destruct (fold_set_add graph.*1 []) as [_ Hnd0].
  apply Hnd, Hnd0. constructor.
Qed.

(** Both ends of an edge are vertices. *)
Lemma edge_vertices graph a b w :
  (b, w) ∈ graph_get graph a ->
  a ∈ collect_vertices graph /\ b ∈ collect_vertices graph.
Proof.
  intros Hin. pose proof (graph_get_key _ _ _ _ Hin) as Ha.
  rewrite !elem_of_collect_vertices. split; [by left |].
  right. exists a. split; [done |].
  apply list_elem_of_fmap. by exists (b, w).
Qed.

Lemma obj_set_lookup (k x : string) (v : distance) d :
  obj_set k v d !! x
  = if decide (k = x /\ k <> "__proto__"%string) then Some v else d !! x.
Proof.
  unfold obj_set. destruct (decide (k = "__proto__"%string)) as [Hk | Hk].
  - rewrite decide_False; [done |]. by intros [_ ?].
  - rewrite lookup_insert. destruct (decide (k = x)) as [-> | Hne].
    + by rewrite decide_True.
    + rewrite decide_False; [done |]. by intros [? _].
Qed.

Lemma init_distances_lookup vertices start x :
  init_distances vertices start !! x
  = if decide (x ∈ vertices /\ x <> "__proto__"%string)
    then Some (if decide (x = start) then Dist 0 else Infinity)
    else None.
Proof.
  unfold init_distances.
  assert (forall d0,
    fold_left
      (fun d y => obj_set y (if decide (y = start) then Dist 0 else Infinity) d)
      vertices d0 !! x
    = if decide (x ∈ vertices /\ x <> "__proto__"%string)
      then Some (if decide (x = start) then Dist 0 else Infinity)
      else d0 !! x) as Hgen.
  { induction vertices as [| y vertices IH]; intros d0; cbn [fold_left].
    - rewrite decide_False; [done |]. intros [[]%elem_of_nil _].
    - rewrite IH, obj_set_lookup.
      destruct (decide (x ∈ vertices /\ x <> "__proto__"%string)) as [[Hx Hp] | Hx].
      + rewrite (decide_True (P := x ∈ y :: vertices /\ _)); [done |].
        split; [by apply elem_of_cons; right | done].
      + destruct (decide (y = x /\ y <> "__proto__"%string)) as [[-> Hp] | Hy].
        * rewrite (decide_True (P := x ∈ x :: vertices /\ _)); [done |].
          split; [by apply elem_of_cons; left | done].
        * rewrite (decide_False (P := x ∈ y :: vertices /\ _)); [done |].
          intros [[-> | ?]%elem_of_cons Hp]; [apply Hy | apply Hx]; done. }
  rewrite Hgen. by case_decide.
Qed.

Lemma dist_get_number d x :
  dist_get d x <> Infinity -> d !! x = Some (dist_get d x).
Proof. unfold dist_get. by destruct (d !! x). Qed.

Lemma dist_get_lookup d x q : d !! x = Some q -> dist_get d x = q.
Proof. unfold dist_get. by intros ->. Qed.

Lemma dist_lt_le (p q : distance) : dist_lt p q = false <-> dist_le q p.
Proof.
  destruct p as [x | |], q as [y | |]; simpl;
    rewrite ?bool_decide_eq_false; split; try done; try lia.
Qed.

Lemma dist_lt_true (p q : distance) :
  dist_lt p q = true -> p <> Infinity /\ dist_le p q /\ ~ dist_le q p.
Proof.
  destruct p as [x | |], q as [y | |]; simpl; try done;
    rewrite ?bool_decide_eq_true; intros H; split_and!; try done; try lia;
    by intros [].
Qed.

Lemma dist_le_refl (p : distance) : dist_le p p.
Proof. destruct p; simpl; try done; lia. Qed.

Lemma dist_le_trans (p q t : distance) : dist_le p q -> dist_le q t -> dist_le p t.
Proof. destruct p, q, t; simpl; try done; lia. Qed.

(** What the search for the closest unvisited vertex finds. *)
Lemma select_min_spec vertices visited d :
  match select_min vertices visited d with
  | (Some m, q) =>
      m ∈ vertices /\ (m ∉ visited) /\ d !! m = Some q /\ q <> Infinity /\
      forall x, x ∈ vertices -> x ∉ visited -> dist_le q (dist_get d x)
  | (None, q) =>
      q = Infinity /\
      forall x, x ∈ vertices -> x ∉ visited -> dist_get d x = Infinity
  end.
Proof.
  unfold select_min.
  induction vertices as [| y vertices IH] using rev_ind.
  - simpl. split; [done |]. intros x Hx. by apply elem_of_nil in Hx.
  - rewrite fold_left_app. cbn [fold_left].
    destruct (fold_left _ vertices (None, Infinity)) as [mv md] eqn:Hfold.
    destruct (negb (bool_decide (y ∈ visited)) && dist_lt (dist_get d y) md) eqn:Hc.
    + apply andb_true_iff in Hc as [Hv Hlt].
      apply negb_true_iff, bool_decide_eq_false in Hv.
      destruct (dist_lt_true _ _ Hlt) as (Hfin & Hle & Hnle).
      split_and!; [apply elem_of_app; right; by apply elem_of_cons; left | done
                  | by apply dist_get_number | done |].
      intros x [Hx | ->%list_elem_of_singleton]%elem_of_app Hxv;
        [| apply dist_le_refl].
      eapply dist_le_trans; [exact Hle |].
      destruct mv as [m |].
      * destruct IH as (_ & _ & _ & _ & Hmin). by apply Hmin.
      * destruct IH as [-> Hinf]. by rewrite (Hinf x Hx Hxv).
    + assert (y ∈ visited \/ dist_le md (dist_get d y)) as Hy.
      { apply andb_false_iff in Hc as [Hv | Hlt].
        - left. apply negb_false_iff, bool_decide_eq_true in Hv. done.
        - right. by apply dist_lt_le. }
      destruct mv as [m |].
      * destruct IH as (Hm & Hmv & Hdm & Hfin & Hmin).
        split_and!; [apply elem_of_app; by left | done | done | done |].
        intros x [Hx | ->%list_elem_of_singleton]%elem_of_app Hxv; [by apply Hmin |].
        destruct Hy as [? | ?]; done.
      * destruct IH as [-> Hinf]. split; [done |].
        intros x [Hx | Hxy%list_elem_of_singleton]%elem_of_app Hxv; [by apply Hinf |].
        subst x. destruct Hy as [? | Hle]; [done |].
        by destruct (dist_get d y).
Qed.

Lemma round_double_exact (z : Z) :
  (Z.abs z <= 2 ^ 53)%Z -> round_double z = Dist z.
Proof.
  intros Hz. unfold round_double.
  destruct (Z.leb_spec (Z.log2 (Z.abs z) - 52) 0) as [He | He]; [done |].
  assert (Z.abs z = 2 ^ 53)%Z as Ha.
  { assert (0 < Z.abs z)%Z as Hpos.
    { destruct (Z.abs z) eqn:E; [simpl in He; lia | lia | lia]. }
    pose proof (Z.log2_spec (Z.abs z) Hpos) as [Hlo _].
    assert (2 ^ 53 <= 2 ^ Z.log2 (Z.abs z))%Z
      by (apply Z.pow_le_mono_r; lia).
    lia. }
  assert (z = 2 ^ 53 \/ z = - 2 ^ 53)%Z as [-> | ->] by lia; by vm_compute.
Qed.

Lemma abs_total_nonneg (es : adjacency) : (0 <= abs_total es)%Z.
Proof. unfold abs_total, sumZ. induction es; csimpl; lia. Qed.

Lemma abs_total_cons (e : string * Z) (es : adjacency) :
  abs_total (e :: es) = (Z.abs e.2 + abs_total es)%Z.
Proof. done. Qed.

Lemma weight_total_submseteq graph (l k : list string) :
  l ⊆+ k -> (weight_total graph l <= weight_total graph k)%Z.
Proof.
  unfold weight_total, sumZ.
  induction 1 as [| x l k _ IH | x y l | x l k _ IH | l k1 k2 _ IH1 _ IH2];
    csimpl; try lia.
  - pose proof (abs_total_nonneg (graph_get graph x)). lia.
Qed.

Lemma weight_total_set_add graph (m : string) (visited : list string) :
  m ∉ visited ->
  weight_total graph (set_add m visited)
  = (weight_total graph visited + abs_total (graph_get graph m))%Z.
Proof.
  intros Hm. unfold set_add. rewrite decide_False by done.
  unfold weight_total. rewrite fmap_app, sumZ_app.
  unfold sumZ. simpl. lia.
Qed.
End DijkstraBasics.

Section DijkstraRelax.
Implicit Types (graph : graph_obj) (vertices visited : list string)
  (d : gmap string distance) (es : adjacency).

Lemma walk_nonneg graph (a x : string) (W : Z) :
  nonneg_weights graph -> walk graph a x W -> (0 <= W)%Z.
Proof.
  intros Hnn. induction 1 as [a | a b c W w Hw IH Hin]; [done |].
  specialize (Hnn _ _ _ Hin). lia.
Qed.

Lemma relax_entries_cons (m : string) (e : string * Z) es d :
  relax_entries m (e :: es) d = relax_entries m es (relax_edge m d e).
Proof. done. Qed.

Lemma dist_get_insert d (b x : string) (q : distance) :
  dist_get (<[b := q]> d) x = if decide (b = x) then q else dist_get d x.
Proof. unfold dist_get. rewrite lookup_insert. by case_decide. Qed.

Lemma abs_total_elem (b : string) (w : Z) es :
  (b, w) ∈ es -> (Z.abs w <= abs_total es)%Z.
Proof.
  induction es as [| e es IH]; [by intros ?%elem_of_nil |].
  rewrite abs_total_cons. pose proof (abs_total_nonneg es).
  intros [<- | Hin]%elem_of_cons; [simpl; lia |]. specialize (IH Hin). lia.
Qed.

Lemma weight_total_nonneg graph (l : list string) : (0 <= weight_total graph l)%Z.
Proof. apply (weight_total_submseteq graph [] l), submseteq_nil_l. Qed.

(** An assignment in the relaxation loop creates no property. *)
Lemma relax_edge_dom (m b : string) (w : Z) d :
  d !! "__proto__"%string = None ->
  is_Some (d !! b) \/ b = "__proto__"%string ->
  forall x, is_Some (relax_edge m d (b, w) !! x) <-> is_Some (d !! x).
Proof.
  intros Hp Hb x. unfold relax_edge.
  destruct (inherited d b); [done |].
  destruct (dist_lt _ _); [| done].
  rewrite obj_set_lookup. case_decide as Hbx; [| done].
  destruct Hbx as [-> Hne]. split; [| by eauto].
  intros _. by destruct Hb.
Qed.

Lemma relax_entries_dom (m : string) es :
  forall d,
  d !! "__proto__"%string = None ->
  (forall b w, (b, w) ∈ es -> is_Some (d !! b) \/ b = "__proto__"%string) ->
  forall x, is_Some (relax_entries m es d !! x) <-> is_Some (d !! x).
Proof.
  induction es as [| [b w] es IH]; intros d Hp Hes x; [done |].
  rewrite relax_entries_cons.
  assert (is_Some (d !! b) \/ b = "__proto__"%string) as Hb
    by (apply (Hes b w); by apply elem_of_cons; left).
  pose proof (relax_edge_dom m b w d Hp Hb) as Hstep.
  rewrite IH; [apply Hstep | |].
  - apply eq_None_not_Some. rewrite Hstep. by rewrite Hp; intros [? ?].
  - intros b' w' Hin. rewrite Hstep. apply (Hes b' w'). by apply elem_of_cons; right.
Qed.

(** Relaxation only lowers distances. *)
Lemma relax_edge_le (m : string) (e : string * Z) d (x : string) :
  dist_le (dist_get (relax_edge m d e) x) (dist_get d x).
Proof.
  destruct e as [b w]. unfold relax_edge.
  destruct (inherited d b); [apply dist_le_refl |].
  destruct (dist_lt _ _) eqn:Hlt; [| apply dist_le_refl].
  unfold dist_get at 1. rewrite obj_set_lookup.
  case_decide as Hbx; [| apply dist_le_refl].
  destruct Hbx as [-> _]. simpl.
  by destruct (dist_lt_true _ _ Hlt) as (_ & Hle & _).
Qed.

Lemma relax_entries_le (m : string) es :
  forall d x, dist_le (dist_get (relax_entries m es d) x) (dist_get d x).
Proof.
  induction es as [| e es IH]; intros d x; [apply dist_le_refl |].
  rewrite relax_entries_cons.
  eapply dist_le_trans; [apply IH | apply relax_edge_le].
Qed.

Lemma exact_at_mono graph (start : string) (B B' : Z) d :
  (B <= B')%Z -> exact_at graph start B d -> exact_at graph start B' d.
Proof.
  intros HB Hex x q Hq. destruct (Hex x q Hq) as [-> | (z & -> & Hw & Hz)];
    [by left | right]. exists z. split_and!; [done | done | lia].
Qed.

(** Within the bound no sum is rounded, and every number stored is the
    weight of a walk. *)
Lemma relax_edge_exact graph (start m b : string) (w B : Z) d :
  (b, w) ∈ graph_get graph m ->
  (0 <= B)%Z -> (B + Z.abs w <= 2 ^ 53)%Z ->
  exact_at graph start B d ->
  exact_at graph start (B + Z.abs w) (relax_edge m d (b, w)).
Proof.
  intros Hin HB Hsafe Hex.
  assert (exact_at graph start (B + Z.abs w) d) as Hd
    by (eapply exact_at_mono; [| exact Hex]; lia).
  unfold relax_edge. destruct (inherited d b); [done |].
  assert (dist_get d m = default Infinity (d !! m)) as -> by done.
  destruct (d !! m) as [qm |] eqn:Hm; simpl; [| done].
  destruct (Hex m qm Hm) as [-> | (zm & -> & Hwalk & Hzm)]; simpl; [done |].
  rewrite round_double_exact by lia.
  destruct (dist_lt _ _); [| done].
  intros x q. rewrite obj_set_lookup. case_decide as Hbx; [| apply Hd].
  destruct Hbx as [-> _]. intros [= <-]. right.
  exists (zm + w)%Z. split_and!; [done | | lia].
  by apply (walk_snoc graph start m x zm w).
Qed.

Lemma relax_entries_exact graph (start m : string) es :
  forall d B,
  (forall e, e ∈ es -> e ∈ graph_get graph m) ->
  (0 <= B)%Z -> (B + abs_total es <= 2 ^ 53)%Z ->
  exact_at graph start B d ->
  exact_at graph start (B + abs_total es) (relax_entries m es d).
Proof.
  induction es as [| [b w] es IH]; intros d B Hes HB Hsafe Hex.
  - eapply exact_at_mono; [| exact Hex]. unfold abs_total, sumZ. simpl. lia.
  - rewrite relax_entries_cons, abs_total_cons in *. simpl in *.
    pose proof (abs_total_nonneg es) as Hnn.
    rewrite Z.add_assoc. apply IH.
    + intros e He. apply Hes. by apply elem_of_cons; right.
    + lia.
    + lia.
    + apply relax_edge_exact; [| done | lia | done].
      apply Hes. by apply elem_of_cons; left.
Qed.

(** The body of the loop when the neighbor has a number of its own and the
    sum is not rounded. *)
Lemma relax_edge_number (m b : string) (w zm : Z) d :
  d !! "__proto__"%string = None ->
  is_Some (d !! b) ->
  dist_get d m = Dist zm ->
  (Z.abs (zm + w) <= 2 ^ 53)%Z ->
  relax_edge m d (b, w)
  = if dist_lt (Dist (zm + w)) (dist_get d b)
    then <[b := Dist (zm + w)]> d else d.
Proof.
  intros Hp [qb Hb] Hm Hsafe. unfold relax_edge, inherited.
  rewrite bool_decide_eq_false_2 by (rewrite Hb; by intros [? _]).
  rewrite Hm. cbn [dist_add]. rewrite round_double_exact by done.
  destruct (dist_lt _ _); [| done].
  unfold obj_set. rewrite decide_False; [done |].
  intros ->. by rewrite Hp in Hb.
Qed.

(** With weights that are not negative, relaxing the edges out of a vertex
    at distance [zm] changes no distance that is at most [zm], lowers none
    below [zm], and leaves every neighbor within [zm + w]. *)
Lemma relax_entries_nonneg (m : string) (zm : Z) es :
  forall d,
  d !! "__proto__"%string = None ->
  (forall b w, (b, w) ∈ es ->
     (0 <= w)%Z /\ (Z.abs (zm + w) <= 2 ^ 53)%Z /\ is_Some (d !! b)) ->
  dist_get d m = Dist zm ->
  (forall x, dist_le (dist_get d x) (Dist zm) ->
     dist_get (relax_entries m es d) x = dist_get d x) /\
  (forall x, dist_le (Dist zm) (dist_get d x) ->
     dist_le (Dist zm) (dist_get (relax_entries m es d) x)) /\
  (forall b w, (b, w) ∈ es ->
     dist_le (dist_get (relax_entries m es d) b) (Dist (zm + w))).
Proof.
  induction es as [| [b w] es IH]; intros d Hp Hes Hm.
  - split_and!; [done | done |]. intros b w Hin. by apply elem_of_nil in Hin.
  - rewrite relax_entries_cons.
    destruct (Hes b w) as (Hw & Hsafe & Hb); [by apply elem_of_cons; left |].
    pose proof (relax_edge_dom m b w d Hp (or_introl Hb)) as Hdom.
    rewrite (relax_edge_number m b w zm d Hp Hb Hm Hsafe) in *.
    set (d1 := if dist_lt (Dist (zm + w)) (dist_get d b)
               then <[b := Dist (zm + w)]> d else d) in *.
    assert (forall x, dist_le (dist_get d x) (Dist zm) -> dist_get d1 x = dist_get d x)
      as Hkeep1.
    { intros x Hx. unfold d1. destruct (dist_lt _ _) eqn:Hlt; [| done].
      rewrite dist_get_insert. case_decide as Hbx; [| done]. subst x.
      destruct (dist_lt_true _ _ Hlt) as (_ & _ & Hn). destruct Hn.
      destruct (dist_get d b); simpl in *; try done; lia. }
    assert (forall x, dist_le (Dist zm) (dist_get d x) -> dist_le (Dist zm) (dist_get d1 x))
      as Hlow1.
    { intros x Hx. unfold d1. destruct (dist_lt _ _); [| done].
      rewrite dist_get_insert. case_decide; [simpl; lia | done]. }
    assert (dist_le (dist_get d1 b) (Dist (zm + w))) as Hedge1.
    { unfold d1. destruct (dist_lt _ _) eqn:Hlt.
      - rewrite dist_get_insert, decide_True by done. simpl. lia.
      - by apply dist_lt_le in Hlt. }
    assert (dist_get d1 m = Dist zm) as Hm1.
    { rewrite Hkeep1; [done |]. rewrite Hm. simpl. lia. }
    destruct (IH d1) as (Hkeep & Hlow & Hedges); [| | done |].
    { apply eq_None_not_Some. rewrite Hdom. by rewrite Hp; intros [? ?]. }
    { intros b' w' Hin.
      destruct (Hes b' w') as (? & ? & ?); [by apply elem_of_cons; right |].
      split_and!; [done | done |]. by apply Hdom. }
    split_and!.
    + intros x Hx. rewrite Hkeep; [by apply Hkeep1 |]. by rewrite Hkeep1.
    + intros x Hx. by apply Hlow, Hlow1.
    + intros b' w' [[= -> ->] | Hin]%elem_of_cons; [| by apply Hedges].
      eapply dist_le_trans; [apply relax_entries_le | done].
Qed.

Lemma dijkstra_inv_proto vertices visited d :
  dijkstra_inv vertices visited d -> d !! "__proto__"%string = None.
Proof.
  intros (_ & _ & Hdom). apply eq_None_not_Some. rewrite Hdom. by intros [_ ?].
Qed.

Lemma dijkstra_inv_step graph (m : string) visited d :
  dijkstra_inv (collect_vertices graph) visited d ->
  m ∈ collect_vertices graph -> m ∉ visited ->
  dijkstra_inv (collect_vertices graph) (set_add m visited) (relax graph m d).
Proof.
  intros Hinv Hm Hmv. pose proof (dijkstra_inv_proto _ _ _ Hinv) as Hp.
  destruct Hinv as (Hnd & Hsub & Hdom). split_and!.
  - by apply NoDup_set_add.
  - intros x [-> | Hx]%elem_of_set_add; auto.
  - intros x. unfold relax. rewrite relax_entries_dom; [done | done |].
    intros b w Hin. destruct (decide (b = "__proto__"%string)); [by right | left].
    apply Hdom. by destruct (edge_vertices _ _ _ _ Hin).
Qed.

Lemma visited_total_le graph (visited : list string) :
  NoDup visited -> (forall x, x ∈ visited -> x ∈ collect_vertices graph) ->
  (weight_total graph visited <= weight_total graph (collect_vertices graph))%Z.
Proof. intros Hnd Hsub. by apply weight_total_submseteq, NoDup_submseteq. Qed.

Lemma dijkstra_exact_step graph (start m : string) visited d :
  safe_graph graph ->
  dijkstra_inv (collect_vertices graph) visited d ->
  dijkstra_exact graph start visited d ->
  m ∈ collect_vertices graph -> m ∉ visited ->
  dijkstra_exact graph start (set_add m visited) (relax graph m d).
Proof.
  intros Hsafe (Hnd & Hsub & _) Hex Hm Hmv. unfold dijkstra_exact, relax.
  rewrite weight_total_set_add by done.
  apply relax_entries_exact; [done | apply weight_total_nonneg | | done].
  rewrite <- weight_total_set_add by done.
  etrans; [| exact Hsafe]. apply visited_total_le; [by apply NoDup_set_add |].
  intros x [-> | Hx]%elem_of_set_add; auto.
Qed.

Lemma dijkstra_settled_step graph (start m : string) (q : distance) visited d :
  nonneg_weights graph -> safe_graph graph ->
  "__proto__"%string ∉ collect_vertices graph ->
  dijkstra_inv (collect_vertices graph) visited d ->
  dijkstra_exact graph start visited d ->
  dijkstra_settled graph start (collect_vertices graph) visited d ->
  m ∈ collect_vertices graph -> m ∉ visited ->
  d !! m = Some q -> q <> Infinity ->
  (forall x, x ∈ collect_vertices graph -> x ∉ visited ->
     dist_le q (dist_get d x)) ->
  dijkstra_settled graph start (collect_vertices graph) (set_add m visited)
    (relax graph m d).
Proof.
  intros Hnn Hsafe Hnp Hinv Hex (Hstart & Hed & Hfar) Hm Hmv Hq Hfin Hmin.
  pose proof (dijkstra_inv_proto _ _ _ Hinv) as Hp.
  destruct Hinv as (Hnd & Hsub & Hdom).
  destruct (Hex m q Hq) as [-> | (z & -> & Hwalk & Hz)]; [done |].
  pose proof (dist_get_lookup _ _ _ Hq) as Hdm.
  assert (weight_total graph visited + abs_total (graph_get graph m) <= 2 ^ 53)%Z
    as Hbound.
  { rewrite <- weight_total_set_add by done.
    etrans; [| exact Hsafe]. apply visited_total_le; [by apply NoDup_set_add |].
    intros x [-> | Hx]%elem_of_set_add; auto. }
  destruct (relax_entries_nonneg m z (graph_get graph m) d) as (Hkeep & Hlow & Hedges);
    [done | | done |].
  { intros b w Hin. split_and!.
    - by apply (Hnn m b w).
    - pose proof (abs_total_elem _ _ _ Hin). lia.
    - apply Hdom. destruct (edge_vertices _ _ _ _ Hin) as [_ Hb].
      split; [done |]. by intros ->. }
  pose proof (relax_entries_le m (graph_get graph m) d) as Hle.
  unfold relax.
  assert (forall a, a ∈ set_add m visited -> dist_le (dist_get d a) (Dist z)) as Hclose.
  { intros a [-> | Ha]%elem_of_set_add.
    - rewrite Hdm. apply dist_le_refl.
    - rewrite <- Hdm. by apply Hfar. }
  split_and!.
  - intros Hs. destruct (Hstart Hs) as (z0 & Hz0 & Hd0).
    rewrite Hkeep; [by eauto |].
    rewrite Hd0. simpl. pose proof (walk_nonneg _ _ _ _ Hnn Hwalk). lia.
  - intros a Ha. rewrite (Hkeep a (Hclose a Ha)).
    apply elem_of_set_add in Ha as [-> | Ha].
    + exists z. split; [done |]. intros b w Hin. by apply Hedges.
    + destruct (Hed a Ha) as (za & Hda & Hout). exists za. split; [done |].
      intros b w Hin. eapply dist_le_trans; [apply Hle | by apply Hout].
  - intros a x Ha Hx Hxv. rewrite (Hkeep a (Hclose a Ha)).
    assert ((x ∉ visited) /\ x <> m) as [Hxv' Hxm].
    { split; intros ?; apply Hxv, elem_of_set_add; auto. }
    eapply dist_le_trans; [apply (Hclose a Ha) |].
    apply Hlow. by apply Hmin.
Qed.
End DijkstraRelax.

(* ===================================================================== *)
(** ** dijkstra: the loop and its result *)
(* ===================================================================== *)

Section DijkstraLoop.
Implicit Types (graph : graph_obj) (vertices visited : list string)
  (d : gmap string distance).

Lemma dijkstra_loop_unfold fuel graph vertices visited d :
  dijkstra_loop fuel graph vertices visited d
  = if bool_decide (length visited < length vertices) then
      match fuel with
      | O => None
      | S fuel' =>
          match select_min vertices visited d with
          | (Some minVertex, minDist) =>
              if decide (minDist = Infinity) then Some d
              else dijkstra_loop fuel' graph vertices (set_add minVertex visited)
                     (relax graph minVertex d)
          | (None, _) => Some d
          end
      end
    else Some d.
Proof. by destruct fuel. Qed.

Lemma dijkstra_loop_S fuel graph vertices :
  forall visited d res,
  dijkstra_loop fuel graph vertices visited d = Some res ->
  dijkstra_loop (S fuel) graph vertices visited d = Some res.
Proof.
  induction fuel as [| fuel IH]; intros visited d res;
    rewrite (dijkstra_loop_unfold (S _)), dijkstra_loop_unfold.
  - case_bool_decide; done.
  - case_bool_decide; [| done].
    destruct (select_min vertices visited d) as [[m |] q]; [| done].
    case_decide; [done |]. apply IH.
Qed.

Lemma dijkstra_loop_mono fuel fuel' graph vertices visited d res :
  fuel <= fuel' ->
  dijkstra_loop fuel graph vertices visited d = Some res ->
  dijkstra_loop fuel' graph vertices visited d = Some res.
Proof.
  induction 1 as [| k _ IH]; [done |]. intros Hl. by apply dijkstra_loop_S, IH.
Qed.

(** When no vertex has a finite distance the loop stops at once. *)
Lemma dijkstra_loop_idle fuel graph vertices visited d res :
  (forall x q, d !! x = Some q -> q = Infinity) ->
  dijkstra_loop fuel graph vertices visited d = Some res -> res = d.
Proof.
  intros Hinf. rewrite dijkstra_loop_unfold.
  case_bool_decide; [| congruence].
  destruct fuel as [| fuel]; [done |].
  pose proof (select_min_spec vertices visited d) as Hsel.
  destruct (select_min vertices visited d) as [[m |] q]; [| congruence].
  destruct Hsel as (_ & _ & Hdm & Hfin & _). by destruct (Hfin (Hinf m q Hdm)).
Qed.

(** The loop ends within one iteration per unvisited vertex, keeps the
    invariant, and stops only when every unvisited vertex is at
    [Infinity]. *)
Lemma dijkstra_loop_inv graph
    (I : list string -> gmap string distance -> Prop) :
  (forall visited d m q,
     dijkstra_inv (collect_vertices graph) visited d -> I visited d ->
     m ∈ collect_vertices graph -> m ∉ visited ->
     d !! m = Some q -> q <> Infinity ->
     (forall x, x ∈ collect_vertices graph -> x ∉ visited ->
        dist_le q (dist_get d x)) ->
     I (set_add m visited) (relax graph m d)) ->
  forall fuel visited d,
    dijkstra_inv (collect_vertices graph) visited d -> I visited d ->
    length (collect_vertices graph) - length visited <= fuel ->
    exists visited' d',
      dijkstra_loop fuel graph (collect_vertices graph) visited d = Some d' /\
      dijkstra_inv (collect_vertices graph) visited' d' /\
      I visited' d' /\
      (forall x, x ∈ collect_vertices graph -> x ∉ visited' ->
         dist_get d' x = Infinity).
Proof.
  intros Hstep.
  assert (forall visited d,
    dijkstra_inv (collect_vertices graph) visited d ->
    ~ length visited < length (collect_vertices graph) ->
    forall x, x ∈ collect_vertices graph -> x ∉ visited ->
      dist_get d x = Infinity) as Hfull.
  { intros visited d (Hnd & Hsub & _) Hlt.
    assert (visited ≡ₚ collect_vertices graph) as Hperm.
    { apply submseteq_length_Permutation; [by apply NoDup_submseteq | lia]. }
    intros x Hx Hxv. by rewrite <- Hperm in Hx. }
  induction fuel as [| fuel IH]; intros visited d Hinv HI Hfuel;
    rewrite dijkstra_loop_unfold.
  - case_bool_decide as Hlt; [lia |].
    exists visited, d. split_and!; [done | done | done | by apply Hfull].
  - case_bool_decide as Hlt;
      [| exists visited, d; split_and!; [done | done | done | by apply Hfull]].
    pose proof (select_min_spec (collect_vertices graph) visited d) as Hsel.
    destruct (select_min (collect_vertices graph) visited d) as [[m |] q].
    + destruct Hsel as (Hm & Hmv & Hdm & Hfin & Hmin).
      rewrite decide_False by done.
      apply IH.
      * by apply dijkstra_inv_step.
      * by eapply Hstep.
      * rewrite length_set_add_new by done. lia.
    + destruct Hsel as [_ Hinf]. exists visited, d. done.
Qed.

Lemma dijkstra_inv_init graph (start : string) :
  dijkstra_inv (collect_vertices graph) []
    (init_distances (collect_vertices graph) start).
Proof.
  split_and!.
  - constructor.
  - intros x Hx. by apply elem_of_nil in Hx.
  - intros x. rewrite init_distances_lookup. case_decide; split; eauto.
    + intros [? ?]; done.
    + done.
Qed.

Lemma dijkstra_exact_init graph (start : string) :
  dijkstra_exact graph start [] (init_distances (collect_vertices graph) start).
Proof.
  intros x q. rewrite init_distances_lookup.
  case_decide; [| done]. case_decide as Hx; intros [= <-]; [| by left].
  right. exists 0%Z. subst x. split_and!; [done | constructor | done].
Qed.

Lemma dijkstra_settled_init graph (start : string) :
  "__proto__"%string ∉ collect_vertices graph ->
  dijkstra_settled graph start (collect_vertices graph) []
    (init_distances (collect_vertices graph) start).
Proof.
  intros Hnp. split_and!.
  - intros Hs. exists 0%Z. split; [done |].
    unfold dist_get. rewrite init_distances_lookup.
    rewrite decide_True by (split; [done | by intros ->]).
    by rewrite decide_True.
  - intros a Ha. by apply elem_of_nil in Ha.
  - intros a x Ha. by apply elem_of_nil in Ha.
Qed.

(** The result of [dijkstra]. *)
Lemma dijkstra_result graph (start : string) :
  exists visited d,
    (forall fuel, length (collect_vertices graph) <= fuel ->
       dijkstra fuel graph start = Some d) /\
    (forall fuel d', dijkstra fuel graph start = Some d' -> d' = d) /\
    dijkstra_inv (collect_vertices graph) visited d /\
    (forall x, x ∈ collect_vertices graph -> x ∉ visited ->
       dist_get d x = Infinity) /\
    (safe_graph graph ->
     dijkstra_exact graph start visited d /\
     (nonneg_weights graph -> "__proto__"%string ∉ collect_vertices graph ->
      dijkstra_settled graph start (collect_vertices graph) visited d)).
Proof.
  set (n := length (collect_vertices graph)).
  destruct (dijkstra_loop_inv graph
              (fun visited d => safe_graph graph ->
                 dijkstra_exact graph start visited d /\
                 (nonneg_weights graph ->
                  "__proto__"%string ∉ collect_vertices graph ->
                  dijkstra_settled graph start (collect_vertices graph) visited d)))
    with (fuel := n) (visited := @nil string)
         (d := init_distances (collect_vertices graph) start)
    as (visited & d & Hloop & Hinv & Hset & Hexit).
  - intros visited d m q Hinv HI Hm Hmv Hdm Hfin Hmin Hsafe.
    destruct (HI Hsafe) as [Hex Hset]. split.
    + by apply dijkstra_exact_step.
    + intros Hnn Hnp.
      by apply (dijkstra_settled_step graph start m q); [| | | | | apply Hset | | | | |].
  - apply dijkstra_inv_init.
  - intros _. split; [apply dijkstra_exact_init |].
    intros _ Hnp. by apply dijkstra_settled_init.
  - simpl. lia.
  - exists visited, d. split_and!; [| | done | done | done].
    + intros fuel Hle. unfold dijkstra. by apply (dijkstra_loop_mono n).
    + intros fuel d' Hd'. unfold dijkstra in Hd'.
      pose proof (dijkstra_loop_mono fuel (fuel + n) _ _ _ _ _ ltac:(lia) Hd') as H1.
      pose proof (dijkstra_loop_mono n (fuel + n) _ _ _ _ _ ltac:(lia) Hloop) as H2.
      congruence.
Qed.

Lemma walk_from_nonkey graph (start x : string) (W : Z) :
  start ∉ graph.*1 -> walk graph start x W -> x = start.
Proof.
  intros Hk. induction 1 as [a | a b c W w Hw IH Hin]; [done |].
  rewrite (IH Hk) in Hin. by apply graph_get_key in Hin.
Qed.

(** At the end no walk beats the distance found. *)
Lemma dijkstra_settled_optimal graph (start : string) (B : Z) visited d :
  exact_at graph start B d ->
  dijkstra_settled graph start (collect_vertices graph) visited d ->
  (forall x, x ∈ collect_vertices graph -> x ∉ visited -> dist_get d x = Infinity) ->
  start ∈ collect_vertices graph ->
  forall x W, walk graph start x W ->
    exists z, dist_get d x = Dist z /\ (z <= W)%Z.
Proof.
  intros Hex (Hstart & Hed & _) Hexit Hs x W Hw.
  induction Hw as [a | a b c W w Hw IH Hin].
  - destruct (Hstart Hs) as (z & Hz & Hd). eauto.
  - destruct (IH Hex Hstart Hs) as (zb & Hdb & Hle).
    assert (b ∈ visited) as Hbv.
    { destruct (decide (b ∈ visited)) as [? | Hn]; [done |].
      rewrite (Hexit b) in Hdb; [done | | done].
      by destruct (edge_vertices _ _ _ _ Hin). }
    destruct (Hed b Hbv) as (zb' & Hdb' & Hout).
    assert (zb' = zb) as -> by congruence.
    specialize (Hout c w Hin).
    destruct (dist_get d c) as [zc | |] eqn:Hc; simpl in Hout; [| done |].
    + exists zc. split; [done | lia].
    + assert (d !! c = Some NegInfinity) as Hl
        by (rewrite <- Hc; apply dist_get_number; by rewrite Hc).
      by destruct (Hex c _ Hl) as [? | (? & ? & _)].
Qed.
End DijkstraLoop.

Section DijkstraDemo.
Lemma test_graph_nonneg : nonneg_weights test_graph.
Proof.
  intros a b w. unfold test_graph. cbn [graph_get].
  repeat case_decide; intros Hin;
    repeat (apply elem_of_cons in Hin as [[= -> ->] | Hin]; [lia |]);
    by apply elem_of_nil in Hin.
Qed.

Lemma test_graph_safe : safe_graph test_graph.
Proof. unfold safe_graph. vm_compute. discriminate. Qed.

Lemma test_graph_no_proto : "__proto__"%string ∉ collect_vertices test_graph.
Proof.
  intros Hin. apply (bool_decide_pack _) in Hin. by vm_compute in Hin.
Qed.
End DijkstraDemo.

(* ===================================================================== *)
(** ** dijkstra: termination, soundness, shortest distances *)
(* ===================================================================== *)

(** X11. [dijkstra] always returns, whatever the weights (negative ones
    too): the [while] loop runs at most once per vertex, so there is one
    result, returned as soon as the loop is allowed as many iterations as
    there are vertices.  The object returned has a property for exactly the
    keys of [graph] and the neighbors listed under them other than
    [__proto__] (a vertex of that name never gets a property), and for
    nothing else.  When [start] does not occur in the graph, or is
    [__proto__], every distance returned is [Infinity]. *)
Theorem dijkstra_returns (graph : graph_obj) (start : string) :
  exists d,
    (forall fuel, length (collect_vertices graph) <= fuel ->
       dijkstra fuel graph start = Some d) /\
    (forall fuel d', dijkstra fuel graph start = Some d' -> d' = d) /\
    (forall x, is_Some (d !! x) <->
       x <> "__proto__"%string /\
       (x ∈ graph.*1 \/ exists k, k ∈ graph.*1 /\ x ∈ (graph_get graph k).*1)) /\
    (start ∉ collect_vertices graph \/ start = "__proto__"%string ->
     forall x q, d !! x = Some q -> q = Infinity).
Proof.
  destruct (dijkstra_result graph start)
    as (visited & d & Hret & Huniq & (_ & _ & Hdom) & _ & _).
  exists d. split_and!; [done | done | |].
  - intros x. rewrite Hdom, elem_of_collect_vertices. tauto.
  - intros Hs.
    assert (forall x q,
      init_distances (collect_vertices graph) start !! x = Some q ->
      q = Infinity) as Hinit.
    { intros x q. rewrite init_distances_lookup.
      case_decide as Hx; [| done]. case_decide as Hxs; [| congruence].
      subst x. destruct Hx as [Hv Hp]. by destruct Hs. }
    specialize (Hret _ (le_n _)). unfold dijkstra in Hret.
    by rewrite (dijkstra_loop_idle _ _ _ _ _ _ Hinit Hret).
Qed.

(** X12. When the absolute values of the weights add up to at most 2^53
    (so that no sum is rounded), every finite distance [dijkstra] reports
    is the total weight of a walk from [start] to that vertex along the
    entries of [graph], negative weights included; no distance is
    [-Infinity]; and a vertex other than [__proto__] that no walk from
    [start] reaches is reported at [Infinity]. *)
Theorem dijkstra_sound (graph : graph_obj) (start : string) (fuel : nat)
    (d : gmap string distance) :
  safe_graph graph ->
  dijkstra fuel graph start = Some d ->
  (forall x z, d !! x = Some (Dist z) ->
     walk graph start x z /\ (Z.abs z <= 2 ^ 53)%Z) /\
  (forall x, d !! x <> Some NegInfinity) /\
  (forall x, x ∈ collect_vertices graph -> x <> "__proto__"%string ->
     (forall W, ~ walk graph start x W) -> d !! x = Some Infinity).
Proof.
  intros Hsafe Hd.
  destruct (dijkstra_result graph start)
    as (visited & d0 & _ & Huniq & (Hnd & Hsub & Hdom) & _ & Hex).
  apply Huniq in Hd as ->. destruct (Hex Hsafe) as [Hexact _].
  assert (forall x z, d0 !! x = Some (Dist z) ->
            walk graph start x z /\ (Z.abs z <= 2 ^ 53)%Z) as Hfin.
  { intros x z Hx.
    destruct (Hexact x _ Hx) as [? | (z' & [= <-] & Hw & Hz)]; [done |].
    split; [done |]. etrans; [exact Hz |]. etrans; [| exact Hsafe].
    by apply visited_total_le. }
  assert (forall x, d0 !! x <> Some NegInfinity) as Hneg.
  { intros x Hx. by destruct (Hexact x _ Hx) as [? | (? & ? & _)]. }
  split_and!; [done | done |].
  intros x Hx Hp Hno.
  destruct (proj2 (Hdom x) (conj Hx Hp)) as [[z | |] Hq]; [| done |].
  - destruct (Hno z). by apply Hfin.
  - by destruct (Hneg x).
Qed.

Lemma dijkstra_sound_witness :
  safe_graph test_graph /\
  dijkstra 4 test_graph "A" = Some (default ∅ (dijkstra 4 test_graph "A")) /\
  (forall x z, default ∅ (dijkstra 4 test_graph "A") !! x = Some (Dist z) ->
     walk test_graph "A" x z /\ (Z.abs z <= 2 ^ 53)%Z).
Proof.
  assert (dijkstra 4 test_graph "A"
          = Some (default ∅ (dijkstra 4 test_graph "A"))) as H
    by (vm_compute; reflexivity).
  split; [exact test_graph_safe |]. split; [exact H |].
  exact (proj1 (dijkstra_sound test_graph "A" 4 _ test_graph_safe H)).
Defined.

(** X13. With weights that are not negative and add up to at most 2^53,
    and no vertex named [__proto__], the distances [dijkstra] returns are
    the shortest ones: for every vertex of the graph the entry is the
    number [z] exactly when [z] is the least total weight of a walk from
    [start] to it, and the entry is [Infinity] exactly when no walk from
    [start] reaches it; the start vertex, when it occurs in the graph, is
    at distance 0. *)
Theorem dijkstra_shortest (graph : graph_obj) (start : string) (fuel : nat)
    (d : gmap string distance) :
  nonneg_weights graph ->
  safe_graph graph ->
  "__proto__"%string ∉ collect_vertices graph ->
  dijkstra fuel graph start = Some d ->
  (start ∈ collect_vertices graph -> d !! start = Some (Dist 0)) /\
  forall x, x ∈ collect_vertices graph ->
    (forall z, d !! x = Some (Dist z) <-> shortest graph start x z) /\
    (d !! x = Some Infinity <-> forall W, ~ walk graph start x W).
Proof.
  intros Hnn Hsafe Hnp Hd.
  destruct (dijkstra_result graph start)
    as (visited & d0 & _ & Huniq & (_ & _ & Hdom) & Hexit & Hex).
  apply Huniq in Hd as ->. destruct (Hex Hsafe) as [Hexact Hset].
  specialize (Hset Hnn Hnp).
  pose proof (dijkstra_settled_optimal graph start _ visited d0 Hexact Hset Hexit)
    as Hopt.
  assert (forall x z, dist_get d0 x = Dist z -> walk graph start x z) as Hsound.
  { intros x z Hz.
    assert (d0 !! x = Some (Dist z)) as Hl
      by (rewrite <- Hz; apply dist_get_number; by rewrite Hz).
    by destruct (Hexact x _ Hl) as [? | (z' & [= <-] & Hw & _)]. }
  assert (forall x W, x ∈ collect_vertices graph -> walk graph start x W ->
            start ∈ collect_vertices graph) as Hstart.
  { intros x W Hx Hw.
    destruct (decide (start ∈ graph.*1)) as [Hk | Hk].
    - apply elem_of_collect_vertices. by left.
    - by apply (walk_from_nonkey _ _ _ _ Hk) in Hw as ->. }
  assert (forall x q, x ∈ collect_vertices graph -> dist_get d0 x = q ->
            d0 !! x = Some q) as Hget.
  { intros x q Hx Hq.
    destruct (proj2 (Hdom x)) as [q' Hq']; [split; [done | by intros ->] |].
    unfold dist_get in Hq. rewrite Hq' in Hq. simpl in Hq. by subst q'. }
  assert (forall x z, x ∈ collect_vertices graph ->
            (d0 !! x = Some (Dist z) <-> shortest graph start x z)) as Hmain.
  { intros x z Hx. split.
    - intros Hz. pose proof (dist_get_lookup _ _ _ Hz) as Hdz.
      split; [by apply Hsound |].
      intros W Hw.
      destruct (Hopt (Hstart _ _ Hx Hw) x W Hw) as (z' & Hz' & Hle).
      congruence.
    - intros [Hw Hmin].
      destruct (Hopt (Hstart _ _ Hx Hw) x z Hw) as (z' & Hz' & Hle).
      pose proof (Hmin z' (Hsound _ _ Hz')) as Hge.
      assert (z' = z) as -> by lia. by apply Hget. }
  split.
  - intros Hs. apply Hmain; [done |]. split; [constructor |].
    intros W Hw. by apply (walk_nonneg graph start start).
  - intros x Hx. split; [intros z; by apply Hmain |]. split.
    + intros Hinf W Hw.
      destruct (Hopt (Hstart _ _ Hx Hw) x W Hw) as (z' & Hz' & _).
      unfold dist_get in Hz'. by rewrite Hinf in Hz'.
    + intros Hno. apply Hget; [done |].
      destruct (dist_get d0 x) as [z | |] eqn:Hq; [| done |].
      * destruct (Hno z). by apply Hsound.
      * assert (d0 !! x = Some NegInfinity) as Hl
          by (rewrite <- Hq; apply dist_get_number; by rewrite Hq).
        by destruct (Hexact x _ Hl) as [? | (? & ? & _)].
Qed.

Lemma dijkstra_shortest_witness :
  nonneg_weights test_graph /\
  safe_graph test_graph /\
  ("__proto__"%string ∉ collect_vertices test_graph) /\
  dijkstra 4 test_graph "A" = Some (default ∅ (dijkstra 4 test_graph "A")) /\
  (forall x, x ∈ collect_vertices test_graph ->
     forall z, default ∅ (dijkstra 4 test_graph "A") !! x = Some (Dist z) <->
               shortest test_graph "A" x z).
Proof.
  assert (dijkstra 4 test_graph "A"
          = Some (default ∅ (dijkstra 4 test_graph "A"))) as H
    by (vm_compute; reflexivity).
  split; [exact test_graph_nonneg |]. split; [exact test_graph_safe |].
  split; [exact test_graph_no_proto |]. split; [exact H |].
  intros x Hx.
  exact (proj1 (proj2 (dijkstra_shortest test_graph "A" 4 _
                         test_graph_nonneg test_graph_safe test_graph_no_proto H)
                 x Hx)).
Defined.
